(** * British Square: the game-tree engine of [bsquare.c]

    A shallow embedding of the bitboard codec, the legality rules, the
    symmetry canonicalizer, the two evaluation strategies and the memoized
    evaluator, followed by the properties proved about them.

    Every [uint64_t] is a [Z] in [0, 2^64); the wrap-around of a C operation
    that can leave that range is written with [u64].  An [int] is a [Z]; the
    conversion of an unsigned value to [int] is [int_of]. *)

From Stdlib Require Import ZArith Lia List Bool Permutation.
From stdpp Require Import base option list gmap.
Import ListNotations.

Local Open Scope Z_scope.

(** ** Machine integers *)

Definition u64 (x : Z) : Z := x mod 2 ^ 64.

(** Conversion to a 32-bit two's-complement [int]. *)
Definition int_of (x : Z) : Z := (x + 2 ^ 31) mod 2 ^ 32 - 2 ^ 31.

(** Wrap-around of a signed 64-bit sum ([int64_t]). *)
Definition i64 (x : Z) : Z := (x + 2 ^ 63) mod 2 ^ 64 - 2 ^ 63.

Definition is_u64 (x : Z) : Prop := 0 <= x < 2 ^ 64.

(** [!x] of C on an [int]. *)
Definition lnot (x : Z) : Z := if x =? 0 then 1 else 0.

(** An [int] used as a condition. *)
Definition truthy (x : Z) : bool := negb (x =? 0).

(** [__builtin_popcountl]: the number of one bits. *)
Fixpoint pos_popcount (p : positive) : Z :=
  match p with
  | xH => 1
  | xO q => pos_popcount q
  | xI q => 1 + pos_popcount q
  end.

Definition POPCOUNT (x : Z) : Z :=
  match x with
  | Zpos p => pos_popcount p
  | _ => 0
  end.

(** ** State codec *)

Definition INIT : Z := u64 (Z.shiftl 1 50).

(** [int who = (turn - 1) % 2], computed on [uint64_t]. *)
Definition who_of (turn : Z) : Z := int_of (u64 (turn - 1) mod 2).

Definition place (b i : Z) : Z :=
  let turn := Z.shiftr b 50 in
  let who := who_of turn in
  let state := Z.land b 0x3ffffffffffff in
  let bit := u64 (Z.shiftl 1 (who * 25 + i)) in
  Z.lor (Z.lor (u64 (Z.shiftl (turn + 1) 50)) state) bit.

Definition pass (b : Z) : Z :=
  let turn := Z.shiftr b 50 in
  let state := Z.land b 0x3ffffffffffff in
  Z.lor (u64 (Z.shiftl (turn + 1) 50)) state.

Definition blocks : list Z :=
  [ 0x0000023; 0x0000047; 0x000008e; 0x000011c; 0x0000218;
    0x0000461; 0x00008e2; 0x00011c4; 0x0002388; 0x0004310;
    0x0008c20; 0x0011c40; 0x0023880; 0x0047100; 0x0086200;
    0x0118400; 0x0238800; 0x0471000; 0x08e2000; 0x10c4000;
    0x0308000; 0x0710000; 0x0e20000; 0x1c40000; 0x1880000 ].

(** [blocks[i]]; reading outside the array is undefined in C and reads 0
    here. *)
Definition blocks_at (i : Z) : Z := nth (Z.to_nat i) blocks 0.

Definition mask (m i : Z) : Z :=
  let turn := Z.shiftr m 50 in
  let who := who_of turn in
  let state := Z.land m 0x3ffffffffffff in
  Z.lor
    (Z.lor (Z.lor (u64 (Z.shiftl (turn + 1) 50)) state)
           (u64 (Z.shiftl (blocks_at i) (lnot who * 25))))
    (u64 (Z.shiftl 1 (who * 25 + i))).

(** The 0-indexed turn number, as an [int]. *)
Definition turn (b : Z) : Z := int_of (u64 (Z.shiftr b 50 - 1)).

(** *** derive

    The first loop of [derive] fills [moves[0]] and [moves[1]] with the
    occupied cells of each plane in index order; [ns[k]] is the length of
    the filled prefix, so each array is a list that grows at its end. *)

Record movelists : Type := MoveLists { moves0 : list Z; moves1 : list Z }.

Definition scan_cell (b : Z) (ml : movelists) (i : Z) : movelists :=
  let ml1 :=
    if Z.land (Z.shiftr b i) 1 =? 0 then ml
    else MoveLists (moves0 ml ++ [i]) (moves1 ml) in
  if Z.land (Z.shiftr b (i + 25)) 1 =? 0 then ml1
  else MoveLists (moves0 ml1) (moves1 ml1 ++ [i]).

Definition cells : list Z := map Z.of_nat (seq 0 25).

Definition scan (b : Z) : movelists :=
  fold_left (scan_cell b) cells (MoveLists [] []).

Definition moves_of (ml : movelists) (k : Z) : list Z :=
  if k =? 0 then moves0 ml else moves1 ml.

(** The body of the second loop:
    [m = i/2 < ns[i%2] ? mask(m, moves[i%2][i/2]) : pass(m)]. *)
Definition derive_step (ml : movelists) (i m : Z) : Z :=
  let k := Z.rem i 2 in
  let j := Z.quot i 2 in
  if j <? Z.of_nat (length (moves_of ml k))
  then mask m (nth (Z.to_nat j) (moves_of ml k) 0)
  else pass m.

(** The second loop: [for (i = 0; turn(m) < turn(b); i++)].  The loop
    counter is bounded by the 14-bit turn field, which bounds the fuel. *)
Fixpoint derive_loop (fuel : nat) (b : Z) (ml : movelists) (i m : Z)
  : option Z :=
  if turn m <? turn b then
    match fuel with
    | O => None
    | S fuel' => derive_loop fuel' b ml (i + 1) (derive_step ml i m)
    end
  else Some m.

Definition derive_fuel : nat := Z.to_nat (2 ^ 14).

Definition derive (b : Z) : option Z :=
  derive_loop derive_fuel b (scan b) 0 INIT.

(** ** Symmetry canonicalizer *)

Definition transpose (b : Z) : Z :=
  Z.lor (Z.lor (Z.lor (Z.lor (Z.lor (Z.lor (Z.lor (Z.lor
    (Z.land (Z.shiftr b 16) 0x00000020000010)
    (Z.land (Z.shiftr b 12) 0x00000410000208))
    (Z.land (Z.shiftr b 8) 0x00008208004104))
    (Z.land (Z.shiftr b 4) 0x00104104082082))
    (Z.land (Z.shiftr b 0) 0xfe082083041041))
    (Z.land (u64 (Z.shiftl b 4)) 0x01041040820820))
    (Z.land (u64 (Z.shiftl b 8)) 0x00820800410400))
    (Z.land (u64 (Z.shiftl b 12)) 0x00410000208000))
    (Z.land (u64 (Z.shiftl b 16)) 0x00200000100000).

Definition flipv (b : Z) : Z :=
  Z.lor (Z.lor (Z.lor (Z.lor
    (Z.land (Z.shiftr b 20) 0x0000003e00001f)
    (Z.land (Z.shiftr b 10) 0x000007c00003e0))
    (Z.land (Z.shiftr b 0) 0xfc00f800007c00))
    (Z.land (u64 (Z.shiftl b 10)) 0x001f00000f8000))
    (Z.land (u64 (Z.shiftl b 20)) 0x03e00001f00000).

(** [c = c < b ? c : b] *)
Definition keep_min (c b : Z) : Z := if c <? b then c else b.

Definition canonicalize (b : Z) : Z :=
  let c := b in
  let b := transpose b in let c := keep_min c b in
  let b := flipv b in let c := keep_min c b in
  let b := transpose b in let c := keep_min c b in
  let b := flipv b in let c := keep_min c b in
  let b := transpose b in let c := keep_min c b in
  let b := flipv b in let c := keep_min c b in
  let b := transpose b in let c := keep_min c b in
  c.

(** ** Legality and termination rules *)

Definition valid (m i : Z) : bool :=
  let turn := Z.shiftr m 50 in
  let who := who_of turn in
  if turn =? 1 then negb (i =? 12)
  else Z.land (Z.shiftr m (who * 25 + i)) 1 =? 0.

Definition nomoves (b m : Z) : bool :=
  let who := who_of (Z.shiftr b 50) in
  Z.land (Z.lor (Z.shiftr b (who * 25)) (Z.shiftr m (who * 25))) 0x1ffffff
  =? 0x1ffffff.

Definition iscomplete (b m : Z) : bool :=
  (Z.land (Z.lor (Z.shiftr b 25) (Z.shiftr m 25)) 0x1ffffff =? 0x1ffffff)
  && (Z.land (Z.lor (Z.shiftr b 0) (Z.shiftr m 0)) 0x1ffffff =? 0x1ffffff).

Global Arguments place : simpl never.
Global Arguments pass : simpl never.
Global Arguments mask : simpl never.
Global Arguments turn : simpl never.
Global Arguments transpose : simpl never.
Global Arguments flipv : simpl never.
Global Arguments canonicalize : simpl never.
Global Arguments valid : simpl never.
Global Arguments nomoves : simpl never.
Global Arguments iscomplete : simpl never.
Global Arguments u64 : simpl never.
Global Arguments INIT : simpl never.

(** ** Evaluation strategies

    The source selects one of two [slot_t] variants at build time; both
    implement the same six operations, collected here in a class.  [zero]
    is the value of a slot of the zero-initialised static table. *)

Class Strategy : Type := {
  slot_t : Type;
  zero : slot_t;
  init : Z -> slot_t;
  getboard : slot_t -> Z;
  setboard : slot_t -> Z -> slot_t;
  score : Z -> slot_t;
  combine : slot_t -> slot_t -> slot_t;
  compare : slot_t -> slot_t -> Z
}.

Module Tally.

Record slot : Type := Slot {
  board : Z;
  p1_wins : Z;
  p2_wins : Z;
  ties : Z
}.

Definition init (b : Z) : slot := Slot b 0 0 0.

Definition getboard (s : slot) : Z := board s.

Definition setboard (s : slot) (b : Z) : slot :=
  Slot b (p1_wins s) (p2_wins s) (ties s).

Definition score (b : Z) : slot :=
  let p0 := POPCOUNT (Z.land b 0x1ffffff) in
  let p1 := POPCOUNT (Z.land (Z.shiftr b 25) 0x1ffffff) in
  Slot b
       (if p0 >? p1 then 1 else 0)
       (if p1 >? p0 then 1 else 0)
       (if p1 =? p0 then 1 else 0).

Definition combine (s0 s1 : slot) : slot :=
  Slot (board s0)
       (i64 (p1_wins s0 + p1_wins s1))
       (i64 (p2_wins s0 + p2_wins s1))
       (i64 (ties s0 + ties s1)).

Definition compare (s0 s1 : slot) : Z := 0.

Definition strategy : Strategy :=
  Build_Strategy slot (Slot 0 0 0 0) init getboard setboard score
                 combine compare.

End Tally.

Module Minimax.

Definition init (b : Z) : Z :=
  let score := if truthy (Z.rem (turn b) 2) then 25 else -25 in
  Z.lor (u64 (Z.shiftl (u64 (score + 25)) 56)) b.

Definition getboard (s : Z) : Z := Z.land s 0xffffffffffffff.

Definition setboard (s b : Z) : Z :=
  Z.lor (Z.land s 0x3f00000000000000) b.

Definition getscore (s : Z) : Z := int_of (Z.shiftr s 56) - 25.

Definition score (b : Z) : Z :=
  let p0 := POPCOUNT (Z.land b 0x1ffffff) in
  let p1 := POPCOUNT (Z.land (Z.shiftr b 25) 0x1ffffff) in
  let score := p0 - p1 in
  Z.lor (u64 (Z.shiftl (u64 (score + 25)) 56)) b.

Definition combine (s0 s1 : Z) : Z :=
  let v0 := getscore s0 in
  let v1 := getscore s1 in
  if truthy (Z.rem (turn (getboard s0)) 2)
  then (if v0 <? v1 then s0 else s1)
  else (if v0 >? v1 then s0 else s1).

Definition compare (s0 s1 : Z) : Z :=
  let v0 := getscore s0 in
  let v1 := getscore s1 in
  if truthy (Z.rem (turn (getboard s0)) 2)
  then v0 - v1
  else v1 - v0.

Definition strategy : Strategy :=
  Build_Strategy Z 0 init getboard setboard score combine compare.

End Minimax.


(** ** Transposition table and evaluator

    [table] is a static array of [table_size] slots, zero-initialised; it is
    a finite map from indices to the slots written so far, an index that was
    never written reading [zero].  [lookup] returns a pointer into [table],
    here the index it points at. *)

(** Outcome of a computation on the table: a value, the failed assertion
    on [table_len], the endless probe loop, or the recursion fuel of the
    model running out. *)
Inductive result (A : Type) : Type :=
| Ret (a : A)
| AssertFail
| Loops
| OutOfFuel.

Arguments Ret {A} a.
Arguments AssertFail {A}.
Arguments Loops {A}.
Arguments OutOfFuel {A}.

Section Evaluator.

Context {strat : Strategy}.

Definition table_size : Z := Z.shiftl 1 24.

Record store : Type := Store { table : gmap Z slot_t; table_len : Z }.

Definition empty_store : store := Store ∅ 0.

Definition table_at (t : gmap Z slot_t) (i : Z) : slot_t :=
  default zero (t !! i).

Definition hash (b : Z) : Z :=
  let h := b in
  let h := u64 (h * 0xcca1cee435c5048f) in
  Z.lxor h (Z.shiftr h 40).

(** One iteration of the probe loop of [lookup]: return the slot, or move
    on to the next index. *)
Inductive probe_result : Type :=
| Found (i : Z)
| Next (i : Z).

Definition probe1 (t : gmap Z slot_t) (b i : Z) : probe_result :=
  let k := getboard (table_at t i) in
  if (k =? 0) || (k =? b) then Found i else Next ((i + 1) mod table_size).

(** [probe d] runs up to [2^d] iterations of the loop. *)
Fixpoint probe (d : nat) (t : gmap Z slot_t) (b i : Z) : probe_result :=
  match d with
  | O => probe1 t b i
  | S d' =>
      match probe d' t b i with
      | Found j => Found j
      | Next i' => probe d' t b i'
      end
  end.

(** [2^24] iterations visit every index of the table: without a hit among
    them the loop of the source never ends, which is [None]. *)
Definition lookup (t : gmap Z slot_t) (b : Z) : option Z :=
  match probe 24 t b (hash b mod table_size) with
  | Found i => Some i
  | Next _ => None
  end.

Definition M (A : Type) : Type := store -> result (A * store).

Definition ret {A : Type} (a : A) : M A := fun st => Ret (a, st).

Definition bind {A B : Type} (c : M A) (f : A -> M B) : M B :=
  fun st =>
    match c st with
    | Ret (a, st') => f a st'
    | AssertFail => AssertFail
    | Loops => Loops
    | OutOfFuel => OutOfFuel
    end.

Notation "'let*' x := c 'in' f" := (bind c (fun x => f))
  (at level 10, x pattern, c at level 100, f at level 200).
Notation "c ;; f" := (bind c (fun _ => f))
  (at level 100, f at level 200, right associativity).

Definition lookup_slot (b : Z) : M Z :=
  fun st =>
    match lookup (table st) b with
    | Some i => Ret (i, st)
    | None => Loops
    end.

Definition read (i : Z) : M slot_t :=
  fun st => Ret (table_at (table st) i, st).

Definition write (i : Z) (s : slot_t) : M unit :=
  fun st => Ret (tt, Store (<[i := s]> (table st)) (table_len st)).

(** [table_len++] followed by the assertion [table_len < table_size]. *)
Definition count_entry : M unit :=
  fun st =>
    let n := u64 (table_len st + 1) in
    if n <? table_size then Ret (tt, Store (table st) n) else AssertFail.

(** [for (int i = 0; i < 5*5; i++)] with a loop-carried value. *)
Fixpoint for_each {A : Type} (l : list Z) (body : A -> Z -> M A) (a : A)
  : M A :=
  match l with
  | [] => ret a
  | i :: l' => let* a' := body a i in for_each l' body a'
  end.

Fixpoint eval (fuel : nat) (b m : Z) : M slot_t :=
  match fuel with
  | O => fun _ => OutOfFuel
  | S fuel' =>
      let b0 := canonicalize b in
      let* slot := lookup_slot b0 in
      let* cur := read slot in
      if negb (truthy (getboard cur)) then
        count_entry ;;
        write slot (init b0) ;;
        if iscomplete b m then
          write slot (score b0) ;; ret (score b0)
        else if nomoves b m then
          let* s := eval fuel' (pass b) (pass m) in
          let s := setboard s b0 in
          write slot s ;; ret s
        else
          let* s :=
            for_each cells
              (fun s i =>
                 if valid m i then
                   let* tmp := eval fuel' (place b i) (mask m i) in
                   let tmp := setboard tmp b0 in
                   ret (combine s tmp)
                 else ret s)
              (init b0) in
          write slot s ;; ret s
      else ret cur
  end.

(** [suggest] fills [moves[0..n)] and returns [n]; the list is that
    prefix. *)
Definition suggest (fuel : nat) (b m : Z) : M (list Z) :=
  let* r :=
    for_each cells
      (fun (st : slot_t * list Z) i =>
         let (best, moves) := st in
         if valid m i then
           let* s := eval fuel (place b i) (mask m i) in
           let s := setboard s b in
           let c := compare best s in
           if c >? 0 then ret (s, [i])
           else if c =? 0 then ret (best, moves ++ [i])
           else ret (best, moves)
         else ret (best, moves))
      (init b, []) in
  ret (snd r).

End Evaluator.

(** ** The space heuristic and its test *)

(** *** heuristic

    [moves[0..n)] is a list that is reset to one move or grows at its end;
    [best] is the largest gain seen.  The gain of a move is the number of
    cells that it newly forbids in the plane [!who]. *)
Definition heuristic_step (b m : Z) (st : Z * list Z) (i : Z)
  : Z * list Z :=
  let who := Z.rem (turn b) 2 in
  let (best, moves) := st in
  if valid m i then
    let t := mask m i in
    let a := Z.land (Z.shiftr m (lnot who * 25)) 0x1ffffff in
    let b := Z.land (Z.shiftr t (lnot who * 25)) 0x1ffffff in
    let v := POPCOUNT b - POPCOUNT a in
    if v >? best then (v, [i])
    else if v =? best then (best, moves ++ [i])
    else (best, moves)
  else (best, moves).

Definition heuristic (b m : Z) : list Z :=
  snd (fold_left (heuristic_step b m) cells (0, [])).

(** *** moves2bits

    [b |= 1L << moves[i]] on a [uint32_t]: the bit is computed as a
    [long] and the result is cut to 32 bits. *)
Definition moves2bits (moves : list Z) : Z :=
  fold_left (fun b k => Z.lor b (Z.shiftl 1 k) mod 2 ^ 32) moves 0.

(** The test of [test_heuristic] on the two lists of moves:
    [(goal | heur) != goal]. *)
Definition heuristic_fails (smoves hmoves : list Z) : bool :=
  let goal := moves2bits smoves in
  let heur := moves2bits hmoves in
  negb (Z.lor goal heur =? goal).


(** ** Vocabulary of the properties

    The documented layouts: a board (position or mask) is a 56-bit value,
    six bits of 1-indexed turn above two 25-bit planes; a minimax slot is a
    6-bit biased score above a 56-bit board; the counters of a tally slot
    are [int64_t]. *)

Definition is_board (b : Z) : Prop := 0 <= b < 2 ^ 56.

Definition is_slot (s : Z) : Prop := 0 <= s < 2 ^ 62.

Definition is_i64 (x : Z) : Prop := - 2 ^ 63 <= x < 2 ^ 63.

Definition tally_wf (s : Tally.slot) : Prop :=
  is_i64 (Tally.p1_wins s) /\ is_i64 (Tally.p2_wins s)
  /\ is_i64 (Tally.ties s).

(** The 1-indexed turn of the board a slot is labelled with is odd when
    player A is to act there. *)
Definition mover_is_A (s : Z) : bool :=
  Z.odd (Z.shiftr (Minimax.getboard s) 50).

(** *** The symmetry group

    [transpose] and [flipv] permute the cells of each plane and keep the six
    turn bits.  [tperm n] is the bit of [b] that [transpose b] has at bit
    [n]: cell [(x, y)] comes from cell [(y, x)]; [fperm] is the same for
    [flipv]: row [y] comes from row [4 - y]. *)

Definition cell_perm (p : Z -> Z -> Z) (n : Z) : Z :=
  if n <? 25 then p (n mod 5) (n / 5)
  else if n <? 50 then 25 + p ((n - 25) mod 5) ((n - 25) / 5)
  else n.

Definition tperm : Z -> Z := cell_perm (fun x y => 5 * x + y).

Definition fperm : Z -> Z := cell_perm (fun x y => 5 * (4 - y) + x).

(** The eight boards [canonicalize] compares, in its order: each is the
    previous one transposed or flipped. *)
Definition symmetries : list (Z -> Z) :=
  let s0 := fun b : Z => b in
  let s1 := fun b => transpose (s0 b) in
  let s2 := fun b => flipv (s1 b) in
  let s3 := fun b => transpose (s2 b) in
  let s4 := fun b => flipv (s3 b) in
  let s5 := fun b => transpose (s4 b) in
  let s6 := fun b => flipv (s5 b) in
  let s7 := fun b => transpose (s6 b) in
  [s0; s1; s2; s3; s4; s5; s6; s7].

Definition orbit (b : Z) : list Z := map (fun T => T b) symmetries.

(** Words over the two generators, acting on boards and on bit indices. *)
Inductive gen : Type := GT | GF.

Definition gen_act (g : gen) : Z -> Z :=
  match g with GT => transpose | GF => flipv end.

Definition gen_perm (g : gen) : Z -> Z :=
  match g with GT => tperm | GF => fperm end.

(** [act [g1; ..; gk] b] applies [gk] first. *)
Fixpoint act (w : list gen) (b : Z) : Z :=
  match w with
  | [] => b
  | g :: w' => gen_act g (act w' b)
  end.

Fixpoint act_perm (w : list gen) (n : Z) : Z :=
  match w with
  | [] => n
  | g :: w' => act_perm w' (gen_perm g n)
  end.

Definition sym_words : list (list gen) :=
  [ []; [GT]; [GF; GT]; [GT; GF; GT]; [GF; GT; GF; GT];
    [GT; GF; GT; GF; GT]; [GF; GT; GF; GT; GF; GT];
    [GT; GF; GT; GF; GT; GF; GT] ].

(** Facts on the two cell permutations, checked by evaluation. *)
Definition gen_facts (g : gen) : bool :=
  forallb (fun n =>
             (0 <=? gen_perm g n) && (gen_perm g n <? 25)
             && (gen_perm g (gen_perm g n) =? n)
             && (gen_perm g (25 + n) =? 25 + gen_perm g n)
             && Bool.eqb (gen_perm g n =? 12) (n =? 12)
             && forallb (fun i =>
                           Bool.eqb (Z.testbit (blocks_at (gen_perm g i))
                                               (gen_perm g n))
                                    (Z.testbit (blocks_at i) n))
                        cells)
          cells
  && forallb (fun n => gen_perm g n =? n) [50; 51; 52; 53; 54; 55].


(** *** Plays

    A move of a play applies to the position and to its mask in
    lockstep. *)

Inductive move : Type :=
| Place (i : Z)
| Pass.

Definition apply_move (bm : Z * Z) (mv : move) : Z * Z :=
  match mv with
  | Place i => (place (fst bm) i, mask (snd bm) i)
  | Pass => (pass (fst bm), pass (snd bm))
  end.

(** Lockstep application of [(place, mask)] on valid cells and of
    [(pass, pass)], from [(INIT, INIT)]; the index counts the plies. *)
Inductive lockstep : nat -> Z -> Z -> Prop :=
| lockstep_init : lockstep 0 INIT INIT
| lockstep_place n b m i :
    lockstep n b m -> 0 <= i < 25 -> valid m i = true ->
    lockstep (S n) (place b i) (mask m i)
| lockstep_pass n b m :
    lockstep n b m -> lockstep (S n) (pass b) (pass m).

(** Legal play: placements on valid cells, passes only when [nomoves]
    holds. *)
Inductive legal : nat -> Z -> Z -> Prop :=
| legal_init : legal 0 INIT INIT
| legal_place n b m i :
    legal n b m -> 0 <= i < 25 -> valid m i = true ->
    legal (S n) (place b i) (mask m i)
| legal_pass n b m :
    legal n b m -> nomoves b m = true ->
    legal (S n) (pass b) (pass m).

(** The game as [eval] plays it: a complete position ends the game, a
    mover without a move passes, and otherwise places on a valid cell. *)
Inductive reachable : Z -> Z -> Prop :=
| reachable_init : reachable INIT INIT
| reachable_pass b m :
    reachable b m -> iscomplete b m = false -> nomoves b m = true ->
    reachable (pass b) (pass m)
| reachable_place b m i :
    reachable b m -> iscomplete b m = false -> nomoves b m = false ->
    0 <= i < 25 -> valid m i = true ->
    reachable (place b i) (mask m i).



Definition game_rule (bm : Z * Z) (mv : move) : bool :=
  negb (iscomplete (fst bm) (snd bm))
  && match mv with
     | Place i =>
         negb (nomoves (fst bm) (snd bm))
         && (0 <=? i) && (i <? 25) && valid (snd bm) i
     | Pass => nomoves (fst bm) (snd bm)
     end.

Fixpoint run (rule : Z * Z -> move -> bool) (moves : list move)
         (bm : Z * Z) : option (Z * Z) :=
  match moves with
  | [] => Some bm
  | mv :: moves' =>
      if rule bm mv then run rule moves' (apply_move bm mv) else None
  end.

(** The fields of a board. *)
Definition tfield (b : Z) : Z := Z.shiftr b 50.

Definition state (b : Z) : Z := Z.land b 0x3ffffffffffff.

Definition build (t s : Z) : Z := Z.lor (Z.shiftl t 50) s.

(** The turn field after one more ply: 14 bits are left above bit 50. *)
Definition next_turn (t : Z) : Z := (t + 1) mod 2 ^ 14.

(** Cell [i] is occupied in neither plane. *)
Definition free_cell (b i : Z) : bool :=
  negb (Z.testbit b i) && negb (Z.testbit b (25 + i)).

(** The claims of the invariant of a play. *)
Definition planes_disjoint (b : Z) : Prop :=
  forall i, 0 <= i < 25 -> ~ (Z.testbit b i = true /\ Z.testbit b (25 + i) = true).

Definition occupied_forbidden (b m : Z) : Prop :=
  forall i, 0 <= i < 25 ->
    Z.testbit b i = true \/ Z.testbit b (25 + i) = true ->
    Z.testbit m i = true /\ Z.testbit m (25 + i) = true.


(** The invariant of a play, with the ranges of the two values. *)
Definition play_inv (b m : Z) : Prop :=
  is_u64 b /\ is_u64 m /\ tfield b = tfield m
  /\ planes_disjoint b /\ occupied_forbidden b m.

(** The measure that bounds the game: free cells count double, and a mover
    who must pass counts one. *)
Definition free_count (b : Z) : Z :=
  Z.of_nat (length (List.filter (free_cell b) cells)).

Definition potential (b m : Z) : Z :=
  2 * free_count b + (if nomoves b m then 1 else 0).


(** A whole game: each mover takes the lowest valid cell, and player B
    passes once before the last placement of player A. *)
Definition sample_game : list move :=
  [Place 0; Place 2; Place 4; Place 6; Place 8; Place 10; Place 9;
   Place 11; Place 13; Place 15; Place 14; Place 16; Place 18; Place 20;
   Place 19; Place 21; Place 23; Pass; Place 24].

Definition sample_end : Z * Z := (0x506318898c6311, 0x53ffffffffffff).

(** The mask after [k] iterations of the second loop of [derive]. *)
Fixpoint replay (ml : movelists) (k : nat) : Z :=
  match k with
  | O => INIT
  | S k' => derive_step ml (Z.of_nat k') (replay ml k')
  end.

(** The two move lists hold cells. *)
Definition moves_ok (ml : movelists) : Prop :=
  Forall (fun c => 0 <= c < 25) (moves0 ml)
  /\ Forall (fun c => 0 <= c < 25) (moves1 ml).

(** [m] is the mask that the pieces [As] of player A and [Bs] of player B
    produce: a piece forbids its cell to its owner and its block to the
    opponent. *)
Definition mask_of_pieces (As Bs : list Z) (m : Z) : Prop :=
  forall j, 0 <= j < 25 ->
    (Z.testbit m j = true <->
     In j As \/ exists c, In c Bs /\ Z.testbit (blocks_at c) j = true)
    /\ (Z.testbit m (25 + j) = true <->
        In j Bs \/ exists c, In c As /\ Z.testbit (blocks_at c) j = true).

Definition pieces_A (b : Z) : list Z := List.filter (fun i => Z.testbit b i) cells.

Definition pieces_B (b : Z) : list Z :=
  List.filter (fun i => Z.testbit b (25 + i)) cells.


(** *** Vocabulary for the evaluator *)

(** What the evaluator relies on from a strategy; [ok] is the range of the
    slots it produces. *)
Class StrategyLaws (strat : Strategy) (ok : slot_t -> Prop) : Prop := {
  zero_board : getboard zero = 0;
  init_law : forall b, is_board b -> ok (init b) /\ getboard (init b) = b;
  score_law : forall b, is_board b -> ok (score b) /\ getboard (score b) = b;
  setboard_law : forall s b,
    ok s -> is_board b -> ok (setboard s b) /\ getboard (setboard s b) = b;
  combine_law : forall a x,
    ok a -> ok x -> getboard x = getboard a ->
    ok (combine a x) /\ getboard (combine a x) = getboard a;
  combine_swap_law : forall a x y,
    ok a -> ok x -> ok y ->
    getboard x = getboard a -> getboard y = getboard a ->
    combine (combine a x) y = combine (combine a y) x
}.

Section EvaluatorVocabulary.

Context {strat : Strategy}.

(** The table has room: [table_len] bounds the number of written slots and
    is below the size of the table, and only indices of the table are
    written. *)
Definition store_ok (st : store) : Prop :=
  table_len st < table_size
  /\ Z.of_nat (size (table st)) <= table_len st
  /\ forall i, is_Some (table st !! i) -> 0 <= i < table_size.

(** The probe loop stops at index [i]. *)
Definition hit (t : gmap Z slot_t) (b i : Z) : bool :=
  (getboard (table_at t i) =? 0) || (getboard (table_at t i) =? b).

(** The call ends: it returns, or the assertion on [table_len] fails. *)
Definition terminates {A : Type} (r : result (A * store)) : Prop :=
  match r with
  | Ret _ | AssertFail => True
  | Loops | OutOfFuel => False
  end.

(** The fold of [eval] over the children of a position: [r i] is the slot
    of the child on cell [i], relabelled and combined in ascending order of
    the valid cells, from [init]. *)
Definition children_fold (b m : Z) (r : Z -> slot_t) : slot_t :=
  fold_left
    (fun s i =>
       if valid m i then combine s (setboard (r i) (canonicalize b)) else s)
    cells (init (canonicalize b)).

(** The value of a position without the table: the recursion of [eval]
    with the lookups removed. *)
Fixpoint eval_spec (fuel : nat) (b m : Z) : slot_t :=
  let b0 := canonicalize b in
  if iscomplete b m then score b0
  else
    match fuel with
    | O => init b0
    | S fuel' =>
        if nomoves b m then setboard (eval_spec fuel' (pass b) (pass m)) b0
        else
          children_fold b m
            (fun i => eval_spec fuel' (place b i) (mask m i))
    end.

(** The turn field of a game stays below 52, which bounds the depth. *)
Definition eval_value (b m : Z) : slot_t :=
  eval_spec (Z.to_nat (52 - tfield b)) b m.

(** A slot labelled [b0] that the strategy can combine. *)
Definition labelled (ok : slot_t -> Prop) (b0 : Z) (s : slot_t) : Prop :=
  ok s /\ getboard s = b0.

(** A slot of the table is final when it holds the value of every
    reachable position that it is the entry of. *)
Definition entry_final (e : slot_t) : Prop :=
  forall b m, reachable b m -> canonicalize b = getboard e ->
              e = eval_value b m.

(** The slots of turn [t] and later are final: during a call of [eval] on
    a position of turn [t] the slots of its callers, of earlier turns,
    hold placeholders. *)
Definition final_from (t : Z) (st : store) : Prop :=
  forall j e, table st !! j = Some e -> t <= tfield (getboard e) ->
              entry_final e.

(** Between calls every slot is final. *)
Definition table_sound (st : store) : Prop := final_from 1 st.

(** From [st] to [st'] each index is unchanged or holds a final slot of
    turn [t] or later. *)
Definition evolves (t : Z) (st st' : store) : Prop :=
  forall j,
    table st' !! j = table st !! j
    \/ exists e, table st' !! j = Some e
                 /\ t <= tfield (getboard e) /\ entry_final e.

End EvaluatorVocabulary.

Section StoreVocabulary.

Context {strat : Strategy}.

(** Every index written in [st] is written in [st']. *)
Definition grows (st st' : store) : Prop :=
  forall i, is_Some (table st !! i) -> is_Some (table st' !! i).

(** A call from a table with room ends, and leaves a table with room. *)
Definition ends_well {A : Type} (st : store) (r : result (A * store)) : Prop :=
  match r with
  | Ret (_, st') => store_ok st' /\ grows st st'
  | AssertFail => True
  | Loops | OutOfFuel => False
  end.

End StoreVocabulary.

(** *** Vocabulary for the further properties *)

(** Cells [i] and [j] of the 5x5 grid are the same cell or share an edge. *)
Definition adjacent (i j : Z) : bool :=
  Z.abs (i mod 5 - j mod 5) + Z.abs (i / 5 - j / 5) <=? 1.

(** A game in which player A has to pass on the thirteenth ply. *)
Definition forced_pass_game : list move :=
  [Place 11; Place 7; Place 1; Place 5; Place 21; Place 4; Place 14;
   Place 18; Place 22; Place 8; Place 24; Place 15].

Definition forced_pass_position : Z * Z :=
  (14646608912205826, 15762598427361279).

(** The number of set bits among the [n] lowest bits. *)
Definition count_bits (x : Z) (n : nat) : Z :=
  Z.of_nat (length (List.filter (Z.testbit x) (map Z.of_nat (seq 0 n)))).

Section TableVocabulary.

Context {strat : Strategy}.

(** The table is well formed: every written slot is in the range [ok] of
    the strategy and holds a nonzero key that [lookup] finds at that slot,
    and [table_len], below the size of the table, is the number of written
    slots. *)
Definition table_wf (ok : slot_t -> Prop) (st : store) : Prop :=
  (forall j e, table st !! j = Some e ->
     ok e /\ getboard e <> 0 /\ lookup (table st) (getboard e) = Some j)
  /\ table_len st = Z.of_nat (size (table st))
  /\ table_len st < table_size.

(** Every written slot of [st] is written in [st'], with the same key. *)
Definition keeps (st st' : store) : Prop :=
  forall j e, table st !! j = Some e ->
    exists e', table st' !! j = Some e' /\ getboard e' = getboard e.

(** What a call of [eval] on a position of canonical board [b0] leaves
    when it returns: a well-formed table that keeps the slots it had and
    holds the returned slot, labelled [b0]. *)
Definition eval_post (ok : slot_t -> Prop) (b0 : Z) (st : store)
           (r : result (slot_t * store)) : Prop :=
  match r with
  | Ret (s, st') =>
      table_wf ok st' /\ keeps st st' /\ labelled ok b0 s
      /\ exists i, table st' !! i = Some s
  | _ => True
  end.

End TableVocabulary.

(** The sample game before its last move: player A has one cell left. *)
Definition last_choice : Z * Z := (21501055251276561, 22517998120075263).

(** The parts of a returned result. *)
Definition is_ret {strat : Strategy} {A : Type} (r : result (A * store))
  : bool :=
  match r with Ret _ => true | _ => false end.

Definition ret_value {strat : Strategy} {A : Type} (d : A)
           (r : result (A * store)) : A :=
  match r with Ret (a, _) => a | _ => d end.

Definition ret_store {strat : Strategy} {A : Type} (r : result (A * store))
  : store :=
  match r with Ret (_, st) => st | _ => empty_store end.

Section SuggestVocabulary.

Context {strat : Strategy}.

(** The body of the loop of [suggest]. *)
Definition suggest_step (fuel : nat) (b m : Z) (st : slot_t * list Z)
           (i : Z) : M (slot_t * list Z) :=
  let (best, moves) := st in
  if valid m i then
    bind (eval fuel (place b i) (mask m i)) (fun s =>
    let s := setboard s b in
    let c := compare best s in
    if c >? 0 then ret (s, [i])
    else if c =? 0 then ret (best, moves ++ [i])
    else ret (best, moves))
  else ret (best, moves).

End SuggestVocabulary.

(** The minimax score of the position after a placement on cell [i]. *)
Definition move_score (b m i : Z) : Z :=
  Minimax.getscore (@eval_value Minimax.strategy (place b i) (mask m i)).

(** Score [x] is at least as good as score [y] for the mover of board [b]:
    player A, who moves on odd turn fields, wants it high, player B
    low. *)
Definition at_least_as_good (b x y : Z) : Prop :=
  if Z.odd (tfield b) then y <= x else x <= y.

(** The range of the minimax slots of a game. *)
Definition score_ok (s : Z) : Prop :=
  is_slot s /\ -25 <= Minimax.getscore s <= 25.

(** The invariant of the loop of the minimax [suggest] after the cells
    [done]: [best] is labelled [b] and at least as good as every move
    seen, [moves] holds the moves seen that are as good as [best], and the
    score of [best] is the one of [init b] or of a move seen. *)
Definition suggest_inv (b m : Z) (done : list Z) (best : Z)
           (moves : list Z) : Prop :=
  Minimax.getboard best = b
  /\ (forall j, In j done -> valid m j = true ->
        at_least_as_good b (Minimax.getscore best) (move_score b m j))
  /\ (forall i, In i moves <->
        In i done /\ valid m i = true
        /\ move_score b m i = Minimax.getscore best)
  /\ (Minimax.getscore best = Minimax.getscore (Minimax.init b)
      \/ exists j, In j done /\ valid m j = true
                   /\ move_score b m j = Minimax.getscore best).

(** A position of the forced-pass game, after ten plies: player A has four
    cells to choose from. *)
Definition choice_position : Z * Z :=
  (12393709570115586, 12946749130702847).

(** The gain of a placement on cell [i] for [heuristic]. *)
Definition space_gain (b m i : Z) : Z :=
  let k := lnot (Z.rem (turn b) 2) * 25 in
  POPCOUNT (Z.land (Z.shiftr (mask m i) k) 0x1ffffff)
  - POPCOUNT (Z.land (Z.shiftr m k) 0x1ffffff).

(** The invariant of the loop of [heuristic] after the cells [done]. *)
Definition heuristic_inv (b m : Z) (done : list Z) (best : Z)
           (moves : list Z) : Prop :=
  (forall j, In j done -> valid m j = true -> space_gain b m j <= best)
  /\ (forall i, In i moves <->
        In i done /\ valid m i = true /\ space_gain b m i = best)
  /\ (best = 0
      \/ exists j, In j done /\ valid m j = true
                   /\ space_gain b m j = best).


(** * Properties *)

(** ** Bit-level facts shared by the proofs *)

Lemma testbit_above (x n k : Z) :
  0 <= x < 2 ^ n -> 0 <= n <= k -> Z.testbit x k = false.
Proof.
  intros Hx Hk.
  destruct (Z.eq_dec x 0) as [->|Hne]; [apply Z.bits_0|].
  apply Z.bits_above_log2; [lia|].
  apply Z.log2_lt_pow2; [lia|].
  eapply Z.lt_le_trans; [apply Hx|].
  apply Z.pow_le_mono_r; lia.
Qed.

Lemma shiftr_small (x n : Z) : 0 <= x < 2 ^ n -> 0 <= n -> Z.shiftr x n = 0.
Proof.
  intros Hx Hn. rewrite Z.shiftr_div_pow2 by lia. apply Z.div_small; lia.
Qed.

Lemma land_ones_small (x n : Z) :
  0 <= x < 2 ^ n -> 0 <= n -> Z.land x (Z.ones n) = x.
Proof.
  intros Hx Hn. rewrite Z.land_ones by lia. apply Z.mod_small; lia.
Qed.

Lemma u64_small (x : Z) : 0 <= x < 2 ^ 64 -> u64 x = x.
Proof. intros H. unfold u64. apply Z.mod_small; lia. Qed.

Lemma u64_range (x : Z) : 0 <= u64 x < 2 ^ 64.
Proof. unfold u64. apply Z.mod_pos_bound. lia. Qed.

Lemma int_of_small (x : Z) : - 2 ^ 31 <= x < 2 ^ 31 -> int_of x = x.
Proof. intros H. unfold int_of. rewrite Z.mod_small; lia. Qed.

Lemma shiftr_range (x n k : Z) :
  0 <= x < 2 ^ n -> 0 <= k <= n -> 0 <= Z.shiftr x k < 2 ^ (n - k).
Proof.
  intros Hx Hk. rewrite Z.shiftr_div_pow2 by lia. split.
  - apply Z.div_pos; lia.
  - apply Z.div_lt_upper_bound; [lia|].
    rewrite <- Z.pow_add_r by lia. replace (k + (n - k)) with n by lia. lia.
Qed.

Lemma land_range (x y n : Z) :
  0 <= y < 2 ^ n -> 0 <= n -> 0 <= Z.land x y < 2 ^ n.
Proof.
  intros Hy Hn.
  assert (H0 : 0 <= Z.land x y) by (apply Z.land_nonneg; lia).
  split; [exact H0|].
  destruct (Z.eq_dec (Z.land x y) 0) as [->|Hne]; [lia|].
  apply Z.log2_lt_pow2; [lia|].
  destruct (Z.eq_dec y 0) as [->|Hy0]; [rewrite Z.land_0_r in Hne; lia|].
  assert (Hl : Z.log2 y < n) by (apply Z.log2_lt_pow2; lia).
  destruct (Z.lt_ge_cases (Z.log2 (Z.land x y)) n) as [?|Hge]; [lia|].
  exfalso.
  assert (Hb : Z.testbit (Z.land x y) (Z.log2 (Z.land x y)) = true)
    by (apply Z.bit_log2; lia).
  rewrite Z.land_spec in Hb.
  rewrite (Z.bits_above_log2 y) in Hb by lia.
  rewrite andb_false_r in Hb. discriminate.
Qed.

Lemma lor_range (x y n : Z) :
  0 <= x < 2 ^ n -> 0 <= y < 2 ^ n -> 0 <= n -> 0 <= Z.lor x y < 2 ^ n.
Proof.
  intros Hx Hy Hn.
  assert (H0 : 0 <= Z.lor x y) by (apply Z.lor_nonneg; lia).
  split; [exact H0|].
  destruct (Z.eq_dec (Z.lor x y) 0) as [->|Hne]; [lia|].
  assert (Hn0 : 0 < n).
  { destruct (Z.eq_dec n 0) as [->|?]; [|lia].
    exfalso; apply Hne. replace x with 0 by lia. replace y with 0 by lia.
    reflexivity. }
  apply Z.log2_lt_pow2; [lia|].
  rewrite Z.log2_lor by lia.
  apply Z.max_lub_lt.
  - destruct (Z.eq_dec x 0) as [->|?]; [simpl; lia|apply Z.log2_lt_pow2; lia].
  - destruct (Z.eq_dec y 0) as [->|?]; [simpl; lia|apply Z.log2_lt_pow2; lia].
Qed.

(** The 1-indexed turn field of a 56-bit board and the parity test of
    [turn]: the 0-indexed turn is odd exactly when the field is even. *)
Lemma turn_parity (b : Z) :
  is_board b -> truthy (Z.rem (turn b) 2) = Z.even (Z.shiftr b 50).
Proof.
  intros Hb. unfold turn, truthy.
  assert (Hf : 0 <= Z.shiftr b 50 < 2 ^ 6)
    by (apply (shiftr_range b 56 50); [exact Hb|lia]).
  destruct (Z.eq_dec (Z.shiftr b 50) 0) as [E|E].
  - rewrite E. vm_compute. reflexivity.
  - rewrite u64_small by lia. rewrite int_of_small by lia.
    rewrite Z.rem_mod_nonneg by lia.
    rewrite Zmod_even, Z.even_sub. change (Z.even 1) with false.
    destruct (Z.even (Z.shiftr b 50)); reflexivity.
Qed.


(** ** Packing of a minimax slot *)

Lemma ones56 : 0xffffffffffffff = Z.ones 56.
Proof. reflexivity. Qed.

Lemma score_field : 0x3f00000000000000 = Z.shiftl (Z.ones 6) 56.
Proof. reflexivity. Qed.

Lemma getboard_board (s : Z) : is_board (Minimax.getboard s).
Proof.
  unfold Minimax.getboard, is_board. apply land_range; [|lia].
  vm_compute. split; [discriminate|reflexivity].
Qed.

Lemma shiftl_u64_small (x n : Z) :
  0 <= n -> 0 <= x < 2 ^ (64 - n) -> n <= 64 ->
  u64 (Z.shiftl x n) = Z.shiftl x n.
Proof.
  intros Hn Hx Hn'. apply u64_small. rewrite Z.shiftl_mul_pow2 by lia.
  split; [apply Z.mul_nonneg_nonneg; lia|].
  replace (2 ^ 64) with (2 ^ (64 - n) * 2 ^ n)
    by (rewrite <- Z.pow_add_r by lia; f_equal; lia).
  apply Z.mul_lt_mono_pos_r; lia.
Qed.

(** A biased score [x] packed above a board [b]. *)
Lemma pack_getboard (x b : Z) :
  0 <= x -> is_board b ->
  Minimax.getboard (Z.lor (Z.shiftl x 56) b) = b.
Proof.
  intros Hx Hb. unfold Minimax.getboard. rewrite ones56.
  rewrite Z.land_lor_distr_l.
  rewrite (land_ones_small b 56) by (try exact Hb; lia).
  rewrite Z.land_ones by lia. rewrite Z.shiftl_mul_pow2 by lia.
  rewrite Z.mod_mul by lia. apply Z.lor_0_l.
Qed.

Lemma pack_shiftr (x b : Z) :
  0 <= x -> is_board b -> Z.shiftr (Z.lor (Z.shiftl x 56) b) 56 = x.
Proof.
  intros Hx Hb. rewrite Z.shiftr_lor.
  rewrite Z.shiftr_shiftl_l by lia. rewrite Z.sub_diag, Z.shiftl_0_r.
  rewrite (shiftr_small b 56) by (try exact Hb; lia). apply Z.lor_0_r.
Qed.

Lemma pack_getscore (x b : Z) :
  0 <= x < 2 ^ 8 -> is_board b ->
  Minimax.getscore (Z.lor (Z.shiftl x 56) b) = x - 25.
Proof.
  intros Hx Hb. unfold Minimax.getscore. rewrite pack_shiftr by (try exact Hb; lia).
  rewrite int_of_small; lia.
Qed.

Lemma init_packed (b : Z) :
  Minimax.init b =
  Z.lor (Z.shiftl (if truthy (Z.rem (turn b) 2) then 50 else 0) 56) b.
Proof.
  unfold Minimax.init. destruct (truthy (Z.rem (turn b) 2)); reflexivity.
Qed.

(** A [uint64_t] slot is its score byte above its board. *)
Lemma slot_split (s : Z) :
  s = Z.lor (Z.shiftl (Z.shiftr s 56) 56) (Minimax.getboard s).
Proof.
  unfold Minimax.getboard. rewrite ones56.
  apply Z.bits_inj'; intros k Hk. rewrite Z.lor_spec, Z.land_spec.
  destruct (Z.lt_ge_cases k 56) as [Hlt|Hge].
  - rewrite Z.shiftl_spec_low by lia. rewrite Z.ones_spec_low by lia.
    rewrite andb_true_r. reflexivity.
  - rewrite Z.shiftl_spec by lia. rewrite Z.shiftr_spec by lia.
    rewrite Z.ones_spec_high by lia. rewrite andb_false_r, orb_false_r.
    f_equal. lia.
Qed.

Lemma slot_eq (s0 s1 : Z) :
  is_u64 s0 -> is_u64 s1 ->
  Minimax.getboard s0 = Minimax.getboard s1 ->
  Minimax.getscore s0 = Minimax.getscore s1 -> s0 = s1.
Proof.
  intros H0 H1 Hb Hs.
  assert (R0 : 0 <= Z.shiftr s0 56 < 2 ^ 8)
    by (apply (shiftr_range s0 64 56); [exact H0|lia]).
  assert (R1 : 0 <= Z.shiftr s1 56 < 2 ^ 8)
    by (apply (shiftr_range s1 64 56); [exact H1|lia]).
  unfold Minimax.getscore in Hs. rewrite !int_of_small in Hs by lia.
  rewrite (slot_split s0), (slot_split s1). rewrite Hb. f_equal. f_equal. lia.
Qed.

(** ** The strategies' algebra *)

Lemma combine_mode (s0 s1 : Z) :
  Minimax.combine s0 s1 =
  if mover_is_A s0
  then (if Minimax.getscore s0 >? Minimax.getscore s1 then s0 else s1)
  else (if Minimax.getscore s0 <? Minimax.getscore s1 then s0 else s1).
Proof.
  unfold Minimax.combine, mover_is_A.
  rewrite turn_parity by apply getboard_board.
  rewrite <- Z.negb_odd.
  destruct (Z.odd (Z.shiftr (Minimax.getboard s0) 50)); reflexivity.
Qed.

Lemma compare_mode (s0 s1 : Z) :
  Minimax.compare s0 s1 =
  if mover_is_A s0
  then Minimax.getscore s1 - Minimax.getscore s0
  else Minimax.getscore s0 - Minimax.getscore s1.
Proof.
  unfold Minimax.compare, mover_is_A.
  rewrite turn_parity by apply getboard_board.
  rewrite <- Z.negb_odd.
  destruct (Z.odd (Z.shiftr (Minimax.getboard s0) 50)); reflexivity.
Qed.

Lemma i64_small (x : Z) : - 2 ^ 63 <= x < 2 ^ 63 -> i64 x = x.
Proof. intros H. unfold i64. rewrite Z.mod_small; lia. Qed.

Lemma i64_add_l (x y : Z) : i64 (i64 x + y) = i64 (x + y).
Proof.
  unfold i64. f_equal.
  replace ((x + 2 ^ 63) mod 2 ^ 64 - 2 ^ 63 + y + 2 ^ 63)
    with ((x + 2 ^ 63) mod 2 ^ 64 + y) by lia.
  rewrite Zplus_mod_idemp_l. f_equal. lia.
Qed.

Lemma tally_combine_swap (a x y : Tally.slot) :
  Tally.combine (Tally.combine a x) y = Tally.combine (Tally.combine a y) x.
Proof.
  unfold Tally.combine; simpl. rewrite !i64_add_l.
  f_equal; f_equal; lia.
Qed.

Lemma minimax_combine_label (a x : Z) :
  Minimax.getboard x = Minimax.getboard a ->
  Minimax.getboard (Minimax.combine a x) = Minimax.getboard a.
Proof.
  intros H. rewrite combine_mode.
  destruct (mover_is_A a);
    [destruct (_ >? _)|destruct (_ <? _)]; congruence.
Qed.

Lemma minimax_combine_u64 (a x : Z) :
  is_u64 a -> is_u64 x -> is_u64 (Minimax.combine a x).
Proof.
  intros Ha Hx. rewrite combine_mode.
  destruct (mover_is_A a);
    [destruct (_ >? _)|destruct (_ <? _)]; assumption.
Qed.

Lemma minimax_combine_swap (b a x y : Z) :
  is_u64 a -> is_u64 x -> is_u64 y ->
  Minimax.getboard a = b -> Minimax.getboard x = b ->
  Minimax.getboard y = b ->
  Minimax.combine (Minimax.combine a x) y
  = Minimax.combine (Minimax.combine a y) x.
Proof.
  intros Ua Ux Uy La Lx Ly.
  assert (Exy : Minimax.getscore x = Minimax.getscore y -> x = y)
    by (intros; apply slot_eq; congruence).
  assert (Eax : Minimax.getscore a = Minimax.getscore x -> a = x)
    by (intros; apply slot_eq; congruence).
  assert (Eay : Minimax.getscore a = Minimax.getscore y -> a = y)
    by (intros; apply slot_eq; congruence).
  assert (Mx : mover_is_A x = mover_is_A a)
    by (unfold mover_is_A; congruence).
  assert (My : mover_is_A y = mover_is_A a)
    by (unfold mover_is_A; congruence).
  rewrite (combine_mode a x), (combine_mode a y).
  destruct (mover_is_A a) eqn:Ma.
  - destruct (Z.gtb_spec (Minimax.getscore a) (Minimax.getscore x));
    destruct (Z.gtb_spec (Minimax.getscore a) (Minimax.getscore y));
    rewrite !combine_mode, ?Mx, ?My, ?Ma;
    repeat match goal with
           | |- context [?u >? ?v] => destruct (Z.gtb_spec u v)
           end; try reflexivity; try lia;
    first [apply Exy; lia | symmetry; apply Exy; lia
          | apply Eax; lia | symmetry; apply Eax; lia
          | apply Eay; lia | symmetry; apply Eay; lia].
  - destruct (Z.ltb_spec (Minimax.getscore a) (Minimax.getscore x));
    destruct (Z.ltb_spec (Minimax.getscore a) (Minimax.getscore y));
    rewrite !combine_mode, ?Mx, ?My, ?Ma;
    repeat match goal with
           | |- context [?u <? ?v] => destruct (Z.ltb_spec u v)
           end; try reflexivity; try lia;
    first [apply Exy; lia | symmetry; apply Exy; lia
          | apply Eax; lia | symmetry; apply Eax; lia
          | apply Eay; lia | symmetry; apply Eay; lia].
Qed.

(** A left fold does not depend on the order of its list when the step
    function can swap any two elements over an accumulator. *)
Lemma fold_left_swap_perm {A B : Type} (f : A -> B -> A)
      (I : A -> Prop) (J : B -> Prop) :
  (forall a x, I a -> J x -> I (f a x)) ->
  (forall a x y, I a -> J x -> J y -> f (f a x) y = f (f a y) x) ->
  forall l l', Permutation l l' -> Forall J l ->
  forall a, I a -> fold_left f l a = fold_left f l' a.
Proof.
  intros Hclosed Hswap l l' HP.
  induction HP as [|x l l' HP IH|x y l|l l' l'' HP1 IH1 HP2 IH2];
    intros HJ a Ha; simpl.
  - reflexivity.
  - inversion HJ; subst. apply IH; [assumption|]. apply Hclosed; assumption.
  - inversion HJ as [|? ? Jy HJ']; subst. inversion HJ' as [|? ? Jx ?]; subst.
    rewrite (Hswap a y x) by assumption. reflexivity.
  - rewrite IH1 by assumption. apply IH2; [|assumption].
    eapply Permutation_Forall; eassumption.
Qed.


(** ** Claims on the strategies *)

(** C5. Minimax variant, two slots labelled with a common board: [combine]
    returns one of them, the one of maximal score when player A is to act
    at that board (odd 1-indexed turn) and of minimal score when player B
    is; [compare] is positive exactly when the second slot is strictly
    better than the first for that mover. *)
Theorem minimax_combine_compare (s0 s1 : Z) :
  Minimax.getboard s0 = Minimax.getboard s1 ->
  (Minimax.combine s0 s1 = s0 \/ Minimax.combine s0 s1 = s1)
  /\ Minimax.getscore (Minimax.combine s0 s1)
     = (if mover_is_A s0
        then Z.max (Minimax.getscore s0) (Minimax.getscore s1)
        else Z.min (Minimax.getscore s0) (Minimax.getscore s1))
  /\ (0 < Minimax.compare s0 s1 <->
      if mover_is_A s0
      then Minimax.getscore s0 < Minimax.getscore s1
      else Minimax.getscore s1 < Minimax.getscore s0).
Proof.
  intros _. rewrite combine_mode, compare_mode.
  destruct (mover_is_A s0).
  - destruct (Z.gtb_spec (Minimax.getscore s0) (Minimax.getscore s1));
      (split; [auto|split; lia]).
  - destruct (Z.ltb_spec (Minimax.getscore s0) (Minimax.getscore s1));
      (split; [auto|split; lia]).
Qed.

Lemma minimax_combine_compare_witness :
  Minimax.getscore
    (Minimax.combine (Minimax.score INIT) (Minimax.init INIT)) = 0.
Proof.
  rewrite (proj1 (proj2 (minimax_combine_compare
                           (Minimax.score INIT) (Minimax.init INIT)
                           eq_refl))).
  vm_compute. reflexivity.
Defined.

(** C7. For both variants the fold of [combine] over sibling slots does not
    depend on their order: in the minimax variant when the accumulator and
    all slots carry the same board label, in the tally variant always. *)
Theorem combine_fold_order_independent :
  (forall (b a : Z) (l l' : list Z),
      Permutation l l' ->
      is_u64 a -> Minimax.getboard a = b ->
      Forall (fun s => is_u64 s /\ Minimax.getboard s = b) l ->
      fold_left Minimax.combine l a = fold_left Minimax.combine l' a)
  /\ (forall (a : Tally.slot) (l l' : list Tally.slot),
         Permutation l l' ->
         fold_left Tally.combine l a = fold_left Tally.combine l' a).
Proof.
  split.
  - intros b a l l' HP Ua La HF.
    apply (fold_left_swap_perm Minimax.combine
             (fun s => is_u64 s /\ Minimax.getboard s = b)
             (fun s => is_u64 s /\ Minimax.getboard s = b));
      try assumption; [| |split; assumption].
    + intros a0 x [Ua0 La0] [Ux Lx]. split.
      * apply minimax_combine_u64; assumption.
      * rewrite minimax_combine_label; congruence.
    + intros a0 x y [Ua0 La0] [Ux Lx] [Uy Ly].
      apply (minimax_combine_swap b); assumption.
  - intros a l l' HP.
    apply (fold_left_swap_perm Tally.combine (fun _ => True) (fun _ => True));
      auto.
    + intros; apply tally_combine_swap.
    + apply Forall_forall; auto.
Qed.

Lemma combine_fold_order_independent_witness :
  fold_left Minimax.combine [Minimax.score INIT; Minimax.init INIT]
            (Minimax.init INIT)
  = fold_left Minimax.combine [Minimax.init INIT; Minimax.score INIT]
              (Minimax.init INIT).
Proof.
  apply (proj1 combine_fold_order_independent INIT).
  - apply perm_swap.
  - vm_compute. split; [discriminate|reflexivity].
  - vm_compute. reflexivity.
  - repeat constructor; vm_compute; try reflexivity; discriminate.
Defined.

Lemma minimax_setboard_fields (s b : Z) :
  is_slot s -> is_board b ->
  Minimax.getboard (Minimax.setboard s b) = b
  /\ Z.shiftr (Minimax.setboard s b) 56 = Z.shiftr s 56
  /\ Minimax.getscore (Minimax.setboard s b) = Minimax.getscore s.
Proof.
  intros Hs Hb.
  assert (Hf : 0 <= Z.shiftr s 56 < 2 ^ 6)
    by (apply (shiftr_range s 62 56); [exact Hs|lia]).
  assert (E : Minimax.setboard s b = Z.lor (Z.shiftl (Z.shiftr s 56) 56) b).
  { unfold Minimax.setboard. f_equal. rewrite score_field.
    apply Z.bits_inj'; intros k Hk. rewrite Z.land_spec.
    destruct (Z.lt_ge_cases k 56).
    - rewrite !Z.shiftl_spec_low by lia. apply andb_false_r.
    - rewrite !Z.shiftl_spec by lia. rewrite Z.shiftr_spec by lia.
      replace (k - 56 + 56) with k by lia.
      destruct (Z.lt_ge_cases k 62).
      + rewrite Z.ones_spec_low by lia. apply andb_true_r.
      + rewrite (testbit_above s 62 k) by (try exact Hs; lia).
        reflexivity. }
  rewrite E. split; [|split].
  + apply pack_getboard; [lia|exact Hb].
  + apply pack_shiftr; [lia|exact Hb].
  + unfold Minimax.getscore. rewrite pack_shiftr by (try exact Hb; lia).
    reflexivity.
Qed.

(** C9. Relabelling changes only the board field.  Tally variant: the board
    becomes [b], the three counters stay.  Minimax variant, for a 56-bit
    board [b]: the board becomes [b], the six bits of biased score stay,
    and so does the score read by [getscore] of a slot whose score is held in
    those six bits. *)
Theorem setboard_changes_board_only :
  (forall (s : Tally.slot) (b : Z),
      Tally.getboard (Tally.setboard s b) = b
      /\ Tally.p1_wins (Tally.setboard s b) = Tally.p1_wins s
      /\ Tally.p2_wins (Tally.setboard s b) = Tally.p2_wins s
      /\ Tally.ties (Tally.setboard s b) = Tally.ties s)
  /\ (forall s b : Z,
         is_slot s -> is_board b ->
         Minimax.getboard (Minimax.setboard s b) = b
         /\ Z.shiftr (Minimax.setboard s b) 56 = Z.shiftr s 56
         /\ Minimax.getscore (Minimax.setboard s b) = Minimax.getscore s).
Proof.
  split.
  - intros s b. repeat split.
  - apply minimax_setboard_fields.
Qed.

Lemma setboard_changes_board_only_witness :
  Minimax.getscore (Minimax.setboard (Minimax.score INIT) (pass INIT))
  = Minimax.getscore (Minimax.score INIT).
Proof.
  apply (proj2 setboard_changes_board_only).
  - vm_compute. split; [discriminate|reflexivity].
  - vm_compute. split; [discriminate|reflexivity].
Defined.

(** C10. [init b] is a left identity of [combine].  Minimax variant:
    [combine (init b) s] is [s] for a 56-bit board [b] and a slot [s] whose
    score lies in [-25, 25].  Tally variant: [combine (init b) s] has the
    counters of [s] and the board [b]. *)
Theorem init_left_identity :
  (forall b s : Z,
      is_board b ->
      -25 <= Minimax.getscore s <= 25 ->
      Minimax.combine (Minimax.init b) s = s)
  /\ (forall (b : Z) (s : Tally.slot),
         tally_wf s ->
         Tally.p1_wins (Tally.combine (Tally.init b) s) = Tally.p1_wins s
         /\ Tally.p2_wins (Tally.combine (Tally.init b) s) = Tally.p2_wins s
         /\ Tally.ties (Tally.combine (Tally.init b) s) = Tally.ties s
         /\ Tally.getboard (Tally.combine (Tally.init b) s) = b).
Proof.
  split.
  - intros b s Hb Hs. rewrite combine_mode. unfold mover_is_A.
    rewrite init_packed.
    assert (Hx : 0 <= (if truthy (Z.rem (turn b) 2) then 50 else 0) < 2 ^ 8)
      by (destruct (truthy _); lia).
    rewrite pack_getboard by (try exact Hb; lia).
    rewrite pack_getscore by (try exact Hb; lia).
    rewrite turn_parity by exact Hb. rewrite <- Z.negb_odd.
    destruct (Z.odd (Z.shiftr b 50)); simpl negb; cbv iota.
    + destruct (Z.gtb_spec (0 - 25) (Minimax.getscore s)); [lia|reflexivity].
    + destruct (Z.ltb_spec (50 - 25) (Minimax.getscore s)); [lia|reflexivity].
  - intros b s (H1 & H2 & H3). unfold Tally.combine, Tally.init; simpl.
    rewrite !i64_small by assumption. repeat split.
Qed.

Lemma init_left_identity_witness :
  Minimax.combine (Minimax.init INIT) (Minimax.score INIT)
  = Minimax.score INIT.
Proof.
  apply (proj1 init_left_identity).
  - vm_compute. split; [discriminate|reflexivity].
  - vm_compute. split; discriminate.
Defined.


(** ** The symmetries as bit permutations *)

Lemma range_forall (k : nat) (P : Z -> Prop) :
  Forall P (map Z.of_nat (seq 0 k)) ->
  forall n, 0 <= n < Z.of_nat k -> P n.
Proof.
  intros HF n Hn. rewrite Stdlib.Lists.List.Forall_forall in HF. apply HF.
  apply in_map_iff. exists (Z.to_nat n). split; [lia|].
  apply in_seq. lia.
Qed.

Lemma range_forallb (k : nat) (p : Z -> bool) :
  forallb p (map Z.of_nat (seq 0 k)) = true ->
  forall n, 0 <= n < Z.of_nat k -> p n = true.
Proof.
  intros HF n Hn. rewrite forallb_forall in HF. apply HF.
  apply in_map_iff. exists (Z.to_nat n). split; [lia|].
  apply in_seq. lia.
Qed.

Lemma range56 (P : Z -> Prop) :
  Forall P (map Z.of_nat (seq 0 56)) -> forall n, 0 <= n < 56 -> P n.
Proof. intros HF n Hn. apply (range_forall 56 P HF). lia. Qed.

Lemma u64_testbit (x n : Z) :
  0 <= n < 64 -> Z.testbit (u64 x) n = Z.testbit x n.
Proof. intros Hn. unfold u64. apply Z.mod_pow2_bits_low. lia. Qed.

Lemma u64_testbit_high (x n : Z) : 64 <= n -> Z.testbit (u64 x) n = false.
Proof. intros Hn. unfold u64. apply Z.mod_pow2_bits_high. lia. Qed.

Ltac bits_of_shifts :=
  rewrite ?Z.lor_spec, ?Z.land_spec;
  rewrite ?u64_testbit by lia;
  rewrite ?Z.shiftr_spec, ?Z.shiftl_spec by lia.

Lemma transpose_bits (b n : Z) :
  0 <= n < 64 ->
  Z.testbit (transpose b) n =
  (Z.testbit 0x00000020000010 n && Z.testbit b (n + 16)
   || Z.testbit 0x00000410000208 n && Z.testbit b (n + 12)
   || Z.testbit 0x00008208004104 n && Z.testbit b (n + 8)
   || Z.testbit 0x00104104082082 n && Z.testbit b (n + 4)
   || Z.testbit 0xfe082083041041 n && Z.testbit b (n + 0)
   || Z.testbit 0x01041040820820 n && Z.testbit b (n - 4)
   || Z.testbit 0x00820800410400 n && Z.testbit b (n - 8)
   || Z.testbit 0x00410000208000 n && Z.testbit b (n - 12)
   || Z.testbit 0x00200000100000 n && Z.testbit b (n - 16))%bool.
Proof.
  intros Hn. unfold transpose. bits_of_shifts.
  repeat (f_equal; try apply andb_comm).
Qed.

Lemma flipv_bits (b n : Z) :
  0 <= n < 64 ->
  Z.testbit (flipv b) n =
  (Z.testbit 0x0000003e00001f n && Z.testbit b (n + 20)
   || Z.testbit 0x000007c00003e0 n && Z.testbit b (n + 10)
   || Z.testbit 0xfc00f800007c00 n && Z.testbit b (n + 0)
   || Z.testbit 0x001f00000f8000 n && Z.testbit b (n - 10)
   || Z.testbit 0x03e00001f00000 n && Z.testbit b (n - 20))%bool.
Proof.
  intros Hn. unfold flipv. bits_of_shifts.
  repeat (f_equal; try apply andb_comm).
Qed.

Lemma transpose_spec (b n : Z) :
  0 <= n < 56 -> Z.testbit (transpose b) n = Z.testbit b (tperm n).
Proof.
  intros Hn. rewrite transpose_bits by lia.
  generalize (Z.testbit b). intros f. revert f. revert n Hn.
  apply (range56 (fun n => forall f : Z -> bool, _ = f (tperm n))).
  repeat (apply Forall_cons_2;
          [intros f; vm_compute; destruct (f _); reflexivity|]).
  apply Forall_nil_2.
Qed.

Lemma flipv_spec (b n : Z) :
  0 <= n < 56 -> Z.testbit (flipv b) n = Z.testbit b (fperm n).
Proof.
  intros Hn. rewrite flipv_bits by lia.
  generalize (Z.testbit b). intros f. revert f. revert n Hn.
  apply (range56 (fun n => forall f : Z -> bool, _ = f (fperm n))).
  repeat (apply Forall_cons_2;
          [intros f; vm_compute; destruct (f _); reflexivity|]).
  apply Forall_nil_2.
Qed.

Ltac board_of_masks :=
  repeat (apply lor_range; [| |lia]);
  (apply land_range; [|lia]); vm_compute; (split; [discriminate|reflexivity]).

Lemma transpose_board (b : Z) : is_board (transpose b).
Proof. unfold is_board, transpose. board_of_masks. Qed.

Lemma flipv_board (b : Z) : is_board (flipv b).
Proof. unfold is_board, flipv. board_of_masks. Qed.

Lemma gen_act_board (g : gen) (b : Z) : is_board (gen_act g b).
Proof. destruct g; [apply transpose_board|apply flipv_board]. Qed.

Lemma act_board (w : list gen) (b : Z) : is_board b -> is_board (act w b).
Proof. intros Hb. destruct w; [exact Hb|apply gen_act_board]. Qed.

Lemma gen_act_spec (g : gen) (b n : Z) :
  0 <= n < 56 -> Z.testbit (gen_act g b) n = Z.testbit b (gen_perm g n).
Proof. destruct g; [apply transpose_spec|apply flipv_spec]. Qed.

Lemma gen_perm_range (g : gen) (n : Z) :
  0 <= n < 56 -> 0 <= gen_perm g n < 56.
Proof.
  revert n.
  apply (range56 (fun n => 0 <= gen_perm g n < 56)).
  destruct g;
    repeat (apply Forall_cons_2;
            [vm_compute; (split; [discriminate|reflexivity])|]);
    apply Forall_nil_2.
Qed.

Lemma act_perm_range (w : list gen) (n : Z) :
  0 <= n < 56 -> 0 <= act_perm w n < 56.
Proof.
  revert n. induction w as [|g w IH]; intros n Hn; simpl; [exact Hn|].
  apply IH. apply gen_perm_range. exact Hn.
Qed.

Lemma act_spec (w : list gen) (b n : Z) :
  0 <= n < 56 -> Z.testbit (act w b) n = Z.testbit b (act_perm w n).
Proof.
  revert n. induction w as [|g w IH]; intros n Hn; simpl; [reflexivity|].
  rewrite gen_act_spec by exact Hn. apply IH. apply gen_perm_range, Hn.
Qed.

Lemma board_eq (x y : Z) :
  is_board x -> is_board y ->
  (forall n, 0 <= n < 56 -> Z.testbit x n = Z.testbit y n) -> x = y.
Proof.
  intros Hx Hy H. apply Z.bits_inj'; intros n Hn.
  destruct (Z.lt_ge_cases n 56).
  - apply H; lia.
  - rewrite (testbit_above x 56 n), (testbit_above y 56 n);
      try assumption; try lia; reflexivity.
Qed.

(** Two words with the same permutation of the 56 bits act alike on
    boards; the hypothesis is checked by evaluation. *)
Definition same_perm (w1 w2 : list gen) : bool :=
  forallb (fun n => act_perm w1 n =? act_perm w2 n)
          (map Z.of_nat (seq 0 56)).

Lemma act_same_perm (w1 w2 : list gen) (b : Z) :
  is_board b -> same_perm w1 w2 = true -> act w1 b = act w2 b.
Proof.
  intros Hb Hp. apply board_eq; try (apply act_board; exact Hb).
  intros n Hn. rewrite !act_spec by exact Hn. f_equal.
  apply Z.eqb_eq.
  apply (range_forallb 56 (fun n => act_perm w1 n =? act_perm w2 n) Hp).
  lia.
Qed.

Lemma act_app (w1 w2 : list gen) (b : Z) :
  act (w1 ++ w2) b = act w1 (act w2 b).
Proof. induction w1 as [|g w1 IH]; simpl; [reflexivity|]. now rewrite IH. Qed.


(** ** Canonicalization *)

Lemma orbit_words (b : Z) : orbit b = map (fun w => act w b) sym_words.
Proof. cbv [orbit symmetries sym_words map act gen_act]. reflexivity. Qed.

Lemma canonicalize_fold (b : Z) :
  canonicalize b = fold_left keep_min (tl (orbit b)) b.
Proof.
  cbv [canonicalize orbit symmetries map tl fold_left]. reflexivity.
Qed.

Lemma keep_min_min (c b : Z) : keep_min c b = Z.min c b.
Proof. unfold keep_min. destruct (Z.ltb_spec c b); lia. Qed.

Lemma fold_min_in (l : list Z) (c : Z) :
  In (fold_left keep_min l c) (c :: l).
Proof.
  revert c. induction l as [|x l IH]; intros c; simpl; [auto|].
  destruct (IH (keep_min c x)) as [E|HI]; [|auto].
  rewrite <- E. unfold keep_min. destruct (c <? x); auto.
Qed.

Lemma fold_min_le_acc (l : list Z) (c : Z) : fold_left keep_min l c <= c.
Proof.
  revert c. induction l as [|y l IH]; intros c; simpl; [lia|].
  specialize (IH (keep_min c y)). rewrite keep_min_min in *. lia.
Qed.

Lemma fold_min_le (l : list Z) (c x : Z) :
  In x (c :: l) -> fold_left keep_min l c <= x.
Proof.
  revert c. induction l as [|y l IH]; intros c HI; simpl.
  - destruct HI as [E|[]]. lia.
  - pose proof (fold_min_le_acc l (keep_min c y)) as Ha.
    pose proof (keep_min_min c y) as Hk.
    destruct HI as [E|[E|HI]]; [lia|lia|].
    apply IH. right. exact HI.
Qed.

Lemma canonicalize_in_orbit (b : Z) : In (canonicalize b) (orbit b).
Proof. rewrite canonicalize_fold. apply (fold_min_in (tl (orbit b)) b). Qed.

Lemma canonicalize_le_orbit (b x : Z) :
  In x (orbit b) -> canonicalize b <= x.
Proof.
  intros HI. rewrite canonicalize_fold.
  apply (fold_min_le (tl (orbit b)) b x HI).
Qed.

(** Composition table of the group, checked by evaluation: a symmetry
    after a symmetry is a symmetry, and every symmetry is obtained so. *)
Lemma sym_words_closed :
  forallb (fun w =>
    forallb (fun wi =>
      existsb (fun wk => same_perm (wi ++ w) wk) sym_words) sym_words
    && forallb (fun wk =>
      existsb (fun wi => same_perm (wi ++ w) wk) sym_words) sym_words)
    sym_words = true.
Proof. vm_compute. reflexivity. Qed.

Lemma orbit_act_incl (w : list gen) (b x : Z) :
  is_board b -> In w sym_words ->
  In x (orbit (act w b)) <-> In x (orbit b).
Proof.
  intros Hb Hw.
  pose proof sym_words_closed as HC. rewrite forallb_forall in HC.
  specialize (HC w Hw). apply andb_true_iff in HC. destruct HC as [H1 H2].
  rewrite forallb_forall in H1, H2.
  rewrite !orbit_words, !in_map_iff. split.
  - intros (wi & <- & Hwi). specialize (H1 wi Hwi).
    apply existsb_exists in H1. destruct H1 as (wk & Hwk & Hp).
    exists wk. split; [|exact Hwk].
    rewrite <- act_app. symmetry. apply act_same_perm; assumption.
  - intros (wk & <- & Hwk). specialize (H2 wk Hwk).
    apply existsb_exists in H2. destruct H2 as (wi & Hwi & Hp).
    exists wi. split; [|exact Hwi].
    rewrite <- act_app. apply act_same_perm; assumption.
Qed.

Lemma canonicalize_act (w : list gen) (b : Z) :
  is_board b -> In w sym_words -> canonicalize (act w b) = canonicalize b.
Proof.
  intros Hb Hw.
  pose proof (canonicalize_in_orbit (act w b)) as H1.
  pose proof (canonicalize_in_orbit b) as H2.
  apply (orbit_act_incl w b _ Hb Hw) in H1.
  apply (orbit_act_incl w b _ Hb Hw) in H2.
  apply canonicalize_le_orbit in H1. apply canonicalize_le_orbit in H2. lia.
Qed.

Lemma symmetries_words (T : Z -> Z) :
  In T symmetries -> exists w, In w sym_words /\ forall b, T b = act w b.
Proof.
  intros HI. cbv [symmetries In] in HI.
  destruct HI as [<-|[<-|[<-|[<-|[<-|[<-|[<-|[<-|[]]]]]]]]];
    [exists []|exists [GT]|exists [GF; GT]|exists [GT; GF; GT]
    |exists [GF; GT; GF; GT]|exists [GT; GF; GT; GF; GT]
    |exists [GF; GT; GF; GT; GF; GT]|exists [GT; GF; GT; GF; GT; GF; GT]];
    (split; [cbv [sym_words In]; tauto
            |intros b; cbv [act gen_act]; reflexivity]).
Qed.

(** C2. For a position [b] (a 56-bit board), [canonicalize b] is a member
    of the 8-element orbit of [b] under the symmetries generated by
    [transpose] and [flipv], it is the smallest integer of that orbit, and
    every one of the eight symmetries [T] has
    [canonicalize (T b) = canonicalize b]. *)
Theorem canonicalize_least_of_orbit (b : Z) :
  is_board b ->
  length (orbit b) = 8%nat
  /\ In (canonicalize b) (orbit b)
  /\ (forall x, In x (orbit b) -> canonicalize b <= x)
  /\ (forall T, In T symmetries -> canonicalize (T b) = canonicalize b).
Proof.
  intros Hb. split; [reflexivity|]. split; [apply canonicalize_in_orbit|].
  split; [apply canonicalize_le_orbit|].
  intros T HT. destruct (symmetries_words T HT) as (w & Hw & E).
  rewrite E. apply canonicalize_act; assumption.
Qed.

Lemma canonicalize_least_of_orbit_witness :
  canonicalize (transpose (place (place INIT 1) 7))
  = canonicalize (place (place INIT 1) 7).
Proof.
  refine (proj2 (proj2 (proj2
            (canonicalize_least_of_orbit (place (place INIT 1) 7) _)))
            transpose _).
  - vm_compute. split; [discriminate|reflexivity].
  - cbv [symmetries In]. right. left. reflexivity.
Defined.


(** ** Shape of the codec operations *)

Lemma state_ones (b : Z) : state b = Z.land b (Z.ones 50).
Proof. reflexivity. Qed.

Lemma state_range (b : Z) : 0 <= state b < 2 ^ 50.
Proof. rewrite state_ones. apply land_range; [|lia]. vm_compute.
  split; [discriminate|reflexivity]. Qed.

Lemma tfield_range (b : Z) : is_u64 b -> 0 <= tfield b < 2 ^ 14.
Proof. intros Hb. apply (shiftr_range b 64 50); [exact Hb|lia]. Qed.

Lemma next_turn_range (t : Z) : 0 <= next_turn t < 2 ^ 14.
Proof. unfold next_turn. apply Z.mod_pos_bound. lia. Qed.

Lemma u64_shiftl_turn (t : Z) :
  u64 (Z.shiftl t 50) = Z.shiftl (t mod 2 ^ 14) 50.
Proof.
  unfold u64. rewrite !Z.shiftl_mul_pow2 by lia.
  change (2 ^ 64) with (2 ^ 14 * 2 ^ 50).
  apply Z.mul_mod_distr_r; lia.
Qed.

Lemma build_range (t s : Z) :
  0 <= t < 2 ^ 14 -> 0 <= s < 2 ^ 50 -> is_u64 (build t s).
Proof.
  intros Ht Hs. unfold build, is_u64. apply lor_range; [| |lia].
  - rewrite Z.shiftl_mul_pow2 by lia. split; [lia|].
    change (2 ^ 64) with (2 ^ 14 * 2 ^ 50). apply Z.mul_lt_mono_pos_r; lia.
  - lia.
Qed.

Lemma tfield_build (t s : Z) :
  0 <= s < 2 ^ 50 -> tfield (build t s) = t.
Proof.
  intros Hs. unfold tfield, build. rewrite Z.shiftr_lor.
  rewrite Z.shiftr_shiftl_l by lia. rewrite Z.sub_diag, Z.shiftl_0_r.
  rewrite (shiftr_small s 50) by lia. apply Z.lor_0_r.
Qed.

Lemma testbit_build_low (t s n : Z) :
  0 <= n < 50 -> Z.testbit (build t s) n = Z.testbit s n.
Proof.
  intros Hn. unfold build. rewrite Z.lor_spec.
  rewrite Z.shiftl_spec_low by lia. reflexivity.
Qed.

Lemma state_build (t s : Z) : 0 <= s < 2 ^ 50 -> state (build t s) = s.
Proof.
  intros Hs. apply Z.bits_inj'; intros n Hn. rewrite state_ones.
  rewrite Z.land_spec. destruct (Z.lt_ge_cases n 50).
  - rewrite testbit_build_low by lia. rewrite Z.ones_spec_low by lia.
    apply andb_true_r.
  - rewrite Z.ones_spec_high by lia. rewrite andb_false_r.
    symmetry. apply (testbit_above s 50); lia.
Qed.

Lemma testbit_state (b n : Z) :
  0 <= n < 50 -> Z.testbit (state b) n = Z.testbit b n.
Proof.
  intros Hn. rewrite state_ones, Z.land_spec.
  rewrite Z.ones_spec_low by lia. apply andb_true_r.
Qed.

Lemma who_of_parity (t : Z) :
  0 <= t < 2 ^ 64 -> who_of t = if Z.odd t then 0 else 1.
Proof.
  intros Ht. unfold who_of.
  destruct (Z.eq_dec t 0) as [->|Hne]; [vm_compute; reflexivity|].
  rewrite u64_small by lia. rewrite Zmod_even, Z.even_sub.
  change (Z.even 1) with false. rewrite <- Z.negb_odd.
  destruct (Z.odd t); reflexivity.
Qed.

Lemma who_of_cases (t : Z) : 0 <= t < 2 ^ 64 -> who_of t = 0 \/ who_of t = 1.
Proof.
  intros Ht. rewrite who_of_parity by exact Ht. destruct (Z.odd t); auto.
Qed.

Lemma blocks_at_range (i : Z) : 0 <= blocks_at i < 2 ^ 25.
Proof.
  unfold blocks_at.
  assert (H : Forall (fun x => 0 <= x < 2 ^ 25) blocks).
  { unfold blocks. repeat (apply Forall_cons_2; [lia|]). apply Forall_nil_2. }
  destruct (Nat.lt_ge_cases (Z.to_nat i) (length blocks)) as [Hl|Hl].
  - rewrite Stdlib.Lists.List.Forall_forall in H. apply H. apply nth_In. exact Hl.
  - rewrite nth_overflow by exact Hl. lia.
Qed.

Lemma shiftl_range (x k n : Z) :
  0 <= x < 2 ^ k -> 0 <= k -> 0 <= n -> 0 <= Z.shiftl x n < 2 ^ (k + n).
Proof.
  intros Hx Hk Hn. rewrite Z.shiftl_mul_pow2 by lia. split; [lia|].
  rewrite Z.pow_add_r by lia. apply Z.mul_lt_mono_pos_r; lia.
Qed.

Lemma bit_range (k n : Z) : 0 <= k < n -> 0 <= Z.shiftl 1 k < 2 ^ n.
Proof.
  intros Hk. rewrite Z.shiftl_1_l. split; [lia|].
  apply Z.pow_lt_mono_r; lia.
Qed.

Lemma pass_build (b : Z) :
  pass b = build (next_turn (tfield b)) (state b).
Proof.
  unfold pass, build, next_turn. rewrite u64_shiftl_turn. reflexivity.
Qed.

Lemma place_build (b i : Z) :
  is_u64 b -> 0 <= i < 25 ->
  place b i
  = build (next_turn (tfield b))
          (Z.lor (state b) (Z.shiftl 1 (who_of (tfield b) * 25 + i))).
Proof.
  intros Hb Hi. unfold place, build, next_turn.
  fold (tfield b). fold (state b). rewrite u64_shiftl_turn.
  pose proof (tfield_range b Hb) as Ht.
  assert (Hw : who_of (tfield b) = 0 \/ who_of (tfield b) = 1)
    by (apply who_of_cases; lia).
  rewrite (u64_small (Z.shiftl 1 _))
    by (apply (bit_range _ 64); lia).
  rewrite Z.lor_assoc. reflexivity.
Qed.

Lemma mask_build (m i : Z) :
  is_u64 m -> 0 <= i < 25 ->
  mask m i
  = build (next_turn (tfield m))
          (Z.lor (Z.lor (state m)
                        (Z.shiftl (blocks_at i)
                                  (lnot (who_of (tfield m)) * 25)))
                 (Z.shiftl 1 (who_of (tfield m) * 25 + i))).
Proof.
  intros Hm Hi. unfold mask, build, next_turn.
  fold (tfield m). fold (state m). rewrite u64_shiftl_turn.
  pose proof (tfield_range m Hm) as Ht.
  assert (Hw : who_of (tfield m) = 0 \/ who_of (tfield m) = 1)
    by (apply who_of_cases; lia).
  rewrite (u64_small (Z.shiftl 1 _))
    by (apply (bit_range _ 64); lia).
  rewrite (u64_small (Z.shiftl (blocks_at i) _)).
  - rewrite !Z.lor_assoc. reflexivity.
  - pose proof (blocks_at_range i) as Hbk.
    assert (Hl : lnot (who_of (tfield m)) * 25 = 0
                 \/ lnot (who_of (tfield m)) * 25 = 25)
      by (destruct Hw as [-> | ->]; vm_compute; auto).
    destruct Hl as [-> | ->].
    + rewrite Z.shiftl_0_r. lia.
    + pose proof (shiftl_range (blocks_at i) 25 25 Hbk). lia.
Qed.


(** ** Bits of the codec operations and of the rules *)

Lemma testbit_bit (k n : Z) :
  0 <= k -> Z.testbit (Z.shiftl 1 k) n = (k =? n).
Proof. intros Hk. rewrite Z.shiftl_1_l. apply Z.pow2_bits_eqb. exact Hk. Qed.

Lemma place_state_range (b i : Z) :
  is_u64 b -> 0 <= i < 25 ->
  0 <= Z.lor (state b) (Z.shiftl 1 (who_of (tfield b) * 25 + i)) < 2 ^ 50.
Proof.
  intros Hb Hi. pose proof (tfield_range b Hb) as Ht.
  assert (Hw : who_of (tfield b) = 0 \/ who_of (tfield b) = 1)
    by (apply who_of_cases; lia).
  apply lor_range; [apply state_range| |lia].
  apply bit_range. lia.
Qed.

Lemma lnot_who (t : Z) :
  0 <= t < 2 ^ 64 -> lnot (who_of t) = 1 - who_of t.
Proof.
  intros Ht. destruct (who_of_cases t Ht) as [-> | ->]; reflexivity.
Qed.

Lemma mask_state_range (m i : Z) :
  is_u64 m -> 0 <= i < 25 ->
  0 <= Z.lor (Z.lor (state m)
                    (Z.shiftl (blocks_at i) (lnot (who_of (tfield m)) * 25)))
             (Z.shiftl 1 (who_of (tfield m) * 25 + i)) < 2 ^ 50.
Proof.
  intros Hm Hi. pose proof (tfield_range m Hm) as Ht.
  assert (Hw : who_of (tfield m) = 0 \/ who_of (tfield m) = 1)
    by (apply who_of_cases; lia).
  rewrite lnot_who by lia.
  apply lor_range; [apply lor_range; [apply state_range| |lia]| |lia].
  - pose proof (blocks_at_range i) as Hbk.
    destruct Hw as [-> | ->].
    + apply (shiftl_range (blocks_at i) 25 25); lia.
    + change ((1 - 1) * 25) with 0. rewrite Z.shiftl_0_r. lia.
  - apply bit_range. lia.
Qed.

Lemma tfield_pass (b : Z) : tfield (pass b) = next_turn (tfield b).
Proof. rewrite pass_build. apply tfield_build, state_range. Qed.

Lemma tfield_place (b i : Z) :
  is_u64 b -> 0 <= i < 25 -> tfield (place b i) = next_turn (tfield b).
Proof.
  intros Hb Hi. rewrite place_build by assumption.
  apply tfield_build, place_state_range; assumption.
Qed.

Lemma tfield_mask (m i : Z) :
  is_u64 m -> 0 <= i < 25 -> tfield (mask m i) = next_turn (tfield m).
Proof.
  intros Hm Hi. rewrite mask_build by assumption.
  apply tfield_build, mask_state_range; assumption.
Qed.

Lemma pass_u64 (b : Z) : is_u64 (pass b).
Proof.
  rewrite pass_build. apply build_range;
    [apply next_turn_range|apply state_range].
Qed.

Lemma place_u64 (b i : Z) : is_u64 b -> 0 <= i < 25 -> is_u64 (place b i).
Proof.
  intros Hb Hi. rewrite place_build by assumption. apply build_range;
    [apply next_turn_range|apply place_state_range; assumption].
Qed.

Lemma mask_u64 (m i : Z) : is_u64 m -> 0 <= i < 25 -> is_u64 (mask m i).
Proof.
  intros Hm Hi. rewrite mask_build by assumption. apply build_range;
    [apply next_turn_range|apply mask_state_range; assumption].
Qed.

Lemma testbit_pass (b n : Z) :
  0 <= n < 50 -> Z.testbit (pass b) n = Z.testbit b n.
Proof.
  intros Hn. rewrite pass_build, testbit_build_low by lia.
  apply testbit_state. lia.
Qed.

Lemma testbit_place (b i n : Z) :
  is_u64 b -> 0 <= i < 25 -> 0 <= n < 50 ->
  Z.testbit (place b i) n
  = Z.testbit b n || (who_of (tfield b) * 25 + i =? n).
Proof.
  intros Hb Hi Hn. rewrite place_build by assumption.
  rewrite testbit_build_low by lia. rewrite Z.lor_spec.
  rewrite testbit_state by lia.
  pose proof (tfield_range b Hb) as Ht.
  assert (Hw : who_of (tfield b) = 0 \/ who_of (tfield b) = 1)
    by (apply who_of_cases; lia).
  rewrite testbit_bit by lia. reflexivity.
Qed.

Lemma testbit_mask (m i n : Z) :
  is_u64 m -> 0 <= i < 25 -> 0 <= n < 50 ->
  Z.testbit (mask m i) n
  = Z.testbit m n
    || Z.testbit (blocks_at i) (n - (1 - who_of (tfield m)) * 25)
    || (who_of (tfield m) * 25 + i =? n).
Proof.
  intros Hm Hi Hn. rewrite mask_build by assumption.
  rewrite testbit_build_low by lia. rewrite !Z.lor_spec.
  rewrite testbit_state by lia.
  pose proof (tfield_range m Hm) as Ht.
  assert (Hw : who_of (tfield m) = 0 \/ who_of (tfield m) = 1)
    by (apply who_of_cases; lia).
  rewrite lnot_who by lia.
  rewrite testbit_bit by lia. rewrite Z.shiftl_spec by lia. reflexivity.
Qed.

Lemma blocks_self (i : Z) :
  0 <= i < 25 -> Z.testbit (blocks_at i) i = true.
Proof.
  revert i. apply (range_forall 25 (fun i => Z.testbit (blocks_at i) i = true)).
  repeat (apply Forall_cons_2; [vm_compute; reflexivity|]).
  apply Forall_nil_2.
Qed.

Lemma blocks_high (i n : Z) : 25 <= n -> Z.testbit (blocks_at i) n = false.
Proof.
  intros Hn. apply (testbit_above _ 25); [apply blocks_at_range|lia].
Qed.

Lemma land1_testbit (x k : Z) :
  0 <= k -> (Z.land (Z.shiftr x k) 1 =? 0) = negb (Z.testbit x k).
Proof.
  intros Hk. change 1 with (Z.ones 1). rewrite Z.land_ones by lia.
  change (2 ^ 1) with 2. rewrite <- Z.bit0_mod. rewrite Z.shiftr_spec by lia.
  rewrite Z.add_0_l. destruct (Z.testbit x k); reflexivity.
Qed.

Lemma valid_spec (m i : Z) :
  is_u64 m -> 0 <= i < 25 ->
  valid m i
  = if tfield m =? 1 then negb (i =? 12)
    else negb (Z.testbit m (who_of (tfield m) * 25 + i)).
Proof.
  intros Hm Hi. unfold valid. fold (tfield m).
  destruct (tfield m =? 1); [reflexivity|].
  pose proof (tfield_range m Hm) as Ht.
  assert (Hw : who_of (tfield m) = 0 \/ who_of (tfield m) = 1)
    by (apply who_of_cases; lia).
  apply land1_testbit. lia.
Qed.

Lemma ones25 : 0x1ffffff = Z.ones 25.
Proof. reflexivity. Qed.

Lemma plane_full (x : Z) :
  (Z.land x (Z.ones 25) =? Z.ones 25) = true <->
  forall j, 0 <= j < 25 -> Z.testbit x j = true.
Proof.
  rewrite Z.eqb_eq. split.
  - intros E j Hj.
    assert (H : Z.testbit (Z.land x (Z.ones 25)) j = true)
      by (rewrite E; apply Z.ones_spec_low; lia).
    rewrite Z.land_spec, Z.ones_spec_low in H by lia.
    rewrite andb_true_r in H. exact H.
  - intros H. apply Z.bits_inj'; intros n Hn. rewrite Z.land_spec.
    destruct (Z.lt_ge_cases n 25).
    + rewrite H by lia. rewrite Z.ones_spec_low by lia. reflexivity.
    + rewrite Z.ones_spec_high by lia. apply andb_false_r.
Qed.

Lemma plane_full_at (b m k : Z) :
  0 <= k ->
  (Z.land (Z.lor (Z.shiftr b k) (Z.shiftr m k)) 0x1ffffff =? 0x1ffffff) = true
  <-> forall j, 0 <= j < 25 ->
        Z.testbit b (k + j) = true \/ Z.testbit m (k + j) = true.
Proof.
  intros Hk. rewrite ones25, plane_full. split; intros H j Hj.
  - specialize (H j Hj). rewrite Z.lor_spec, !Z.shiftr_spec in H by lia.
    apply orb_true_iff in H. rewrite (Z.add_comm k j). exact H.
  - rewrite Z.lor_spec, !Z.shiftr_spec by lia. apply orb_true_iff.
    rewrite (Z.add_comm j k). apply H, Hj.
Qed.

Lemma nomoves_spec (b m : Z) :
  is_u64 b ->
  nomoves b m = true <->
  forall j, 0 <= j < 25 ->
    Z.testbit b (who_of (tfield b) * 25 + j) = true
    \/ Z.testbit m (who_of (tfield b) * 25 + j) = true.
Proof.
  intros Hb. unfold nomoves. fold (tfield b).
  pose proof (tfield_range b Hb) as Ht.
  assert (Hw : who_of (tfield b) = 0 \/ who_of (tfield b) = 1)
    by (apply who_of_cases; lia).
  apply plane_full_at. lia.
Qed.

Lemma iscomplete_spec (b m : Z) :
  iscomplete b m = true <->
  forall j, 0 <= j < 25 ->
    (Z.testbit b (25 + j) = true \/ Z.testbit m (25 + j) = true)
    /\ (Z.testbit b j = true \/ Z.testbit m j = true).
Proof.
  unfold iscomplete. rewrite andb_true_iff.
  rewrite (plane_full_at b m 25), (plane_full_at b m 0) by lia.
  split.
  - intros [H1 H2] j Hj. split; [exact (H1 j Hj)|exact (H2 j Hj)].
  - intros H. split; intros j Hj;
      [exact (proj1 (H j Hj))|exact (proj2 (H j Hj))].
Qed.


(** ** The invariant of a play *)

Lemma INIT_u64 : is_u64 INIT.
Proof. vm_compute. split; [discriminate|reflexivity]. Qed.

Lemma tfield_INIT : tfield INIT = 1.
Proof. reflexivity. Qed.

Lemma testbit_INIT (n : Z) : 0 <= n < 50 -> Z.testbit INIT n = false.
Proof.
  intros Hn. change INIT with (Z.shiftl 1 50).
  rewrite testbit_bit by lia. apply Z.eqb_neq. lia.
Qed.

Lemma play_inv_init : play_inv INIT INIT.
Proof.
  split; [apply INIT_u64|]. split; [apply INIT_u64|].
  split; [reflexivity|]. split.
  - intros i Hi [H _]. rewrite testbit_INIT in H by lia. discriminate.
  - intros i Hi [H|H]; rewrite testbit_INIT in H by lia; discriminate.
Qed.

Lemma play_inv_pass (b m : Z) : play_inv b m -> play_inv (pass b) (pass m).
Proof.
  intros (Hb & Hm & Ht & Hd & Ho).
  split; [apply pass_u64|]. split; [apply pass_u64|].
  split; [rewrite !tfield_pass; congruence|]. split.
  - intros i Hi. rewrite !testbit_pass by lia. apply Hd, Hi.
  - intros i Hi. rewrite !testbit_pass by lia. apply Ho, Hi.
Qed.

(** On the first turn the board must be empty for a placement to keep the
    invariant: [valid] does not read the mask there. *)
Lemma play_inv_place (b m i : Z) :
  play_inv b m -> 0 <= i < 25 -> valid m i = true ->
  (tfield m = 1 -> b = INIT) ->
  play_inv (place b i) (mask m i).
Proof.
  intros (Hb & Hm & Ht & Hd & Ho) Hi Hv H1.
  pose proof (tfield_range m Hm) as Htr.
  assert (Hw : who_of (tfield m) = 0 \/ who_of (tfield m) = 1)
    by (apply who_of_cases; lia).
  assert (Hfree : Z.testbit b i = false /\ Z.testbit b (25 + i) = false).
  { rewrite valid_spec in Hv by assumption.
    destruct (Z.eqb_spec (tfield m) 1) as [E|E].
    - rewrite (H1 E). rewrite !testbit_INIT by lia. auto.
    - apply negb_true_iff in Hv.
      destruct (Z.testbit b i) eqn:E0.
      + destruct (Ho i Hi (or_introl E0)) as [M0 M1].
        destruct Hw as [W|W]; rewrite W in Hv;
          [replace (0 * 25 + i) with i in Hv by lia
          |replace (1 * 25 + i) with (25 + i) in Hv by lia]; congruence.
      + destruct (Z.testbit b (25 + i)) eqn:E1; [|auto].
        destruct (Ho i Hi (or_intror E1)) as [M0 M1].
        destruct Hw as [W|W]; rewrite W in Hv;
          [replace (0 * 25 + i) with i in Hv by lia
          |replace (1 * 25 + i) with (25 + i) in Hv by lia]; congruence. }
  destruct Hfree as [F0 F1].
  split; [apply place_u64; assumption|].
  split; [apply mask_u64; assumption|].
  split; [rewrite tfield_place, tfield_mask by assumption; congruence|].
  rewrite <- Ht in *.
  split.
  - intros j Hj. rewrite !testbit_place by (try assumption; lia).
    intros [A B]. apply orb_true_iff in A. apply orb_true_iff in B.
    destruct A as [A|A], B as [B|B].
    + apply (Hd j Hj). auto.
    + apply Z.eqb_eq in B. destruct Hw as [W|W]; rewrite W in B; [lia|].
      assert (j = i) by lia. subst j. congruence.
    + apply Z.eqb_eq in A. destruct Hw as [W|W]; rewrite W in A; [|lia].
      assert (j = i) by lia. subst j. congruence.
    + apply Z.eqb_eq in A. apply Z.eqb_eq in B. lia.
  - intros j Hj. rewrite !testbit_place by (try assumption; lia).
    rewrite !testbit_mask by (try assumption; lia). rewrite <- Ht.
    intros Hocc.
    assert (Hcase : (Z.testbit b j = true \/ Z.testbit b (25 + j) = true)
                    \/ j = i).
    { destruct Hocc as [A|A]; apply orb_true_iff in A;
        destruct A as [A|A]; auto; apply Z.eqb_eq in A; right;
        destruct Hw as [W|W]; rewrite W in A; lia. }
    destruct Hcase as [Hold| ->].
    + destruct (Ho j Hj Hold) as [M0 M1]. rewrite M0, M1. auto.
    + destruct Hw as [W|W]; rewrite W.
      * split; apply orb_true_iff.
        -- right. apply Z.eqb_eq. lia.
        -- left. apply orb_true_iff. right.
           replace (25 + i - (1 - 0) * 25) with i by lia.
           apply blocks_self, Hi.
      * split; apply orb_true_iff.
        -- left. apply orb_true_iff. right.
           replace (i - (1 - 1) * 25) with i by lia.
           apply blocks_self, Hi.
        -- right. apply Z.eqb_eq. lia.
Qed.

Lemma lockstep_turn (n : nat) (b m : Z) :
  lockstep n b m ->
  is_u64 b /\ is_u64 m
  /\ tfield b = (Z.of_nat n + 1) mod 2 ^ 14
  /\ tfield m = (Z.of_nat n + 1) mod 2 ^ 14.
Proof.
  assert (Hn : forall k : nat,
             next_turn ((Z.of_nat k + 1) mod 2 ^ 14)
             = (Z.of_nat (S k) + 1) mod 2 ^ 14).
  { intros k. unfold next_turn. rewrite Zplus_mod_idemp_l. f_equal. lia. }
  induction 1 as [|n b m i H IH Hi Hv|n b m H IH].
  - repeat split; try apply INIT_u64; reflexivity.
  - destruct IH as (Hb & Hm & Tb & Tm).
    split; [apply place_u64; assumption|].
    split; [apply mask_u64; assumption|].
    rewrite tfield_place, tfield_mask by assumption. rewrite Tb, Tm, Hn. auto.
  - destruct IH as (Hb & Hm & Tb & Tm).
    split; [apply pass_u64|]. split; [apply pass_u64|].
    rewrite !tfield_pass. rewrite Tb, Tm, Hn. auto.
Qed.

Lemma lockstep_zero (b m : Z) : lockstep 0 b m -> b = INIT /\ m = INIT.
Proof. inversion 1; auto. Qed.

Lemma lockstep_inv (n : nat) (b m : Z) :
  lockstep n b m -> Z.of_nat n <= 16384 -> play_inv b m.
Proof.
  induction 1 as [|n b m i H IH Hi Hv|n b m H IH]; intros Hn.
  - apply play_inv_init.
  - apply play_inv_place; try assumption; [apply IH; lia|].
    intros E. destruct (lockstep_turn n b m H) as (_ & _ & _ & Tm).
    rewrite Tm in E.
    assert (n = 0%nat).
    { destruct (Z.eq_dec (Z.of_nat n + 1) 16384) as [E1|E1].
      - rewrite E1 in E. vm_compute in E. discriminate.
      - rewrite Z.mod_small in E by lia. lia. }
    subst n.
    apply (lockstep_zero b m H).
  - apply play_inv_pass, IH. lia.
Qed.


(** ** Plays: relations between the three notions *)

Lemma run_cons (rule : Z * Z -> move -> bool) mv moves bm :
  run rule (mv :: moves) bm
  = if rule bm mv then run rule moves (apply_move bm mv) else None.
Proof. reflexivity. Qed.

Lemma run_nil (rule : Z * Z -> move -> bool) bm : run rule [] bm = Some bm.
Proof. reflexivity. Qed.



Lemma run_reachable (moves : list move) :
  forall b m b' m',
    reachable b m ->
    run game_rule moves (b, m) = Some (b', m') ->
    reachable b' m'.
Proof.
  induction moves as [|mv moves IH]; intros b m b' m' H R;
    [rewrite run_nil in R|rewrite run_cons in R].
  - inversion R; subst. exact H.
  - destruct (game_rule (b, m) mv) eqn:E; [|discriminate].
    unfold game_rule in E. cbn [fst snd] in E.
    apply andb_true_iff in E. destruct E as [Ec E].
    apply negb_true_iff in Ec.
    destruct mv as [i|]; cbn [apply_move fst snd] in R.
    + apply andb_true_iff in E. destruct E as [E Hv].
      apply andb_true_iff in E. destruct E as [E E1].
      apply andb_true_iff in E. destruct E as [En E0].
      apply negb_true_iff in En.
      apply (IH _ _ _ _ (reachable_place b m i H Ec En ltac:(lia) Hv) R).
    + apply (IH _ _ _ _ (reachable_pass b m H Ec E) R).
Qed.

Lemma legal_lockstep (n : nat) (b m : Z) : legal n b m -> lockstep n b m.
Proof.
  induction 1; [apply lockstep_init|apply lockstep_place|apply lockstep_pass];
    assumption.
Qed.

(** ** The game ends: the potential *)

Lemma filter_length_drop {A : Type} (p q : A -> bool) (l : list A) (x : A) :
  In x l -> p x = true -> q x = false ->
  (forall y, q y = true -> p y = true) ->
  (length (List.filter q l) < length (List.filter p l))%nat.
Proof.
  intros HI Hp Hq Hm.
  assert (Hle : forall l', (length (List.filter q l') <= length (List.filter p l'))%nat).
  { induction l' as [|y l' IH]; simpl; [lia|].
    destruct (q y) eqn:Q; [rewrite (Hm y Q); simpl; lia|].
    destruct (p y); simpl; lia. }
  induction l as [|y l IH]; [destruct HI|]. simpl.
  destruct HI as [->|HI].
  - rewrite Hp, Hq. simpl. specialize (Hle l). lia.
  - specialize (IH HI).
    destruct (q y) eqn:Q; [rewrite (Hm y Q); simpl; lia|].
    destruct (p y); simpl; lia.
Qed.

Lemma in_cells (i : Z) : In i cells <-> 0 <= i < 25.
Proof.
  unfold cells. rewrite in_map_iff. split.
  - intros (k & <- & Hk). apply in_seq in Hk. lia.
  - intros Hi. exists (Z.to_nat i). split; [lia|]. apply in_seq. lia.
Qed.

Lemma free_count_nonneg (b : Z) : 0 <= free_count b.
Proof. unfold free_count. lia. Qed.

Lemma free_count_pass (b : Z) : free_count (pass b) = free_count b.
Proof.
  unfold free_count. f_equal. f_equal.
  apply filter_ext_in. intros i Hi. apply in_cells in Hi.
  unfold free_cell. rewrite !testbit_pass by lia. reflexivity.
Qed.

Lemma free_count_place (b i : Z) :
  is_u64 b -> 0 <= i < 25 -> free_cell b i = true ->
  free_count (place b i) < free_count b.
Proof.
  intros Hb Hi Hf. unfold free_count. apply inj_lt.
  pose proof (tfield_range b Hb) as Ht.
  assert (Hw : who_of (tfield b) = 0 \/ who_of (tfield b) = 1)
    by (apply who_of_cases; lia).
  assert (Hmono : forall j, 0 <= j < 25 ->
            free_cell (place b i) j = true -> free_cell b j = true).
  { intros j Hj. unfold free_cell.
    rewrite !testbit_place by (try assumption; lia).
    rewrite !negb_orb. rewrite !andb_true_iff. tauto. }
  assert (Hi' : free_cell (place b i) i = false).
  { unfold free_cell. rewrite !testbit_place by (try assumption; lia).
    destruct Hw as [W|W]; rewrite W.
    - replace (0 * 25 + i =? i) with true by (symmetry; apply Z.eqb_eq; lia).
      rewrite orb_true_r. reflexivity.
    - replace (1 * 25 + i =? 25 + i) with true
        by (symmetry; apply Z.eqb_eq; lia).
      rewrite orb_true_r. apply andb_false_r. }
  assert (E : List.filter (free_cell (place b i)) cells
              = List.filter (fun j => free_cell (place b i) j && free_cell b j)
                       cells).
  { apply filter_ext_in. intros j Hj. apply in_cells in Hj.
    destruct (free_cell (place b i) j) eqn:F; [|reflexivity].
    rewrite (Hmono j Hj F). reflexivity. }
  rewrite E.
  apply (filter_length_drop (free_cell b) _ cells i).
  - apply in_cells, Hi.
  - exact Hf.
  - rewrite Hi'. reflexivity.
  - intros j Hj. apply andb_true_iff in Hj. tauto.
Qed.


Lemma who_next (t : Z) :
  0 <= t < 2 ^ 14 -> who_of (next_turn t) = 1 - who_of t.
Proof.
  intros Ht. pose proof (next_turn_range t) as Hn.
  rewrite !who_of_parity by lia. unfold next_turn.
  destruct (Z.eq_dec (t + 1) (2 ^ 14)) as [E|E].
  - rewrite E. replace t with 16383 by lia. reflexivity.
  - rewrite Z.mod_small by lia. rewrite Z.odd_add. change (Z.odd 1) with true.
    destruct (Z.odd t); reflexivity.
Qed.

Lemma valid_free (b m i : Z) :
  play_inv b m -> 0 <= i < 25 -> valid m i = true ->
  (tfield m = 1 -> b = INIT) -> free_cell b i = true.
Proof.
  intros (Hb & Hm & Ht & Hd & Ho) Hi Hv H1.
  pose proof (tfield_range m Hm) as Htr.
  assert (Hw : who_of (tfield m) = 0 \/ who_of (tfield m) = 1)
    by (apply who_of_cases; lia).
  unfold free_cell.
  rewrite valid_spec in Hv by assumption.
  destruct (Z.eqb_spec (tfield m) 1) as [E|E].
  - rewrite (H1 E). rewrite !testbit_INIT by lia. reflexivity.
  - apply negb_true_iff in Hv.
    destruct (Z.testbit b i) eqn:E0.
    + destruct (Ho i Hi (or_introl E0)) as [M0 M1].
      destruct Hw as [W|W]; rewrite W in Hv;
        [replace (0 * 25 + i) with i in Hv by lia
        |replace (1 * 25 + i) with (25 + i) in Hv by lia]; congruence.
    + destruct (Z.testbit b (25 + i)) eqn:E1; [|reflexivity].
      destruct (Ho i Hi (or_intror E1)) as [M0 M1].
      destruct Hw as [W|W]; rewrite W in Hv;
        [replace (0 * 25 + i) with i in Hv by lia
        |replace (1 * 25 + i) with (25 + i) in Hv by lia]; congruence.
Qed.

Lemma pass_gives_move (b m : Z) :
  is_u64 b -> nomoves b m = true -> iscomplete b m = false ->
  nomoves (pass b) (pass m) = false.
Proof.
  intros Hb Hn Hc.
  destruct (nomoves (pass b) (pass m)) eqn:Hp; [|reflexivity].
  exfalso. apply not_true_iff_false in Hc. apply Hc.
  pose proof (tfield_range b Hb) as Ht.
  rewrite nomoves_spec in Hn by exact Hb.
  rewrite nomoves_spec in Hp by apply pass_u64.
  rewrite tfield_pass, who_next in Hp by lia.
  apply iscomplete_spec. intros j Hj.
  specialize (Hn j Hj). specialize (Hp j Hj).
  destruct (who_of_cases (tfield b) ltac:(lia)) as [W|W];
    rewrite W in Hn, Hp.
  - replace (0 * 25 + j) with j in Hn by lia.
    replace ((1 - 0) * 25 + j) with (25 + j) in Hp by lia.
    rewrite !testbit_pass in Hp by lia. auto.
  - replace (1 * 25 + j) with (25 + j) in Hn by lia.
    replace ((1 - 1) * 25 + j) with j in Hp by lia.
    rewrite !testbit_pass in Hp by lia. auto.
Qed.

Lemma legal_zero (b m : Z) : legal 0 b m -> b = INIT /\ m = INIT.
Proof. inversion 1; auto. Qed.

Lemma nomoves_INIT : nomoves INIT INIT = false.
Proof. vm_compute. reflexivity. Qed.

Lemma free_count_INIT : free_count INIT = 25.
Proof. vm_compute. reflexivity. Qed.

Lemma potential_nonneg (b m : Z) : 0 <= potential b m.
Proof.
  unfold potential. pose proof (free_count_nonneg b) as H. revert H.
  generalize (free_count b). intros x H.
  destruct (nomoves b m); lia.
Qed.

Lemma potential_pass (b m : Z) :
  is_u64 b -> nomoves b m = true -> iscomplete b m = false ->
  potential (pass b) (pass m) + 1 = potential b m.
Proof.
  intros Hb Hn Hc. unfold potential.
  rewrite Hn, (pass_gives_move b m Hb Hn Hc), free_count_pass.
  generalize (free_count b). intros x. lia.
Qed.

Lemma potential_place (b m i : Z) :
  is_u64 b -> 0 <= i < 25 -> free_cell b i = true -> nomoves b m = false ->
  potential (place b i) (mask m i) + 1 <= potential b m.
Proof.
  intros Hb Hi Hf Hn. unfold potential. rewrite Hn.
  pose proof (free_count_place b i Hb Hi Hf) as Hlt. revert Hlt.
  generalize (free_count (place b i)). generalize (free_count b).
  intros x y Hlt.
  destruct (nomoves (place b i) (mask m i)); lia.
Qed.

Lemma potential_INIT : potential INIT INIT = 50.
Proof. vm_compute. reflexivity. Qed.

Lemma legal_first_turn (n : nat) (b m : Z) :
  legal n b m -> Z.of_nat n < 16383 -> tfield m = 1 -> b = INIT /\ m = INIT.
Proof.
  intros HL Hn E.
  destruct (lockstep_turn n b m (legal_lockstep n b m HL))
    as (_ & _ & _ & Tm).
  rewrite Tm in E. rewrite Z.mod_small in E by lia.
  assert (n = 0%nat) by lia. subst n. apply (legal_zero b m HL).
Qed.

(** Along the game the turn field and the potential never add up to more
    than 51: the game has at most 50 plies. *)
Lemma reachable_bound (b m : Z) :
  reachable b m ->
  exists n, legal n b m /\ Z.of_nat n + 1 + potential b m <= 51.
Proof.
  induction 1 as [|b m H IH Hc Hn|b m i H IH Hc Hn Hi Hv].
  - exists 0%nat. split; [apply legal_init|].
    rewrite potential_INIT. reflexivity.
  - destruct IH as (n & HL & HB). exists (S n). split.
    + apply legal_pass; assumption.
    + pose proof (potential_nonneg b m) as Hp.
      assert (HI : play_inv b m)
        by (apply (lockstep_inv n); [apply legal_lockstep, HL|lia]).
      destruct HI as (Hb & _).
      pose proof (potential_pass b m Hb Hn Hc) as HP.
      revert HB HP. generalize (potential b m).
      generalize (potential (pass b) (pass m)). intros; lia.
  - destruct IH as (n & HL & HB). exists (S n). split.
    + apply legal_place; assumption.
    + pose proof (potential_nonneg b m) as Hp.
      assert (HI : play_inv b m)
        by (apply (lockstep_inv n); [apply legal_lockstep, HL|lia]).
      assert (H1 : tfield m = 1 -> b = INIT).
      { intros E. apply (legal_first_turn n b m HL); [lia|exact E]. }
      pose proof (valid_free b m i HI Hi Hv H1) as Hfree.
      destruct HI as (Hb & _).
      pose proof (potential_place b m i Hb Hi Hfree Hn) as HP.
      revert HB HP. generalize (potential b m).
      generalize (potential (place b i) (mask m i)). intros; lia.
Qed.

Lemma reachable_inv (b m : Z) :
  reachable b m ->
  play_inv b m /\ 1 <= tfield b <= 51 /\ (tfield m = 1 -> b = INIT /\ m = INIT).
Proof.
  intros H. destruct (reachable_bound b m H) as (n & HL & HB).
  pose proof (potential_nonneg b m) as Hp.
  pose proof (legal_lockstep n b m HL) as HK.
  destruct (lockstep_turn n b m HK) as (_ & _ & Tb & Tm).
  rewrite Z.mod_small in Tb by lia.
  split; [apply (lockstep_inv n); [exact HK|lia]|].
  split; [lia|].
  intros E. apply (legal_first_turn n b m HL); [lia|exact E].
Qed.

Lemma iscomplete_INIT : iscomplete INIT INIT = false.
Proof. vm_compute. reflexivity. Qed.

(** A complete position leaves no valid cell, provided occupied cells are
    forbidden in the mask and the turn is not the first. *)
Lemma complete_no_valid (b m i : Z) :
  play_inv b m -> tfield m <> 1 -> iscomplete b m = true ->
  0 <= i < 25 -> valid m i = false.
Proof.
  intros (Hb & Hm & Ht & Hd & Ho) H1 Hc Hi.
  rewrite valid_spec by assumption.
  destruct (Z.eqb_spec (tfield m) 1) as [E|_]; [contradiction|].
  apply negb_false_iff.
  rewrite iscomplete_spec in Hc. destruct (Hc i Hi) as [HB HA].
  assert (MA : Z.testbit m i = true).
  { destruct HA as [A|A]; [|exact A]. apply (Ho i Hi). auto. }
  assert (MB : Z.testbit m (25 + i) = true).
  { destruct HB as [B|B]; [|exact B]. apply (Ho i Hi). auto. }
  pose proof (tfield_range m Hm) as Htr.
  destruct (who_of_cases (tfield m) ltac:(lia)) as [W|W]; rewrite W.
  - replace (0 * 25 + i) with i by lia. exact MA.
  - replace (1 * 25 + i) with (25 + i) by lia. exact MB.
Qed.

Lemma complete_leaves_no_valid_cell_aux (b m : Z) :
  reachable b m -> iscomplete b m = true ->
  forall i, 0 <= i < 25 -> valid m i = false.
Proof.
  intros H Hc i Hi.
  destruct (reachable_inv b m H) as (HI & _ & H1).
  apply (complete_no_valid b m i HI); try assumption.
  intros E. destruct (H1 E) as [-> ->].
  rewrite iscomplete_INIT in Hc. discriminate.
Qed.

(** ** Claims on plays *)

(** C4. For every position and mask reachable by legal play from
    [(INIT, INIT)]: when [iscomplete] holds, no cell of [[0, 25)] is
    [valid] for the mover. *)
Theorem complete_leaves_no_valid_cell (b m : Z) :
  reachable b m -> iscomplete b m = true ->
  forall i, 0 <= i < 25 -> valid m i = false.
Proof. apply complete_leaves_no_valid_cell_aux. Qed.

Lemma sample_game_runs :
  run game_rule sample_game (INIT, INIT) = Some sample_end.
Proof. vm_compute. reflexivity. Qed.

Lemma complete_leaves_no_valid_cell_witness :
  valid (snd sample_end) 7 = false.
Proof.
  apply (complete_leaves_no_valid_cell (fst sample_end) (snd sample_end)).
  - apply (run_reachable sample_game INIT INIT);
      [apply reachable_init|apply sample_game_runs].
  - vm_compute. reflexivity.
  - lia.
Defined.







(** ** derive *)

Lemma scan_fold (b : Z) (l : list Z) :
  Forall (fun i => 0 <= i) l ->
  forall a0 a1,
    fold_left (scan_cell b) l (MoveLists a0 a1)
    = MoveLists (a0 ++ List.filter (fun i => Z.testbit b i) l)
                (a1 ++ List.filter (fun i => Z.testbit b (25 + i)) l).
Proof.
  induction 1 as [|i l Hi HF IH]; intros a0 a1; simpl.
  - rewrite !app_nil_r. reflexivity.
  - unfold scan_cell at 2. rewrite !land1_testbit by lia.
    rewrite (Z.add_comm i 25).
    destruct (Z.testbit b i), (Z.testbit b (25 + i)); simpl;
      rewrite IH; simpl; rewrite <- ?app_assoc; reflexivity.
Qed.

Lemma cells_nonneg : Forall (fun i => 0 <= i) cells.
Proof.
  apply Stdlib.Lists.List.Forall_forall. intros i Hi.
  apply in_cells in Hi. lia.
Qed.

Lemma scan_spec (b : Z) : scan b = MoveLists (pieces_A b) (pieces_B b).
Proof.
  unfold scan. rewrite scan_fold by apply cells_nonneg.
  unfold pieces_A, pieces_B. rewrite !app_nil_l. reflexivity.
Qed.

Lemma pieces_A_in (b c : Z) :
  In c (pieces_A b) <-> 0 <= c < 25 /\ Z.testbit b c = true.
Proof. unfold pieces_A. rewrite filter_In, in_cells. reflexivity. Qed.

Lemma pieces_B_in (b c : Z) :
  In c (pieces_B b) <-> 0 <= c < 25 /\ Z.testbit b (25 + c) = true.
Proof. unfold pieces_B. rewrite filter_In, in_cells. reflexivity. Qed.

Lemma pieces_INIT : pieces_A INIT = [] /\ pieces_B INIT = [].
Proof. split; vm_compute; reflexivity. Qed.

#[global] Opaque pieces_A pieces_B.

Lemma pieces_ok (b : Z) : moves_ok (MoveLists (pieces_A b) (pieces_B b)).
Proof.
  split; cbn [moves0 moves1]; apply Stdlib.Lists.List.Forall_forall;
    intros c Hc; [apply pieces_A_in in Hc|apply pieces_B_in in Hc]; tauto.
Qed.

Lemma turn_of_tfield (x : Z) :
  is_u64 x -> 1 <= tfield x -> turn x = tfield x - 1.
Proof.
  intros Hx Ht. pose proof (tfield_range x Hx) as Hr.
  unfold turn. fold (tfield x). rewrite u64_small by lia.
  apply int_of_small. lia.
Qed.

Lemma turn_of_tfield_0 (x : Z) : tfield x = 0 -> turn x = -1.
Proof. intros E. unfold turn. fold (tfield x). rewrite E. reflexivity. Qed.

Lemma moves_of_ok (ml : movelists) (k : Z) :
  moves_ok ml -> Forall (fun c => 0 <= c < 25) (moves_of ml k).
Proof. intros [H0 H1]. unfold moves_of. destruct (k =? 0); assumption. Qed.

Lemma derive_step_cases (ml : movelists) (i m : Z) :
  moves_ok ml -> 0 <= i ->
  derive_step ml i m = pass m
  \/ exists c, 0 <= c < 25 /\ derive_step ml i m = mask m c.
Proof.
  intros Hok Hi. unfold derive_step.
  destruct (Z.ltb_spec (Z.quot i 2)
              (Z.of_nat (length (moves_of ml (Z.rem i 2))))) as [Hl|Hl];
    [right|left; reflexivity].
  eexists. split; [|reflexivity].
  pose proof (moves_of_ok ml (Z.rem i 2) Hok) as HF.
  rewrite Stdlib.Lists.List.Forall_forall in HF. apply HF. apply nth_In.
  assert (0 <= Z.quot i 2) by (apply Z.quot_pos; lia). lia.
Qed.

Lemma replay_S (ml : movelists) (k : nat) :
  replay ml (S k) = derive_step ml (Z.of_nat k) (replay ml k).
Proof. reflexivity. Qed.

Lemma replay_turn (ml : movelists) (k : nat) :
  moves_ok ml -> Z.of_nat k + 1 < 2 ^ 14 ->
  is_u64 (replay ml k) /\ tfield (replay ml k) = Z.of_nat k + 1.
Proof.
  intros Hok. induction k as [|k IH]; intros Hk.
  - split; [apply INIT_u64|reflexivity].
  - destruct IH as [Hu Ht]; [lia|]. rewrite replay_S.
    assert (Hn : next_turn (Z.of_nat k + 1) = Z.of_nat (S k) + 1)
      by (unfold next_turn; rewrite Z.mod_small; lia).
    destruct (derive_step_cases ml (Z.of_nat k) (replay ml k) Hok)
      as [E|(c & Hc & E)]; [lia| |]; rewrite E.
    + split; [apply pass_u64|]. rewrite tfield_pass, Ht. exact Hn.
    + split; [apply mask_u64; assumption|].
      rewrite tfield_mask by assumption. rewrite Ht. exact Hn.
Qed.

Lemma derive_loop_eq (fuel : nat) (b : Z) (ml : movelists) (i m : Z) :
  derive_loop fuel b ml i m
  = if turn m <? turn b then
      match fuel with
      | O => None
      | S fuel' => derive_loop fuel' b ml (i + 1) (derive_step ml i m)
      end
    else Some m.
Proof. destruct fuel; reflexivity. Qed.

Lemma derive_loop_replay (b : Z) (ml : movelists) (d : nat) :
  forall (fuel i : nat),
    moves_ok ml -> (d <= fuel)%nat ->
    Z.of_nat (i + d) + 1 < 2 ^ 14 ->
    turn b = Z.of_nat (i + d) ->
    derive_loop fuel b ml (Z.of_nat i) (replay ml i)
    = Some (replay ml (i + d)).
Proof.
  induction d as [|d IH]; intros fuel i Hok Hf Hb Ht.
  - destruct (replay_turn ml i Hok ltac:(lia)) as [Hu Hti].
    assert (E : (turn (replay ml i) <? turn b) = false).
    { rewrite turn_of_tfield by (try assumption; lia).
      apply Z.ltb_ge. lia. }
    replace (i + 0)%nat with i by lia.
    rewrite derive_loop_eq, E. reflexivity.
  - destruct (replay_turn ml i Hok ltac:(lia)) as [Hu Hti].
    assert (E : (turn (replay ml i) <? turn b) = true).
    { rewrite turn_of_tfield by (try assumption; lia).
      apply Z.ltb_lt. lia. }
    destruct fuel as [|fuel]; [lia|]. rewrite derive_loop_eq, E.
    replace (Z.of_nat i + 1) with (Z.of_nat (S i)) by lia.
    rewrite <- replay_S.
    replace (i + S d)%nat with (S i + d)%nat by lia.
    apply IH; try assumption; try lia.
Qed.


(** *** The mask as a function of the pieces *)

Lemma mask_of_pieces_ext (As Bs As' Bs' : list Z) (m : Z) :
  (forall x, In x As <-> In x As') -> (forall x, In x Bs <-> In x Bs') ->
  mask_of_pieces As Bs m -> mask_of_pieces As' Bs' m.
Proof.
  intros HA HB H j Hj. destruct (H j Hj) as [H0 H1].
  rewrite H0, H1. clear H0 H1. rewrite HA, HB. split.
  - split; (intros [?|(c & Hc & ?)]; [auto|right; exists c; split; auto]);
      apply HB; exact Hc.
  - split; (intros [?|(c & Hc & ?)]; [auto|right; exists c; split; auto]);
      apply HA; exact Hc.
Qed.

Lemma mask_of_pieces_init : mask_of_pieces [] [] INIT.
Proof.
  intros j Hj. rewrite !testbit_INIT by lia. split; split;
    try discriminate; intros [[]|(c & [] & _)].
Qed.

Lemma mask_of_pieces_pass (As Bs : list Z) (m : Z) :
  mask_of_pieces As Bs m -> mask_of_pieces As Bs (pass m).
Proof. intros H j Hj. rewrite !testbit_pass by lia. apply H, Hj. Qed.

(** Placing on cell [c] adds [c] to the pieces of the mover. *)
Lemma mask_of_pieces_mask (As Bs : list Z) (m c : Z) :
  is_u64 m -> 0 <= c < 25 -> mask_of_pieces As Bs m ->
  mask_of_pieces (if who_of (tfield m) =? 0 then As ++ [c] else As)
                 (if who_of (tfield m) =? 0 then Bs else Bs ++ [c])
                 (mask m c).
Proof.
  intros Hm Hc H j Hj. destruct (H j Hj) as [H0 H1].
  pose proof (tfield_range m Hm) as Ht.
  rewrite !testbit_mask by (try assumption; lia).
  rewrite !orb_true_iff, H0, H1, !Z.eqb_eq. clear H0 H1.
  assert (Hcons : forall (L : list Z) x, In x (L ++ [c]) <-> In x L \/ x = c).
  { intros L x. rewrite in_app_iff. cbn [In]. intuition. }
  destruct (who_of_cases (tfield m) ltac:(lia)) as [W|W]; rewrite W;
    cbn [Z.eqb].
  - replace (j - (1 - 0) * 25) with (j - 25) by lia.
    replace (25 + j - (1 - 0) * 25) with j by lia.
    replace (0 * 25 + c) with c by lia.
    rewrite (Z.testbit_neg_r _ (j - 25)) by lia. rewrite Hcons.
    split; split.
    + intros [[[?|?]|?]|?]; try discriminate; auto.
    + intros [[?|?]|?]; auto.
    + intros [[[?|(x & Hx & ?)]|?]|?]; try lia; auto.
      * right. exists x. rewrite Hcons. auto.
      * right. exists c. rewrite Hcons. auto.
    + intros [?|(x & Hx & ?)]; auto.
      apply Hcons in Hx. destruct Hx as [Hx| ->]; [|auto].
      left. left. right. exists x. auto.
  - replace (j - (1 - 1) * 25) with j by lia.
    replace (25 + j - (1 - 1) * 25) with (25 + j) by lia.
    rewrite (blocks_high c (25 + j)) by lia. rewrite Hcons.
    split; split.
    + intros [[[?|(x & Hx & ?)]|?]|?]; try lia; auto.
      * right. exists x. rewrite Hcons. auto.
      * right. exists c. rewrite Hcons. auto.
    + intros [?|(x & Hx & ?)]; auto.
      apply Hcons in Hx. destruct Hx as [Hx| ->]; [|auto].
      left. left. right. exists x. auto.
    + intros [[[?|?]|?]|?]; try discriminate; auto. left. right. lia.
    + intros [[?|?]|?]; auto. right. lia.
Qed.

(** Two values that are the mask of the same pieces have the same 50 low
    bits. *)
Lemma mask_of_pieces_bits (As Bs : list Z) (m m' : Z) :
  mask_of_pieces As Bs m -> mask_of_pieces As Bs m' ->
  forall n, 0 <= n < 50 -> Z.testbit m n = Z.testbit m' n.
Proof.
  intros H H' n Hn. apply eq_true_iff_eq.
  destruct (Z.lt_ge_cases n 25) as [Hlt|Hge].
  - destruct (H n ltac:(lia)) as [E _]. destruct (H' n ltac:(lia)) as [E' _].
    rewrite E, E'. reflexivity.
  - destruct (H (n - 25) ltac:(lia)) as [_ E].
    destruct (H' (n - 25) ltac:(lia)) as [_ E'].
    replace (25 + (n - 25)) with n in E, E' by lia.
    rewrite E, E'. reflexivity.
Qed.

Lemma u64_eq_fields (x y : Z) :
  is_u64 x -> is_u64 y -> tfield x = tfield y ->
  (forall n, 0 <= n < 50 -> Z.testbit x n = Z.testbit y n) -> x = y.
Proof.
  intros Hx Hy Ht Hbits. apply Z.bits_inj'; intros n Hn.
  destruct (Z.lt_ge_cases n 50) as [Hlt|Hge]; [apply Hbits; lia|].
  replace n with (n - 50 + 50) by lia.
  rewrite <- !Z.shiftr_spec by lia. fold (tfield x) (tfield y).
  rewrite Ht. reflexivity.
Qed.


Lemma in_snoc (L : list Z) (c x : Z) : In x (L ++ [c]) <-> In x L \/ x = c.
Proof. rewrite in_app_iff. cbn [In]. intuition. Qed.

Lemma pieces_place (b i x : Z) :
  is_u64 b -> 0 <= i < 25 ->
  (In x (pieces_A (place b i)) <->
   In x (if who_of (tfield b) =? 0 then pieces_A b ++ [i] else pieces_A b))
  /\ (In x (pieces_B (place b i)) <->
      In x (if who_of (tfield b) =? 0 then pieces_B b
            else pieces_B b ++ [i])).
Proof.
  intros Hb Hi. pose proof (tfield_range b Hb) as Ht.
  assert (HA : In x (pieces_A (place b i)) <->
               0 <= x < 25 /\
               (Z.testbit b x = true \/ who_of (tfield b) * 25 + i = x)).
  { rewrite pieces_A_in. split; intros [Hx H]; (split; [exact Hx|]).
    - rewrite testbit_place in H by (try assumption; lia).
      apply orb_true_iff in H. rewrite Z.eqb_eq in H. exact H.
    - rewrite testbit_place by (try assumption; lia).
      apply orb_true_iff. rewrite Z.eqb_eq. exact H. }
  assert (HB : In x (pieces_B (place b i)) <->
               0 <= x < 25 /\
               (Z.testbit b (25 + x) = true
                \/ who_of (tfield b) * 25 + i = 25 + x)).
  { rewrite pieces_B_in. split; intros [Hx H]; (split; [exact Hx|]).
    - rewrite testbit_place in H by (try assumption; lia).
      apply orb_true_iff in H. rewrite Z.eqb_eq in H. exact H.
    - rewrite testbit_place by (try assumption; lia).
      apply orb_true_iff. rewrite Z.eqb_eq. exact H. }
  rewrite HA, HB. clear HA HB.
  pose proof (pieces_A_in b x) as PA. pose proof (pieces_B_in b x) as PB.
  destruct (who_of_cases (tfield b) ltac:(lia)) as [W|W]; rewrite W.
  - cbn [Z.eqb]. rewrite in_snoc. rewrite PA, PB. clear PA PB.
    split; split; intros H.
    + destruct H as [Hx [H|H]]; [left; auto|right; lia].
    + destruct H as [[Hx H]|H]; [auto|]. split; [lia|right; lia].
    + destruct H as [Hx [H|H]]; [auto|lia].
    + destruct H as [Hx H]; auto.
  - cbn [Z.eqb]. rewrite in_snoc. rewrite PA, PB. clear PA PB.
    split; split; intros H.
    + destruct H as [Hx [H|H]]; [auto|lia].
    + destruct H as [Hx H]; auto.
    + destruct H as [Hx [H|H]]; [left; auto|right; lia].
    + destruct H as [[Hx H]|H]; [auto|]. split; [lia|right; lia].
Qed.

Lemma pieces_pass (b x : Z) :
  (In x (pieces_A (pass b)) <-> In x (pieces_A b))
  /\ (In x (pieces_B (pass b)) <-> In x (pieces_B b)).
Proof.
  pose proof (pieces_A_in b x) as PA. pose proof (pieces_B_in b x) as PB.
  pose proof (pieces_A_in (pass b) x) as PA'.
  pose proof (pieces_B_in (pass b) x) as PB'.
  rewrite PA, PB, PA', PB'. clear PA PB PA' PB'.
  split; split; intros [Hx H]; (split; [exact Hx|]);
    [rewrite testbit_pass in H by lia|rewrite testbit_pass by lia
    |rewrite testbit_pass in H by lia|rewrite testbit_pass by lia];
    exact H.
Qed.

(** The mask of a play is the mask of the pieces on its board. *)
Lemma lockstep_mask (n : nat) (b m : Z) :
  lockstep n b m -> mask_of_pieces (pieces_A b) (pieces_B b) m.
Proof.
  induction 1 as [|n b m i H IH Hi Hv|n b m H IH].
  - destruct pieces_INIT as [-> ->]. apply mask_of_pieces_init.
  - destruct (lockstep_turn n b m H) as (Hb & Hm & Tb & Tm).
    assert (Ht : tfield b = tfield m) by congruence.
    pose proof (mask_of_pieces_mask _ _ m i Hm Hi IH) as HM.
    rewrite <- Ht in HM.
    exact (mask_of_pieces_ext _ _ _ _ _
             (fun x => iff_sym (proj1 (pieces_place b i x Hb Hi)))
             (fun x => iff_sym (proj2 (pieces_place b i x Hb Hi))) HM).
  - apply mask_of_pieces_pass.
    exact (mask_of_pieces_ext _ _ _ _ _
             (fun x => iff_sym (proj1 (pieces_pass b x)))
             (fun x => iff_sym (proj2 (pieces_pass b x))) IH).
Qed.

Lemma firstn_snoc {A : Type} (l : list A) (j : nat) (d : A) :
  (j < length l)%nat -> firstn (S j) l = firstn j l ++ [nth j l d].
Proof.
  revert j. induction l as [|x l IH]; intros j Hj; simpl in Hj; [lia|].
  destruct j as [|j]; [reflexivity|].
  cbn [firstn nth app]. f_equal. apply IH. lia.
Qed.

Lemma firstn_full {A : Type} (l : list A) (j k : nat) :
  (length l <= j)%nat -> (length l <= k)%nat -> firstn j l = firstn k l.
Proof. intros Hj Hk. rewrite !firstn_all2 by assumption. reflexivity. Qed.

Lemma who_of_ply (k : Z) :
  0 <= k -> k + 1 < 2 ^ 14 ->
  who_of (k + 1) = k mod 2 /\ Z.rem k 2 = k mod 2 /\ Z.quot k 2 = k / 2.
Proof.
  intros Hk Hb. rewrite who_of_parity by lia.
  rewrite Z.rem_mod_nonneg, Z.quot_div_nonneg by lia.
  rewrite Z.odd_add. change (Z.odd 1) with true. rewrite (Zmod_odd k).
  destruct (Z.odd k); auto.
Qed.

Lemma half_even (k : Z) :
  0 <= k -> k mod 2 = 0 -> (k + 1) / 2 = k / 2 /\ (k + 1 + 1) / 2 = k / 2 + 1.
Proof.
  intros Hk P. pose proof (Z.div_mod k 2 ltac:(lia)) as E. rewrite P in E.
  split; symmetry.
  - apply (Z.div_unique (k + 1) 2 (k / 2) 1); lia.
  - apply (Z.div_unique (k + 1 + 1) 2 (k / 2 + 1) 0); lia.
Qed.
Lemma half_odd (k : Z) :
  0 <= k -> k mod 2 = 1 ->
  (k + 1) / 2 = k / 2 + 1 /\ (k + 1 + 1) / 2 = k / 2 + 1.
Proof.
  intros Hk P. pose proof (Z.div_mod k 2 ltac:(lia)) as E. rewrite P in E.
  split; symmetry.
  - apply (Z.div_unique (k + 1) 2 (k / 2 + 1) 0); lia.
  - apply (Z.div_unique (k + 1 + 1) 2 (k / 2 + 1) 1); lia.
Qed.
Lemma half_nonneg (k : Z) : 0 <= k -> 0 <= k / 2.
Proof. intros. apply Z.div_pos; lia. Qed.

(** After [k] iterations the loop of [derive] has replayed the first
    [(k+1)/2] recorded cells of player A and the first [k/2] of player B. *)
Lemma replay_mask (ml : movelists) (k : nat) :
  moves_ok ml -> Z.of_nat k + 1 < 2 ^ 14 ->
  mask_of_pieces (firstn (Z.to_nat ((Z.of_nat k + 1) / 2)) (moves0 ml))
                 (firstn (Z.to_nat (Z.of_nat k / 2)) (moves1 ml))
                 (replay ml k).
Proof.
  intros Hok. induction k as [|k IH]; intros Hk.
  - apply mask_of_pieces_init.
  - specialize (IH ltac:(lia)).
    destruct (replay_turn ml k Hok ltac:(lia)) as [Hu Ht].
    destruct (who_of_ply (Z.of_nat k) ltac:(lia) ltac:(lia))
      as (Hw & Hr & Hq).
    rewrite replay_S. unfold derive_step. rewrite Hr, Hq.
    replace (Z.of_nat (S k)) with (Z.of_nat k + 1) by lia.
    assert (Hpar : Z.of_nat k mod 2 = 0 \/ Z.of_nat k mod 2 = 1)
      by (pose proof (Z.mod_pos_bound (Z.of_nat k) 2); lia).
    pose proof (half_nonneg (Z.of_nat k) ltac:(lia)) as Hh.
    set (j := Z.to_nat (Z.of_nat k / 2)).
    destruct Hpar as [P|P].
    + (* player A replays *)
      destruct (half_even (Z.of_nat k) ltac:(lia) P) as [E1 E2].
      assert (EA : Z.to_nat ((Z.of_nat k + 1) / 2) = j)
        by (subst j; rewrite E1; reflexivity).
      assert (EA' : Z.to_nat ((Z.of_nat k + 1 + 1) / 2) = S j)
        by (subst j; rewrite E2; lia).
      rewrite EA in IH. rewrite EA', EA. rewrite P.
      unfold moves_of. cbn [Z.eqb].
      destruct (Z.ltb_spec (Z.of_nat k / 2) (Z.of_nat (length (moves0 ml))))
        as [Hl|Hl].
      * assert (Hj : (j < length (moves0 ml))%nat) by (subst j; lia).
        rewrite (firstn_snoc _ j 0 Hj).
        assert (Hc : 0 <= nth j (moves0 ml) 0 < 25).
        { destruct Hok as [H0 _].
          rewrite Stdlib.Lists.List.Forall_forall in H0.
          apply H0, nth_In, Hj. }
        pose proof (mask_of_pieces_mask _ _ _ _ Hu Hc IH) as HM.
        rewrite Ht, Hw, P in HM. cbn [Z.eqb] in HM. fold j. exact HM.
      * rewrite (firstn_full (moves0 ml) (S j) j) by (subst j; lia).
        apply mask_of_pieces_pass, IH.
    + (* player B replays *)
      destruct (half_odd (Z.of_nat k) ltac:(lia) P) as [E1 E2].
      assert (EA : Z.to_nat ((Z.of_nat k + 1) / 2) = S j)
        by (subst j; rewrite E1; lia).
      assert (EA' : Z.to_nat ((Z.of_nat k + 1 + 1) / 2) = S j)
        by (subst j; rewrite E2; lia).
      rewrite EA in IH. rewrite EA', EA. rewrite P.
      unfold moves_of. cbn [Z.eqb].
      destruct (Z.ltb_spec (Z.of_nat k / 2) (Z.of_nat (length (moves1 ml))))
        as [Hl|Hl].
      * assert (Hj : (j < length (moves1 ml))%nat) by (subst j; lia).
        rewrite (firstn_snoc (moves1 ml) j 0 Hj).
        assert (Hc : 0 <= nth j (moves1 ml) 0 < 25).
        { destruct Hok as [_ H1].
          rewrite Stdlib.Lists.List.Forall_forall in H1.
          apply H1, nth_In, Hj. }
        pose proof (mask_of_pieces_mask _ _ _ _ Hu Hc IH) as HM.
        rewrite Ht, Hw, P in HM. cbn [Z.eqb] in HM. fold j. exact HM.
      * rewrite (firstn_full (moves1 ml) (S j) j) by (subst j; lia).
        apply mask_of_pieces_pass, IH.
Qed.


(** *** Every piece is replayed *)

Lemma NoDup_cells : List.NoDup cells.
Proof.
  unfold cells. generalize (List.seq_NoDup 25 0). generalize (seq 0 25).
  induction 1 as [|x l Hx HN IH]; simpl; constructor; [|exact IH].
  rewrite in_map_iff. intros (y & E & Hy). apply Nat2Z.inj in E. subst y.
  contradiction.
Qed.

Lemma filter_length_point (p p' : Z -> bool) (l : list Z) (i : Z) :
  List.NoDup l ->
  (forall x, In x l -> x <> i -> p' x = p x) ->
  (length (List.filter p' l) <= length (List.filter p l) + 1)%nat.
Proof.
  induction 1 as [|a l Ha HN IH]; intros Hp; simpl; [lia|].
  destruct (Z.eq_dec a i) as [->|Hne].
  - assert (E : List.filter p' l = List.filter p l).
    { apply filter_ext_in. intros x Hx. apply Hp; [right; exact Hx|].
      intros ->. contradiction. }
    rewrite E. destruct (p' i), (p i); simpl; lia.
  - rewrite (Hp a (or_introl eq_refl) Hne).
    assert (IH' := IH (fun x Hx => Hp x (or_intror Hx))).
    destruct (p a); simpl; lia.
Qed.

Transparent pieces_A pieces_B.

Lemma pieces_pass_eq (b : Z) :
  pieces_A (pass b) = pieces_A b /\ pieces_B (pass b) = pieces_B b.
Proof.
  unfold pieces_A, pieces_B. split; apply filter_ext_in; intros x Hx;
    apply in_cells in Hx; apply testbit_pass; lia.
Qed.

Lemma pieces_place_length (b i : Z) :
  is_u64 b -> 0 <= i < 25 ->
  if who_of (tfield b) =? 0
  then (length (pieces_A (place b i)) <= length (pieces_A b) + 1)%nat
       /\ pieces_B (place b i) = pieces_B b
  else (length (pieces_B (place b i)) <= length (pieces_B b) + 1)%nat
       /\ pieces_A (place b i) = pieces_A b.
Proof.
  intros Hb Hi. pose proof (tfield_range b Hb) as Ht.
  unfold pieces_A, pieces_B.
  destruct (who_of_cases (tfield b) ltac:(lia)) as [W|W]; rewrite W;
    cbn [Z.eqb]; split.
  - apply (filter_length_point _ _ cells i NoDup_cells).
    intros x Hx Hne. apply in_cells in Hx.
    rewrite testbit_place by (try assumption; lia). rewrite W.
    replace (0 * 25 + i =? x) with false by (symmetry; apply Z.eqb_neq; lia).
    apply orb_false_r.
  - apply filter_ext_in. intros x Hx. apply in_cells in Hx.
    rewrite testbit_place by (try assumption; lia). rewrite W.
    replace (0 * 25 + i =? 25 + x) with false
      by (symmetry; apply Z.eqb_neq; lia).
    apply orb_false_r.
  - apply (filter_length_point _ _ cells i NoDup_cells).
    intros x Hx Hne. apply in_cells in Hx.
    rewrite testbit_place by (try assumption; lia). rewrite W.
    replace (1 * 25 + i =? 25 + x) with false
      by (symmetry; apply Z.eqb_neq; lia).
    apply orb_false_r.
  - apply filter_ext_in. intros x Hx. apply in_cells in Hx.
    rewrite testbit_place by (try assumption; lia). rewrite W.
    replace (1 * 25 + i =? x) with false by (symmetry; apply Z.eqb_neq; lia).
    apply orb_false_r.
Qed.

Opaque pieces_A pieces_B.

(** A player has at most one piece for each of its turns. *)
Lemma lockstep_counts (n : nat) (b m : Z) :
  lockstep n b m -> Z.of_nat n + 1 < 2 ^ 14 ->
  Z.of_nat (length (pieces_A b)) <= (Z.of_nat n + 1) / 2
  /\ Z.of_nat (length (pieces_B b)) <= Z.of_nat n / 2.
Proof.
  induction 1 as [|n b m i H IH Hi Hv|n b m H IH]; intros Hn.
  - destruct pieces_INIT as [-> ->]. split; vm_compute; discriminate.
  - destruct (IH ltac:(lia)) as [IA IB].
    destruct (lockstep_turn n b m H) as (Hb & _ & Tb & _).
    rewrite Z.mod_small in Tb by lia.
    destruct (who_of_ply (Z.of_nat n) ltac:(lia) ltac:(lia)) as (Hw & _ & _).
    pose proof (pieces_place_length b i Hb Hi) as HL.
    rewrite Tb, Hw in HL.
    replace (Z.of_nat (S n)) with (Z.of_nat n + 1) by lia.
    assert (Hpar : Z.of_nat n mod 2 = 0 \/ Z.of_nat n mod 2 = 1)
      by (pose proof (Z.mod_pos_bound (Z.of_nat n) 2); lia).
    destruct Hpar as [P|P]; rewrite P in HL; cbn [Z.eqb] in HL;
      destruct HL as [HL1 HL2]; rewrite HL2.
    + destruct (half_even (Z.of_nat n) ltac:(lia) P) as [E1 E2].
      rewrite E2, E1 in *. split; lia.
    + destruct (half_odd (Z.of_nat n) ltac:(lia) P) as [E1 E2].
      rewrite E2, E1 in *. split; lia.
  - destruct (IH ltac:(lia)) as [IA IB].
    destruct (pieces_pass_eq b) as [-> ->].
    replace (Z.of_nat (S n)) with (Z.of_nat n + 1) by lia.
    assert (Hpar : Z.of_nat n mod 2 = 0 \/ Z.of_nat n mod 2 = 1)
      by (pose proof (Z.mod_pos_bound (Z.of_nat n) 2); lia).
    destruct Hpar as [P|P].
    + destruct (half_even (Z.of_nat n) ltac:(lia) P) as [E1 E2].
      rewrite E2, E1 in *. split; lia.
    + destruct (half_odd (Z.of_nat n) ltac:(lia) P) as [E1 E2].
      rewrite E2, E1 in *. split; lia.
Qed.

(** [derive] rebuilds the mask of any lockstep play whose turn field has
    not wrapped around. *)
Lemma derive_lockstep (n : nat) (b m : Z) :
  lockstep n b m -> Z.of_nat n <= 16382 -> derive b = Some m.
Proof.
  intros H Hn.
  destruct (lockstep_turn n b m H) as (Hb & Hm & Tb & Tm).
  rewrite Z.mod_small in Tb, Tm by lia.
  assert (Hturn : turn b = Z.of_nat (0 + n))
    by (rewrite turn_of_tfield by (try assumption; lia); lia).
  unfold derive. rewrite scan_spec.
  set (ml := MoveLists (pieces_A b) (pieces_B b)).
  assert (Hok : moves_ok ml) by apply pieces_ok.
  change INIT with (replay ml 0). change 0 with (Z.of_nat 0) at 1.
  rewrite (derive_loop_replay b ml n derive_fuel 0%nat Hok);
    [|unfold derive_fuel; lia|lia|exact Hturn].
  f_equal. cbn [Nat.add].
  destruct (replay_turn ml n Hok ltac:(lia)) as [Hu Ht].
  apply u64_eq_fields; [exact Hu|exact Hm|congruence|].
  destruct (lockstep_counts n b m H ltac:(lia)) as [CA CB].
  pose proof (replay_mask ml n Hok ltac:(lia)) as HR.
  subst ml. cbn [moves0 moves1] in HR.
  rewrite (firstn_all2 (pieces_A b)) in HR by lia.
  rewrite (firstn_all2 (pieces_B b)) in HR by lia.
  apply (mask_of_pieces_bits _ _ _ _ HR (lockstep_mask n b m H)).
Qed.







(** ** The two strategies satisfy the laws *)

Lemma pos_popcount_size (p : positive) :
  1 <= pos_popcount p <= Zpos (Pos.size p).
Proof. induction p; simpl pos_popcount; simpl Pos.size; lia. Qed.

Lemma pos_size_log2 (p : positive) : Zpos (Pos.size p) = Z.log2 (Zpos p) + 1.
Proof. destruct p; simpl; lia. Qed.

Lemma POPCOUNT_range (x n : Z) :
  0 <= x < 2 ^ n -> 0 <= n -> 0 <= POPCOUNT x <= n.
Proof.
  intros Hx Hn. destruct x as [|p|p]; simpl; [lia| |lia].
  pose proof (pos_popcount_size p) as H. rewrite pos_size_log2 in H.
  assert (Z.log2 (Zpos p) < n) by (apply Z.log2_lt_pow2; lia). lia.
Qed.

Lemma score_packed (b : Z) :
  exists x, 0 <= x <= 50 /\ Minimax.score b = Z.lor (Z.shiftl x 56) b.
Proof.
  unfold Minimax.score.
  set (p0 := POPCOUNT (Z.land b 33554431)).
  set (p1 := POPCOUNT (Z.land (Z.shiftr b 25) 33554431)).
  assert (H0 : 0 <= p0 <= 25).
  { apply POPCOUNT_range; [|lia]. apply land_range; [|lia]. lia. }
  assert (H1 : 0 <= p1 <= 25).
  { apply POPCOUNT_range; [|lia]. apply land_range; [|lia]. lia. }
  exists (p0 - p1 + 25). split; [lia|].
  rewrite (u64_small (p0 - p1 + 25)) by lia.
  rewrite shiftl_u64_small by lia. reflexivity.
Qed.

Lemma packed_slot (x b : Z) :
  0 <= x < 2 ^ 6 -> is_board b -> is_slot (Z.lor (Z.shiftl x 56) b).
Proof.
  intros Hx Hb. unfold is_slot. apply lor_range; [| |lia].
  - apply (shiftl_range x 6 56); lia.
  - unfold is_board in Hb. lia.
Qed.

Lemma minimax_laws : StrategyLaws Minimax.strategy is_slot.
Proof.
  constructor; cbn [slot_t zero init getboard setboard score combine
                    Minimax.strategy].
  - reflexivity.
  - intros b Hb. rewrite init_packed. split.
    + apply packed_slot; [destruct (truthy _); lia|exact Hb].
    + apply pack_getboard; [destruct (truthy _); lia|exact Hb].
  - intros b Hb. destruct (score_packed b) as (x & Hx & ->). split.
    + apply packed_slot; [lia|exact Hb].
    + apply pack_getboard; [lia|exact Hb].
  - intros s b Hs Hb.
    destruct (minimax_setboard_fields s b Hs Hb) as (E1 & E2 & _).
    split; [|exact E1].
    pose proof (slot_split (Minimax.setboard s b)) as E. rewrite E1, E2 in E.
    rewrite E. apply packed_slot; [|exact Hb].
    apply (shiftr_range s 62 56); [exact Hs|lia].
  - intros a x Ha Hx Hl. split.
    + rewrite combine_mode.
      destruct (mover_is_A a); [destruct (_ >? _)|destruct (_ <? _)];
        assumption.
    + apply minimax_combine_label. exact Hl.
  - intros a x y Ha Hx Hy Lx Ly.
    assert (U : forall s, is_slot s -> is_u64 s)
      by (unfold is_slot, is_u64; intros; lia).
    apply (minimax_combine_swap (Minimax.getboard a)); auto.
Qed.

Lemma tally_laws : StrategyLaws Tally.strategy (fun _ => True).
Proof.
  constructor; cbn [slot_t zero init getboard setboard score combine
                    Tally.strategy].
  - reflexivity.
  - intros b _. split; [exact I|reflexivity].
  - intros b _. split; [exact I|reflexivity].
  - intros s b _ _. split; [exact I|reflexivity].
  - intros a x _ _ _. split; [exact I|reflexivity].
  - intros a x y _ _ _ _ _. apply tally_combine_swap.
Qed.


(** ** The probe loop of [lookup] *)

Section Lookup.

Context {strat : Strategy} {ok : slot_t -> Prop}.
Context {laws : StrategyLaws strat ok}.

Lemma table_size_pos : 0 < table_size.
Proof. reflexivity. Qed.

Lemma table_size_pow : table_size = 2 ^ 24.
Proof. reflexivity. Qed.

Lemma table_at_none (t : gmap Z slot_t) (i : Z) :
  t !! i = None -> table_at t i = zero.
Proof. intros E. unfold table_at. rewrite E. reflexivity. Qed.

Lemma table_at_some (t : gmap Z slot_t) (i : Z) (s : slot_t) :
  t !! i = Some s -> table_at t i = s.
Proof. intros E. unfold table_at. rewrite E. reflexivity. Qed.

Lemma hit_empty (t : gmap Z slot_t) (b e : Z) :
  t !! e = None -> hit t b e = true.
Proof.
  intros E. unfold hit. rewrite (table_at_none t e E), zero_board.
  reflexivity.
Qed.

Lemma hit_cases (t : gmap Z slot_t) (b i : Z) :
  hit t b i = true ->
  getboard (table_at t i) = 0 \/ getboard (table_at t i) = b.
Proof.
  unfold hit. intros H. apply orb_true_iff in H.
  destruct H as [H|H]; apply Z.eqb_eq in H; auto.
Qed.

Lemma probe1_hit (t : gmap Z slot_t) (b i : Z) :
  probe1 t b i = if hit t b i then Found i else Next ((i + 1) mod table_size).
Proof. reflexivity. Qed.

(** [probe d] stops at the first hit among the [2^d] indices from [i], or
    moves [2^d] indices on when there is none. *)
Lemma probe_spec (t : gmap Z slot_t) (b : Z) (d : nat) :
  forall i, 0 <= i < table_size ->
    match probe d t b i with
    | Found j => 0 <= j < table_size /\ hit t b j = true
    | Next i' =>
        i' = (i + 2 ^ Z.of_nat d) mod table_size
        /\ forall k, 0 <= k < 2 ^ Z.of_nat d ->
             hit t b ((i + k) mod table_size) = false
    end.
Proof.
  pose proof table_size_pos as Hn.
  induction d as [|d IH]; intros i Hi.
  - cbn [probe]. rewrite probe1_hit. destruct (hit t b i) eqn:E.
    + auto.
    + split; [reflexivity|]. intros k Hk. change (2 ^ Z.of_nat 0) with 1 in Hk.
      replace k with 0 by lia. rewrite Z.add_0_r, Z.mod_small by lia. exact E.
  - cbn [probe]. specialize (IH i Hi) as H1.
    assert (Hp : 2 ^ Z.of_nat (S d) = 2 ^ Z.of_nat d + 2 ^ Z.of_nat d).
    { rewrite Nat2Z.inj_succ, Z.pow_succ_r by lia. lia. }
    assert (Hpos : 0 < 2 ^ Z.of_nat d) by (apply Z.pow_pos_nonneg; lia).
    destruct (probe d t b i) as [j|i1]; [exact H1|].
    destruct H1 as [E1 N1].
    assert (Hi1 : 0 <= i1 < table_size)
      by (rewrite E1; apply Z.mod_pos_bound; lia).
    specialize (IH i1 Hi1) as H2.
    destruct (probe d t b i1) as [j|i2]; [exact H2|].
    destruct H2 as [E2 N2]. split.
    + rewrite E2, E1, Zplus_mod_idemp_l, Hp. f_equal. lia.
    + intros k Hk. destruct (Z.lt_ge_cases k (2 ^ Z.of_nat d)) as [Hlt|Hge].
      * apply N1. lia.
      * specialize (N2 (k - 2 ^ Z.of_nat d) ltac:(lia)).
        rewrite E1, Zplus_mod_idemp_l in N2.
        replace (i + 2 ^ Z.of_nat d + (k - 2 ^ Z.of_nat d)) with (i + k)
          in N2 by lia.
        exact N2.
Qed.

Lemma lookup_hit (t : gmap Z slot_t) (b i : Z) :
  lookup t b = Some i -> 0 <= i < table_size /\ hit t b i = true.
Proof.
  unfold lookup. intros H.
  pose proof (probe_spec t b 24 (hash b mod table_size)
                (Z.mod_pos_bound _ _ table_size_pos)) as HP.
  destruct (probe 24 t b (hash b mod table_size)) as [j|j]; [|discriminate].
  inversion H; subst. exact HP.
Qed.

(** With an unwritten index left, the probe loop ends. *)
Lemma lookup_total (t : gmap Z slot_t) (b e : Z) :
  0 <= e < table_size -> t !! e = None -> exists i, lookup t b = Some i.
Proof.
  intros He Hnone. unfold lookup.
  pose proof table_size_pos as Hn.
  set (h := hash b mod table_size).
  assert (Hh : 0 <= h < table_size) by (apply Z.mod_pos_bound; lia).
  pose proof (probe_spec t b 24 h Hh) as HP.
  destruct (probe 24 t b h) as [j|j]; [eauto|].
  exfalso. destruct HP as [_ HN].
  specialize (HN ((e - h) mod table_size)).
  change (2 ^ Z.of_nat 24) with table_size in HN.
  specialize (HN (Z.mod_pos_bound _ _ Hn)).
  rewrite Zplus_mod_idemp_r in HN.
  replace (h + (e - h)) with e in HN by lia.
  rewrite Z.mod_small in HN by lia.
  rewrite (hit_empty t b e Hnone) in HN. discriminate.
Qed.

Lemma free_index (st : store) :
  store_ok st -> exists e, 0 <= e < table_size /\ table st !! e = None.
Proof.
  intros (Hlen & Hsize & Hdom).
  set (D := dom (table st) : gset Z).
  set (R := list_to_set (seqZ 0 table_size) : gset Z).
  assert (HR : size R = Z.to_nat table_size).
  { unfold R. rewrite size_list_to_set by apply NoDup_seqZ.
    apply length_seqZ. }
  assert (HD : size D = size (table st)) by apply size_dom.
  assert (HU : (size R <= size D + size (R ∖ D))%nat).
  { rewrite <- size_union_alt. apply subseteq_size, union_subseteq_r. }
  assert (Hpos : (0 < size (R ∖ D))%nat) by lia.
  apply size_pos_elem_of in Hpos. destruct Hpos as (e & He).
  apply elem_of_difference in He. destruct He as [HeR HeD].
  exists e. split.
  - unfold R in HeR. apply elem_of_list_to_set, elem_of_seqZ in HeR. lia.
  - apply not_elem_of_dom. exact HeD.
Qed.

Lemma lookup_found (st : store) (b : Z) :
  store_ok st ->
  exists i, lookup (table st) b = Some i
            /\ 0 <= i < table_size /\ hit (table st) b i = true.
Proof.
  intros Hok. destruct (free_index st Hok) as (e & He & Hnone).
  destruct (lookup_total (table st) b e He Hnone) as (i & Hi).
  exists i. split; [exact Hi|]. apply lookup_hit, Hi.
Qed.

End Lookup.


(** ** The evaluator ends *)

Lemma valid_playable (b m i : Z) :
  reachable b m -> 0 <= i < 25 -> valid m i = true ->
  iscomplete b m = false /\ nomoves b m = false /\ free_cell b i = true.
Proof.
  intros H Hi Hv. destruct (reachable_inv b m H) as (HI & Ht & H1).
  assert (H1' : tfield m = 1 -> b = INIT) by (intros E; apply (H1 E)).
  pose proof (valid_free b m i HI Hi Hv H1') as Hf.
  destruct (iscomplete b m) eqn:Ec.
  - rewrite (complete_leaves_no_valid_cell_aux b m H Ec i Hi) in Hv.
    discriminate.
  - split; [reflexivity|]. split; [|exact Hf].
    destruct (nomoves b m) eqn:En; [|reflexivity]. exfalso.
    destruct HI as (Hb & Hm & Htf & Hd & Ho).
    rewrite nomoves_spec in En by exact Hb. specialize (En i Hi).
    rewrite valid_spec in Hv by assumption.
    unfold free_cell in Hf. apply andb_true_iff in Hf.
    destruct Hf as [F0 F1]. apply negb_true_iff in F0, F1.
    destruct (Z.eqb_spec (tfield m) 1) as [E|E].
    + destruct (H1 E) as [-> ->].
      change (who_of (tfield INIT)) with 0 in En.
      rewrite !testbit_INIT in En by lia. destruct En; discriminate.
    + apply negb_true_iff in Hv. rewrite Htf in En.
      pose proof (tfield_range m Hm) as Hr.
      destruct (who_of_cases (tfield m) ltac:(lia)) as [W|W];
        rewrite W in En, Hv;
        [replace (0 * 25 + i) with i in En, Hv by lia
        |replace (1 * 25 + i) with (25 + i) in En, Hv by lia];
        destruct En; congruence.
Qed.

Section Termination.

Context {strat : Strategy} {ok : slot_t -> Prop}.
Context {laws : StrategyLaws strat ok}.

Lemma eval_S (fuel : nat) (b m : Z) :
  eval (S fuel) b m
  = let b0 := canonicalize b in
    bind (lookup_slot b0) (fun slot =>
    bind (read slot) (fun cur =>
    if negb (truthy (getboard cur)) then
      bind count_entry (fun _ =>
      bind (write slot (init b0)) (fun _ =>
      if iscomplete b m then
        bind (write slot (score b0)) (fun _ => ret (score b0))
      else if nomoves b m then
        bind (eval fuel (pass b) (pass m)) (fun s =>
        let s := setboard s b0 in
        bind (write slot s) (fun _ => ret s))
      else
        bind (for_each cells
                (fun s i =>
                   if valid m i then
                     bind (eval fuel (place b i) (mask m i)) (fun tmp =>
                     let tmp := setboard tmp b0 in
                     ret (combine s tmp))
                   else ret s)
                (init b0)) (fun s =>
        bind (write slot s) (fun _ => ret s))))
    else ret cur)).
Proof. reflexivity. Qed.

Lemma grows_refl (st : store) : grows st st.
Proof. intros i H. exact H. Qed.

Lemma grows_trans (st1 st2 st3 : store) :
  grows st1 st2 -> grows st2 st3 -> grows st1 st3.
Proof. intros H12 H23 i H. apply H23, H12, H. Qed.

Lemma store_ok_write_new (st : store) (i : Z) (s : slot_t) :
  store_ok st -> 0 <= i < table_size ->
  table_len st + 1 < table_size ->
  store_ok (Store (<[i := s]> (table st)) (table_len st + 1)).
Proof.
  intros (Hlen & Hsize & Hdom) Hi Hn. split; [exact Hn|]. split.
  - cbn [table table_len].
    destruct (table st !! i) eqn:E.
    + rewrite map_size_insert_Some by eauto. lia.
    + rewrite map_size_insert_None by exact E. lia.
  - cbn [table]. intros j Hj.
    destruct (Z.eq_dec i j) as [<-|Hne]; [exact Hi|].
    rewrite lookup_insert_ne in Hj by exact Hne. apply Hdom, Hj.
Qed.

Lemma store_ok_write_old (st : store) (i : Z) (s : slot_t) :
  store_ok st -> is_Some (table st !! i) ->
  store_ok (Store (<[i := s]> (table st)) (table_len st)).
Proof.
  intros (Hlen & Hsize & Hdom) Hi. split; [exact Hlen|]. split.
  - cbn [table table_len]. rewrite map_size_insert_Some by exact Hi. lia.
  - cbn [table]. intros j Hj.
    destruct (Z.eq_dec i j) as [<-|Hne]; [apply Hdom, Hi|].
    rewrite lookup_insert_ne in Hj by exact Hne. apply Hdom, Hj.
Qed.

Lemma grows_write (st : store) (i : Z) (s : slot_t) (n : Z) :
  grows st (Store (<[i := s]> (table st)) n).
Proof.
  intros j Hj. cbn [table].
  destruct (Z.eq_dec i j) as [<-|Hne].
  - rewrite lookup_insert_eq. eauto.
  - rewrite lookup_insert_ne by exact Hne. exact Hj.
Qed.

Lemma written_write (st : store) (i : Z) (s : slot_t) (n : Z) :
  is_Some (table (Store (<[i := s]> (table st)) n) !! i).
Proof. cbn [table]. rewrite lookup_insert_eq. eauto. Qed.

(** A loop whose body ends well from every table with room ends well. *)
Lemma for_each_ends_well {A : Type} (st0 : store) (l : list Z)
      (body : A -> Z -> M A) :
  (forall a i st, In i l -> store_ok st -> grows st0 st ->
                  ends_well st (body a i st)) ->
  forall a st, store_ok st -> grows st0 st ->
               ends_well st0 (for_each l body a st).
Proof.
  induction l as [|i l IH]; intros Hbody a st Hok Hg.
  - cbn [for_each ret ends_well]. auto.
  - cbn [for_each]. unfold bind.
    pose proof (Hbody a i st (or_introl eq_refl) Hok Hg) as H.
    destruct (body a i st) as [[a' st']| | |]; cbn [ends_well] in H |- *;
      try contradiction; [|exact I].
    destruct H as [Hok' Hg'].
    apply IH; [|exact Hok'|exact (grows_trans _ _ _ Hg Hg')].
    intros a0 j st1 Hj. apply Hbody. right. exact Hj.
Qed.

Lemma ends_well_weaken {A : Type} (st0 st : store) (r : result (A * store)) :
  grows st0 st -> ends_well st r -> ends_well st0 r.
Proof.
  intros Hg. destruct r as [[a st']| | |]; cbn [ends_well]; auto.
  intros [Hok Hg']. split; [exact Hok|exact (grows_trans _ _ _ Hg Hg')].
Qed.

Lemma count_entry_cases (st : store) :
  store_ok st ->
  count_entry st = AssertFail
  \/ (table_len st + 1 < table_size
      /\ count_entry st = Ret (tt, Store (table st) (table_len st + 1))).
Proof.
  intros (Hlen & Hsize & _). unfold count_entry. cbv zeta.
  assert (E : u64 (table_len st + 1) = table_len st + 1).
  { apply u64_small. rewrite table_size_pow in Hlen. lia. }
  rewrite E. destruct (Z.ltb_spec (table_len st + 1) table_size); auto.
Qed.

Lemma eval_ends_well (fuel : nat) :
  forall b m st,
    reachable b m -> store_ok st -> potential b m < Z.of_nat fuel ->
    ends_well st (eval fuel b m st).
Proof.
  induction fuel as [|fuel IH]; intros b m st Hr Hok Hp.
  - pose proof (potential_nonneg b m). lia.
  - rewrite eval_S. cbv zeta.
    destruct (lookup_found st (canonicalize b) Hok) as (i & Hl & Hi & Hh).
    unfold bind at 1. unfold lookup_slot. rewrite Hl.
    unfold bind at 1. unfold read.
    destruct (negb (truthy (getboard (table_at (table st) i))));
      [|cbn [ret ends_well]; split; [exact Hok|apply grows_refl]].
    unfold bind at 1.
    destruct (count_entry_cases st Hok) as [E|[Hn E]]; rewrite E;
      [exact I|].
    unfold bind at 1. unfold write at 1. cbn [table table_len].
    set (st2 := Store (<[i := init (canonicalize b)]> (table st))
                      (table_len st + 1)).
    assert (Hok2 : store_ok st2) by (apply store_ok_write_new; assumption).
    assert (Hg2 : grows st st2) by apply grows_write.
    assert (Hw2 : is_Some (table st2 !! i)) by apply written_write.
    destruct (iscomplete b m) eqn:Ec.
    { unfold bind, write, ret. cbn [ends_well]. split.
      - apply store_ok_write_old; assumption.
      - apply (grows_trans _ _ _ Hg2), grows_write. }
    destruct (reachable_inv b m Hr) as (HI & Ht & H1).
    destruct (nomoves b m) eqn:En.
    { unfold bind at 1.
      assert (Hr' : reachable (pass b) (pass m))
        by (apply reachable_pass; assumption).
      assert (Hp' : potential (pass b) (pass m) < Z.of_nat fuel).
      { destruct HI as (Hb & _).
        pose proof (potential_pass b m Hb En Ec). lia. }
      pose proof (IH _ _ st2 Hr' Hok2 Hp') as HE.
      destruct (eval fuel (pass b) (pass m) st2) as [[s st3]| | |];
        cbn [ends_well] in HE |- *; try contradiction; [|exact I].
      destruct HE as [Hok3 Hg3].
      unfold bind, write, ret. cbn [ends_well]. split.
      - apply store_ok_write_old; [exact Hok3|apply Hg3, Hw2].
      - apply (grows_trans _ _ _ Hg2), (grows_trans _ _ _ Hg3), grows_write. }
    unfold bind at 1.
    match goal with
    | |- ends_well _ (match for_each cells ?body ?a st2 with _ => _ end) =>
        assert (HL : ends_well st2 (for_each cells body a st2))
    end.
    { apply for_each_ends_well; [|exact Hok2|apply grows_refl].
      intros a j st3 Hj Hok3 Hg3. apply in_cells in Hj.
      destruct (valid m j) eqn:Ev;
        [|cbn [ret ends_well]; split; [exact Hok3|apply grows_refl]].
      unfold bind.
      assert (Hr' : reachable (place b j) (mask m j))
        by (apply reachable_place; assumption).
      assert (Hp' : potential (place b j) (mask m j) < Z.of_nat fuel).
      { destruct (valid_playable b m j Hr Hj Ev) as (_ & _ & Hf).
        destruct HI as (Hb & _).
        pose proof (potential_place b m j Hb Hj Hf En). lia. }
      pose proof (IH _ _ st3 Hr' Hok3 Hp') as HE.
      destruct (eval fuel (place b j) (mask m j) st3) as [[s st4]| | |];
        cbn [ends_well] in HE |- *; try contradiction; [|exact I].
      cbn [ret ends_well]. exact HE. }
    match goal with
    | |- ends_well _ (match ?r with _ => _ end) => destruct r as [[s st3]| | |]
    end; cbn [ends_well] in HL |- *; try contradiction; [|exact I].
    destruct HL as [Hok3 Hg3].
    unfold bind, write, ret. cbn [ends_well]. split.
    + apply store_ok_write_old; [exact Hok3|apply Hg3, Hw2].
    + apply (grows_trans _ _ _ Hg2), (grows_trans _ _ _ Hg3), grows_write.
Qed.

(** [suggest] ends under the same conditions, for any fuel that lets its
    calls of [eval] end. *)
Lemma suggest_ends_well (fuel : nat) (b m : Z) (st : store) :
  reachable b m -> store_ok st -> potential b m <= Z.of_nat fuel ->
  ends_well st (suggest fuel b m st).
Proof.
  intros Hr Hok Hp. unfold suggest. unfold bind at 1.
  destruct (reachable_inv b m Hr) as (HI & Ht & H1).
  match goal with
  | |- ends_well _ (match for_each cells ?body ?a st with _ => _ end) =>
      assert (HL : ends_well st (for_each cells body a st))
  end.
  { apply for_each_ends_well; [|exact Hok|apply grows_refl].
    intros [best moves] j st3 Hj Hok3 Hg3. apply in_cells in Hj.
    destruct (valid m j) eqn:Ev;
      [|cbn [ret ends_well]; split; [exact Hok3|apply grows_refl]].
    unfold bind.
    destruct (valid_playable b m j Hr Hj Ev) as (Ec & En & Hf).
    assert (Hr' : reachable (place b j) (mask m j))
      by (apply reachable_place; assumption).
    assert (Hp' : potential (place b j) (mask m j) < Z.of_nat fuel).
    { destruct HI as (Hb & _).
      pose proof (potential_place b m j Hb Hj Hf En). lia. }
    pose proof (eval_ends_well fuel _ _ st3 Hr' Hok3 Hp') as HE.
    destruct (eval fuel (place b j) (mask m j) st3) as [[s st4]| | |];
      cbn [ends_well] in HE |- *; try contradiction; [|exact I].
    destruct (compare best (setboard s b) >? 0);
      [|destruct (compare best (setboard s b) =? 0)];
      cbn [ret ends_well]; exact HE. }
  match goal with
  | |- ends_well _ (match ?r with _ => _ end) => destruct r as [[s st3]| | |]
  end; cbn [ends_well] in HL |- *; try contradiction; [|exact I].
  cbn [ret ends_well]. exact HL.
Qed.

End Termination.


Lemma store_ok_empty {strat : Strategy} : store_ok empty_store.
Proof.
  split; [reflexivity|]. split; [cbn [empty_store table table_len];
                                 rewrite map_size_empty; reflexivity|].
  intros i [s Hs]. cbn [empty_store table] in Hs.
  rewrite lookup_empty in Hs. discriminate.
Qed.

Lemma ends_well_terminates {strat : Strategy} {A : Type} (st : store)
      (r : result (A * store)) :
  ends_well st r -> terminates r.
Proof. destruct r as [[a st']| | |]; cbn [ends_well terminates]; auto. Qed.

Lemma reachable_potential (b m : Z) : reachable b m -> potential b m <= 50.
Proof.
  intros H. destruct (reachable_bound b m H) as (n & _ & HB).
  revert HB. generalize (potential b m). intros; lia.
Qed.

(** C8. For every position and mask reachable by legal play from
    [(INIT, INIT)], and from every table with room (one where [table_len]
    counts the written slots and is below the size of the table), [eval]
    and [suggest] end with any recursion fuel of 51 or more, by a return or
    by the failed assertion on the size of the table: the probe loop of
    [lookup] ends, and the recursion is bounded because each child has a
    turn field one higher, which never exceeds 51.  This holds in both
    variants. *)
Theorem eval_suggest_terminate (b m : Z) :
  reachable b m ->
  1 <= tfield b <= 51
  /\ (forall (st : @store Tally.strategy) (fuel : nat),
         store_ok st -> 51 <= Z.of_nat fuel ->
         terminates (eval fuel b m st) /\ terminates (suggest fuel b m st))
  /\ (forall (st : @store Minimax.strategy) (fuel : nat),
         store_ok st -> 51 <= Z.of_nat fuel ->
         terminates (eval fuel b m st) /\ terminates (suggest fuel b m st)).
Proof.
  intros Hr. pose proof (reachable_potential b m Hr) as Hp.
  split; [apply (reachable_inv b m Hr)|].
  split; intros st fuel Hok Hf; split.
  - apply (ends_well_terminates st).
    apply (eval_ends_well (laws := tally_laws)); [assumption..|lia].
  - apply (ends_well_terminates st).
    apply (suggest_ends_well (laws := tally_laws)); [assumption..|lia].
  - apply (ends_well_terminates st).
    apply (eval_ends_well (laws := minimax_laws)); [assumption..|lia].
  - apply (ends_well_terminates st).
    apply (suggest_ends_well (laws := minimax_laws)); [assumption..|lia].
Qed.

Lemma eval_suggest_terminate_witness :
  terminates (@eval Minimax.strategy 51 INIT INIT empty_store).
Proof.
  refine (proj1 (proj2 (proj2 (eval_suggest_terminate INIT INIT
                                 reachable_init))
                       empty_store 51%nat store_ok_empty _)).
  vm_compute. discriminate.
Defined.


(** ** The rules are symmetric *)

Lemma gen_facts_hold (g : gen) : gen_facts g = true.
Proof. destruct g; vm_compute; reflexivity. Qed.

Lemma gen_cell (g : gen) (n : Z) :
  0 <= n < 25 ->
  0 <= gen_perm g n < 25
  /\ gen_perm g (gen_perm g n) = n
  /\ gen_perm g (25 + n) = 25 + gen_perm g n
  /\ (gen_perm g n = 12 <-> n = 12).
Proof.
  intros Hn. pose proof (gen_facts_hold g) as H. unfold gen_facts in H.
  apply andb_true_iff in H. destruct H as [H _].
  rewrite forallb_forall in H. specialize (H n (proj2 (in_cells n) Hn)).
  repeat (apply andb_true_iff in H; destruct H as [H ?]).
  repeat match goal with
         | H : (_ <=? _) = true |- _ => apply Z.leb_le in H
         | H : (_ <? _) = true |- _ => apply Z.ltb_lt in H
         | H : (_ =? _) = true |- _ => apply Z.eqb_eq in H
         end.
  repeat split; try assumption; try lia.
Qed.

Lemma gen_blocks (g : gen) (i n : Z) :
  0 <= i < 25 -> 0 <= n < 25 ->
  Z.testbit (blocks_at (gen_perm g i)) (gen_perm g n)
  = Z.testbit (blocks_at i) n.
Proof.
  intros Hi Hn. pose proof (gen_facts_hold g) as H. unfold gen_facts in H.
  apply andb_true_iff in H. destruct H as [H _].
  rewrite forallb_forall in H. specialize (H n (proj2 (in_cells n) Hn)).
  apply andb_true_iff in H. destruct H as [_ H].
  rewrite forallb_forall in H. specialize (H i (proj2 (in_cells i) Hi)).
  apply eqb_prop in H. exact H.
Qed.

Lemma gen_turn_bits (g : gen) (n : Z) : 50 <= n < 56 -> gen_perm g n = n.
Proof.
  intros Hn. pose proof (gen_facts_hold g) as H. unfold gen_facts in H.
  apply andb_true_iff in H. destruct H as [_ H].
  rewrite forallb_forall in H. apply Z.eqb_eq, H. cbn [In]. lia.
Qed.

Lemma board_u64 (b : Z) : is_board b -> is_u64 b.
Proof. unfold is_board, is_u64. lia. Qed.

Lemma tfield_gen (g : gen) (b : Z) :
  is_board b -> tfield (gen_act g b) = tfield b.
Proof.
  intros Hb. unfold tfield. apply Z.bits_inj'; intros k Hk.
  rewrite !Z.shiftr_spec by lia.
  destruct (Z.lt_ge_cases (k + 50) 56) as [Hlt|Hge].
  - rewrite gen_act_spec by lia. rewrite gen_turn_bits by lia. reflexivity.
  - assert (E1 : Z.testbit (gen_act g b) (k + 50) = false)
      by (apply (testbit_above _ 56); [apply gen_act_board|lia]).
    assert (E2 : Z.testbit b (k + 50) = false)
      by (apply (testbit_above _ 56); [apply Hb|lia]).
    rewrite E1, E2. reflexivity.
Qed.

Lemma testbit_gen_A (g : gen) (b n : Z) :
  0 <= n < 25 -> Z.testbit (gen_act g b) n = Z.testbit b (gen_perm g n).
Proof. intros Hn. apply gen_act_spec. lia. Qed.

Lemma testbit_gen_B (g : gen) (b n : Z) :
  0 <= n < 25 ->
  Z.testbit (gen_act g b) (25 + n) = Z.testbit b (25 + gen_perm g n).
Proof.
  intros Hn. rewrite gen_act_spec by lia.
  destruct (gen_cell g n Hn) as (_ & _ & -> & _). reflexivity.
Qed.

(** A bit of one of the two planes, by plane [w] and cell [j]. *)
Lemma testbit_gen_plane (g : gen) (b w j : Z) :
  w = 0 \/ w = 1 -> 0 <= j < 25 ->
  Z.testbit (gen_act g b) (w * 25 + j)
  = Z.testbit b (w * 25 + gen_perm g j).
Proof.
  intros [-> | ->] Hj.
  - replace (0 * 25 + j) with j by lia.
    replace (0 * 25 + gen_perm g j) with (gen_perm g j) by lia.
    apply testbit_gen_A, Hj.
  - replace (1 * 25 + j) with (25 + j) by lia.
    replace (1 * 25 + gen_perm g j) with (25 + gen_perm g j) by lia.
    apply testbit_gen_B, Hj.
Qed.

Lemma low_bit_plane (n : Z) :
  0 <= n < 50 -> exists w j, (w = 0 \/ w = 1) /\ 0 <= j < 25 /\ n = w * 25 + j.
Proof.
  intros Hn. destruct (Z.lt_ge_cases n 25).
  - exists 0, n. repeat split; auto; lia.
  - exists 1, (n - 25). repeat split; auto; lia.
Qed.

Lemma build_board (t s : Z) :
  0 <= t < 2 ^ 6 -> 0 <= s < 2 ^ 50 -> is_board (build t s).
Proof.
  intros Ht Hs. unfold build, is_board. apply lor_range; [| |lia].
  - apply (shiftl_range t 6 50); lia.
  - lia.
Qed.

Lemma next_turn_small (t : Z) : 0 <= t < 63 -> next_turn t = t + 1.
Proof. intros Ht. unfold next_turn. apply Z.mod_small. lia. Qed.

Lemma pass_board (b : Z) : is_board b -> tfield b < 63 -> is_board (pass b).
Proof.
  intros Hb Ht. pose proof (tfield_range b (board_u64 b Hb)) as Hr.
  rewrite pass_build. apply build_board; [|apply state_range].
  rewrite next_turn_small; lia.
Qed.

Lemma place_board (b i : Z) :
  is_board b -> tfield b < 63 -> 0 <= i < 25 -> is_board (place b i).
Proof.
  intros Hb Ht Hi. pose proof (tfield_range b (board_u64 b Hb)) as Hr.
  rewrite place_build by (try apply board_u64; assumption).
  apply build_board; [|apply place_state_range; try apply board_u64; assumption].
  rewrite next_turn_small; lia.
Qed.

Lemma mask_board (m i : Z) :
  is_board m -> tfield m < 63 -> 0 <= i < 25 -> is_board (mask m i).
Proof.
  intros Hb Ht Hi. pose proof (tfield_range m (board_u64 m Hb)) as Hr.
  rewrite mask_build by (try apply board_u64; assumption).
  apply build_board; [|apply mask_state_range; try apply board_u64; assumption].
  rewrite next_turn_small; lia.
Qed.


Lemma gen_perm_inj (g : gen) (i j : Z) :
  0 <= i < 25 -> 0 <= j < 25 -> gen_perm g i = gen_perm g j -> i = j.
Proof.
  intros Hi Hj E.
  destruct (gen_cell g i Hi) as (_ & Ei & _).
  destruct (gen_cell g j Hj) as (_ & Ej & _). congruence.
Qed.

Lemma gen_pass (g : gen) (b : Z) :
  is_board b -> tfield b < 63 -> pass (gen_act g b) = gen_act g (pass b).
Proof.
  intros Hb Ht.
  apply u64_eq_fields.
  - apply pass_u64.
  - apply board_u64, gen_act_board.
  - rewrite tfield_pass, tfield_gen by exact Hb.
    rewrite tfield_gen by (apply pass_board; assumption).
    rewrite tfield_pass. reflexivity.
  - intros n Hn. rewrite testbit_pass by lia.
    rewrite !gen_act_spec by lia.
    destruct (low_bit_plane n Hn) as (w & j & Hw & Hj & ->).
    destruct (gen_cell g j Hj) as (Hr & _ & E25 & _).
    assert (E : gen_perm g (w * 25 + j) = w * 25 + gen_perm g j).
    { destruct Hw as [-> | ->];
        [replace (0 * 25 + j) with j by lia; lia
        |replace (1 * 25 + j) with (25 + j) by lia; lia]. }
    rewrite E. rewrite testbit_pass by (destruct Hw as [-> | ->]; lia).
    reflexivity.
Qed.

Lemma gen_perm_plane (g : gen) (w j : Z) :
  w = 0 \/ w = 1 -> 0 <= j < 25 ->
  gen_perm g (w * 25 + j) = w * 25 + gen_perm g j.
Proof.
  intros Hw Hj. destruct (gen_cell g j Hj) as (Hr & _ & E25 & _).
  destruct Hw as [-> | ->];
    [replace (0 * 25 + j) with j by lia; lia
    |replace (1 * 25 + j) with (25 + j) by lia; lia].
Qed.

Lemma gen_place (g : gen) (b i : Z) :
  is_board b -> tfield b < 63 -> 0 <= i < 25 ->
  place (gen_act g b) i = gen_act g (place b (gen_perm g i)).
Proof.
  intros Hb Ht Hi.
  destruct (gen_cell g i Hi) as (Hri & _).
  pose proof (tfield_range b (board_u64 b Hb)) as Htr.
  assert (Hw : who_of (tfield b) = 0 \/ who_of (tfield b) = 1)
    by (apply who_of_cases; lia).
  apply u64_eq_fields.
  - apply place_u64; [apply board_u64, gen_act_board|exact Hi].
  - apply board_u64, gen_act_board.
  - rewrite tfield_place by (try apply board_u64, gen_act_board; assumption).
    rewrite tfield_gen by exact Hb.
    rewrite tfield_gen by (apply place_board; assumption).
    rewrite tfield_place by (try apply board_u64; assumption). reflexivity.
  - intros n Hn.
    rewrite testbit_place by (try apply board_u64, gen_act_board; assumption).
    rewrite tfield_gen by exact Hb.
    rewrite !gen_act_spec by lia.
    destruct (low_bit_plane n Hn) as (w & j & Hw2 & Hj & ->).
    destruct (gen_cell g j Hj) as (Hrj & _).
    rewrite (gen_perm_plane g w j Hw2 Hj).
    rewrite testbit_place
      by (try apply board_u64; try assumption; destruct Hw2 as [-> | ->]; lia).
    f_equal.
    destruct (Z.eqb_spec (who_of (tfield b) * 25 + i) (w * 25 + j)) as [E|E];
      destruct (Z.eqb_spec (who_of (tfield b) * 25 + gen_perm g i)
                           (w * 25 + gen_perm g j)) as [E'|E'];
      try reflexivity; exfalso.
    + apply E'. assert (i = j) by (destruct Hw as [W|W], Hw2 as [W2|W2];
                                   rewrite W, W2 in E; lia).
      subst j. assert (who_of (tfield b) = w)
        by (destruct Hw as [W|W], Hw2 as [W2|W2]; rewrite W, W2 in E; lia).
      congruence.
    + apply E.
      assert (Hww : who_of (tfield b) = w)
        by (destruct Hw as [W|W], Hw2 as [W2|W2]; rewrite W, W2 in E'; lia).
      assert (gen_perm g i = gen_perm g j) by (rewrite Hww in E'; lia).
      rewrite (gen_perm_inj g i j Hi Hj) by assumption. congruence.
Qed.

Lemma gen_mask (g : gen) (m i : Z) :
  is_board m -> tfield m < 63 -> 0 <= i < 25 ->
  mask (gen_act g m) i = gen_act g (mask m (gen_perm g i)).
Proof.
  intros Hb Ht Hi.
  destruct (gen_cell g i Hi) as (Hri & _).
  pose proof (tfield_range m (board_u64 m Hb)) as Htr.
  assert (Hw : who_of (tfield m) = 0 \/ who_of (tfield m) = 1)
    by (apply who_of_cases; lia).
  apply u64_eq_fields.
  - apply mask_u64; [apply board_u64, gen_act_board|exact Hi].
  - apply board_u64, gen_act_board.
  - rewrite tfield_mask by (try apply board_u64, gen_act_board; assumption).
    rewrite tfield_gen by exact Hb.
    rewrite tfield_gen by (apply mask_board; assumption).
    rewrite tfield_mask by (try apply board_u64; assumption). reflexivity.
  - intros n Hn.
    rewrite testbit_mask by (try apply board_u64, gen_act_board; assumption).
    rewrite tfield_gen by exact Hb.
    rewrite !gen_act_spec by lia.
    destruct (low_bit_plane n Hn) as (w & j & Hw2 & Hj & ->).
    destruct (gen_cell g j Hj) as (Hrj & _).
    rewrite (gen_perm_plane g w j Hw2 Hj).
    rewrite testbit_mask
      by (try apply board_u64; try assumption; destruct Hw2 as [-> | ->]; lia).
    f_equal; [f_equal|].
    + destruct Hw as [W|W], Hw2 as [W2|W2]; rewrite W, W2.
      * replace (0 * 25 + j - (1 - 0) * 25) with (j - 25) by lia.
        replace (0 * 25 + gen_perm g j - (1 - 0) * 25)
          with (gen_perm g j - 25) by lia.
        rewrite !Z.testbit_neg_r by lia. reflexivity.
      * replace (1 * 25 + j - (1 - 0) * 25) with j by lia.
        replace (1 * 25 + gen_perm g j - (1 - 0) * 25)
          with (gen_perm g j) by lia.
        symmetry. apply gen_blocks; assumption.
      * replace (0 * 25 + j - (1 - 1) * 25) with j by lia.
        replace (0 * 25 + gen_perm g j - (1 - 1) * 25)
          with (gen_perm g j) by lia.
        symmetry. apply gen_blocks; assumption.
      * rewrite !blocks_high by lia. reflexivity.
    + destruct (Z.eqb_spec (who_of (tfield m) * 25 + i) (w * 25 + j)) as [E|E];
        destruct (Z.eqb_spec (who_of (tfield m) * 25 + gen_perm g i)
                             (w * 25 + gen_perm g j)) as [E'|E'];
        try reflexivity; exfalso.
      * apply E'. assert (i = j) by (destruct Hw as [W|W], Hw2 as [W2|W2];
                                     rewrite W, W2 in E; lia).
        subst j. assert (who_of (tfield m) = w)
          by (destruct Hw as [W|W], Hw2 as [W2|W2]; rewrite W, W2 in E; lia).
        congruence.
      * apply E.
        assert (Hww : who_of (tfield m) = w)
          by (destruct Hw as [W|W], Hw2 as [W2|W2]; rewrite W, W2 in E'; lia).
        assert (gen_perm g i = gen_perm g j) by (rewrite Hww in E'; lia).
        rewrite (gen_perm_inj g i j Hi Hj) by assumption. congruence.
Qed.

Lemma gen_valid (g : gen) (m i : Z) :
  is_board m -> 0 <= i < 25 ->
  valid (gen_act g m) i = valid m (gen_perm g i).
Proof.
  intros Hb Hi. destruct (gen_cell g i Hi) as (Hri & _ & _ & H12).
  pose proof (tfield_range m (board_u64 m Hb)) as Htr.
  assert (Hw : who_of (tfield m) = 0 \/ who_of (tfield m) = 1)
    by (apply who_of_cases; lia).
  rewrite !valid_spec
    by (try apply board_u64; try apply gen_act_board; assumption).
  rewrite tfield_gen by exact Hb.
  destruct (tfield m =? 1).
  - f_equal. destruct (Z.eqb_spec i 12) as [E|E];
      destruct (Z.eqb_spec (gen_perm g i) 12) as [E'|E']; try reflexivity;
      exfalso; tauto.
  - rewrite testbit_gen_plane by assumption. reflexivity.
Qed.

Lemma gen_plane_full (g : gen) (b m w : Z) :
  w = 0 \/ w = 1 ->
  (forall j, 0 <= j < 25 ->
     Z.testbit (gen_act g b) (w * 25 + j) = true
     \/ Z.testbit (gen_act g m) (w * 25 + j) = true)
  <-> (forall j, 0 <= j < 25 ->
         Z.testbit b (w * 25 + j) = true \/ Z.testbit m (w * 25 + j) = true).
Proof.
  intros Hw. split; intros H j Hj.
  - destruct (gen_cell g j Hj) as (Hr & Einv & _).
    specialize (H (gen_perm g j) Hr).
    rewrite !testbit_gen_plane in H by assumption. rewrite Einv in H. exact H.
  - destruct (gen_cell g j Hj) as (Hr & _).
    rewrite !testbit_gen_plane by assumption. apply H, Hr.
Qed.

Lemma gen_nomoves (g : gen) (b m : Z) :
  is_board b -> nomoves (gen_act g b) (gen_act g m) = nomoves b m.
Proof.
  intros Hb. pose proof (tfield_range b (board_u64 b Hb)) as Htr.
  assert (Hw : who_of (tfield b) = 0 \/ who_of (tfield b) = 1)
    by (apply who_of_cases; lia).
  apply eq_true_iff_eq.
  rewrite !nomoves_spec by (try apply board_u64; try apply gen_act_board;
                            assumption).
  rewrite tfield_gen by exact Hb. apply gen_plane_full, Hw.
Qed.

Lemma gen_iscomplete (g : gen) (b m : Z) :
  iscomplete (gen_act g b) (gen_act g m) = iscomplete b m.
Proof.
  apply eq_true_iff_eq. rewrite !iscomplete_spec.
  pose proof (gen_plane_full g b m 0 (or_introl eq_refl)) as H0.
  pose proof (gen_plane_full g b m 1 (or_intror eq_refl)) as H1.
  split; intros H.
  - assert (HA : forall j, 0 <= j < 25 ->
               Z.testbit b (0 * 25 + j) = true
               \/ Z.testbit m (0 * 25 + j) = true).
    { apply H0. intros j Hj. replace (0 * 25 + j) with j by lia.
      apply (H j Hj). }
    assert (HB : forall j, 0 <= j < 25 ->
               Z.testbit b (1 * 25 + j) = true
               \/ Z.testbit m (1 * 25 + j) = true).
    { apply H1. intros j Hj. replace (1 * 25 + j) with (25 + j) by lia.
      apply (H j Hj). }
    intros j Hj. specialize (HA j Hj). specialize (HB j Hj).
    replace (0 * 25 + j) with j in HA by lia.
    replace (1 * 25 + j) with (25 + j) in HB by lia. auto.
  - assert (HA : forall j, 0 <= j < 25 ->
               Z.testbit (gen_act g b) (0 * 25 + j) = true
               \/ Z.testbit (gen_act g m) (0 * 25 + j) = true).
    { apply H0. intros j Hj. replace (0 * 25 + j) with j by lia.
      apply (H j Hj). }
    assert (HB : forall j, 0 <= j < 25 ->
               Z.testbit (gen_act g b) (1 * 25 + j) = true
               \/ Z.testbit (gen_act g m) (1 * 25 + j) = true).
    { apply H1. intros j Hj. replace (1 * 25 + j) with (25 + j) by lia.
      apply (H j Hj). }
    intros j Hj. specialize (HA j Hj). specialize (HB j Hj).
    replace (0 * 25 + j) with j in HA by lia.
    replace (1 * 25 + j) with (25 + j) in HB by lia. auto.
Qed.


(** ** The game is symmetric *)

Lemma board_of_tfield (b : Z) : is_u64 b -> tfield b < 64 -> is_board b.
Proof.
  intros Hb Ht. unfold is_board. split; [apply Hb|].
  unfold tfield in Ht. rewrite Z.shiftr_div_pow2 in Ht by lia.
  pose proof (Z.div_mod b (2 ^ 50) ltac:(lia)) as E.
  pose proof (Z.mod_pos_bound b (2 ^ 50) ltac:(lia)) as Hm.
  lia.
Qed.

Lemma reachable_boards (b m : Z) :
  reachable b m ->
  is_board b /\ is_board m /\ tfield b = tfield m /\ 1 <= tfield b <= 51.
Proof.
  intros H. destruct (reachable_inv b m H) as ((Hb & Hm & Ht & _) & Hr & _).
  split; [apply board_of_tfield; [exact Hb|lia]|].
  split; [apply board_of_tfield; [exact Hm|lia]|]. auto.
Qed.

Lemma gen_INIT (g : gen) : gen_act g INIT = INIT.
Proof. destruct g; vm_compute; reflexivity. Qed.

Lemma reachable_gen (g : gen) (b m : Z) :
  reachable b m -> reachable (gen_act g b) (gen_act g m).
Proof.
  induction 1 as [|b m H IH Hc Hn|b m i H IH Hc Hn Hi Hv].
  - rewrite gen_INIT. apply reachable_init.
  - destruct (reachable_boards b m H) as (Hb & Hm & Ht & Hr).
    rewrite <- !gen_pass by (try assumption; lia).
    apply reachable_pass; [exact IH| |].
    + rewrite gen_iscomplete. exact Hc.
    + rewrite gen_nomoves by exact Hb. exact Hn.
  - destruct (reachable_boards b m H) as (Hb & Hm & Ht & Hr).
    destruct (gen_cell g i Hi) as (Hri & Einv & _).
    rewrite <- Einv at 1 2.
    rewrite <- gen_place, <- gen_mask by (try assumption; lia).
    apply reachable_place; try assumption.
    + rewrite gen_iscomplete. exact Hc.
    + rewrite gen_nomoves by exact Hb. exact Hn.
    + rewrite gen_valid by assumption. rewrite Einv. exact Hv.
Qed.

Lemma reachable_act (w : list gen) (b m : Z) :
  reachable b m -> reachable (act w b) (act w m).
Proof.
  intros H. induction w as [|g w IH]; [exact H|].
  cbn [act]. apply reachable_gen, IH.
Qed.

(** The mask of a reachable position is determined by the position. *)
Lemma reachable_mask_unique (b m m' : Z) :
  reachable b m -> reachable b m' -> m = m'.
Proof.
  intros H H'.
  destruct (reachable_bound b m H) as (n & HL & _).
  destruct (reachable_bound b m' H') as (n' & HL' & _).
  destruct (reachable_boards b m H) as (_ & Hm & Ht & _).
  destruct (reachable_boards b m' H') as (_ & Hm' & Ht' & _).
  apply u64_eq_fields; [apply board_u64, Hm|apply board_u64, Hm'|congruence|].
  apply (mask_of_pieces_bits (pieces_A b) (pieces_B b)).
  - apply (lockstep_mask n), legal_lockstep, HL.
  - apply (lockstep_mask n'), legal_lockstep, HL'.
Qed.

Lemma canonicalize_word (b : Z) :
  exists w, In w sym_words /\ canonicalize b = act w b.
Proof.
  pose proof (canonicalize_in_orbit b) as H. rewrite orbit_words in H.
  apply in_map_iff in H. destruct H as (w & E & Hw). eauto.
Qed.

Lemma gen_involution (g : gen) (b : Z) :
  is_board b -> gen_act g (gen_act g b) = b.
Proof.
  intros Hb. change (gen_act g (gen_act g b)) with (act [g; g] b).
  change b with (act [] b) at 2.
  apply act_same_perm; [exact Hb|]. destruct g; vm_compute; reflexivity.
Qed.

Lemma act_rev (w : list gen) (b : Z) :
  is_board b -> act (rev w) (act w b) = b.
Proof.
  revert b. induction w as [|g w IH]; intros b Hb; [reflexivity|].
  cbn [rev act]. rewrite act_app. cbn [act].
  rewrite gen_involution by (apply act_board, Hb). apply IH, Hb.
Qed.

(** Two reachable positions with the same canonical form are images of
    one another, masks included. *)
Lemma same_canonical (b m b' m' : Z) :
  reachable b m -> reachable b' m' -> canonicalize b = canonicalize b' ->
  exists w, b' = act w b /\ m' = act w m.
Proof.
  intros H H' E.
  destruct (reachable_boards b m H) as (Hb & _).
  destruct (reachable_boards b' m' H') as (Hb' & _).
  destruct (canonicalize_word b) as (w1 & _ & E1).
  destruct (canonicalize_word b') as (w2 & _ & E2).
  exists (rev w2 ++ w1).
  assert (Eb : b' = act (rev w2 ++ w1) b).
  { rewrite act_app, <- E1, E, E2. symmetry. apply act_rev, Hb'. }
  split; [exact Eb|].
  apply (reachable_mask_unique b'); [exact H'|].
  rewrite Eb. apply reachable_act, H.
Qed.

Lemma tfield_act (w : list gen) (b : Z) :
  is_board b -> tfield (act w b) = tfield b.
Proof.
  intros Hb. induction w as [|g w IH]; [reflexivity|].
  cbn [act]. rewrite tfield_gen by (apply act_board, Hb). exact IH.
Qed.

Lemma canonicalize_board (b : Z) : is_board b -> is_board (canonicalize b).
Proof.
  intros Hb. destruct (canonicalize_word b) as (w & _ & ->).
  apply act_board, Hb.
Qed.

Lemma tfield_canonicalize (b : Z) :
  is_board b -> tfield (canonicalize b) = tfield b.
Proof.
  intros Hb. destruct (canonicalize_word b) as (w & _ & ->).
  apply tfield_act, Hb.
Qed.

Lemma flipv_word :
  same_perm [GF] [GT; GF; GT; GF; GT; GF; GT] = true.
Proof. vm_compute. reflexivity. Qed.

Lemma canonicalize_gen (g : gen) (b : Z) :
  is_board b -> canonicalize (gen_act g b) = canonicalize b.
Proof.
  intros Hb. change (gen_act g b) with (act [g] b). destruct g.
  - apply canonicalize_act; [exact Hb|].
    cbv [sym_words In]. right. left. reflexivity.
  - rewrite (act_same_perm _ _ b Hb flipv_word).
    apply canonicalize_act; [exact Hb|].
    cbv [sym_words In]. do 7 right. left. reflexivity.
Qed.


(** ** The value of a position *)

Lemma fold_left_map_arg {A B C : Type} (f : A -> C -> A) (h : B -> C)
      (l : list B) (a : A) :
  fold_left (fun s i => f s (h i)) l a = fold_left f (map h l) a.
Proof. revert a. induction l as [|x l IH]; intros a; simpl; auto. Qed.

Lemma fold_left_ext_in {A B : Type} (f f' : A -> B -> A) (l : list B) :
  (forall a x, In x l -> f a x = f' a x) ->
  forall a, fold_left f l a = fold_left f' l a.
Proof.
  induction l as [|x l IH]; intros H a; simpl; [reflexivity|].
  rewrite H by (left; reflexivity). apply IH.
  intros a0 y Hy. apply H. right. exact Hy.
Qed.

Lemma fold_left_invariant {A B : Type} (f : A -> B -> A) (I : A -> Prop)
      (l : list B) :
  (forall a x, In x l -> I a -> I (f a x)) ->
  forall a, I a -> I (fold_left f l a).
Proof.
  induction l as [|x l IH]; intros H a Ha; simpl; [exact Ha|].
  apply IH; [intros a0 y Hy; apply H; right; exact Hy|].
  apply H; [left; reflexivity|exact Ha].
Qed.

Lemma cells_perm (g : gen) : Permutation (map (gen_perm g) cells) cells.
Proof.
  apply Stdlib.Sorting.Permutation.NoDup_Permutation.
  - assert (H : forall l, List.NoDup l -> (forall x, In x l -> 0 <= x < 25) ->
                          List.NoDup (map (gen_perm g) l)).
    { induction 1 as [|x l Hx HN IH]; intros Hr; simpl; constructor.
      - rewrite in_map_iff. intros (y & E & Hy).
        apply gen_perm_inj in E; [subst y; contradiction| |];
          apply Hr; [right; exact Hy|left; reflexivity].
      - apply IH. intros y Hy. apply Hr. right. exact Hy. }
    apply H; [apply NoDup_cells|]. intros x Hx. apply in_cells, Hx.
  - apply NoDup_cells.
  - intros x. rewrite in_map_iff. split.
    + intros (y & <- & Hy). apply in_cells in Hy. apply in_cells.
      apply (gen_cell g y Hy).
    + intros Hx. apply in_cells in Hx.
      destruct (gen_cell g x Hx) as (Hr & Einv & _).
      exists (gen_perm g x). split; [exact Einv|apply in_cells, Hr].
Qed.

Section Value.

Context {strat : Strategy} {ok : slot_t -> Prop}.
Context {laws : StrategyLaws strat ok}.

Lemma eval_spec_eq (fuel : nat) (b m : Z) :
  eval_spec fuel b m
  = if iscomplete b m then score (canonicalize b)
    else match fuel with
         | O => init (canonicalize b)
         | S fuel' =>
             if nomoves b m
             then setboard (eval_spec fuel' (pass b) (pass m))
                           (canonicalize b)
             else children_fold b m
                    (fun i => eval_spec fuel' (place b i) (mask m i))
         end.
Proof. destruct fuel; reflexivity. Qed.

Lemma children_fold_labelled (b m : Z) (r : Z -> slot_t) :
  is_board b ->
  (forall i, 0 <= i < 25 -> valid m i = true -> ok (r i)) ->
  labelled ok (canonicalize b) (children_fold b m r).
Proof.
  intros Hb Hr. pose proof (canonicalize_board b Hb) as Hb0.
  unfold children_fold. apply fold_left_invariant.
  - intros a i Hi [Ha La]. apply in_cells in Hi.
    destruct (valid m i) eqn:Ev; [|split; assumption].
    destruct (setboard_law (r i) (canonicalize b) (Hr i Hi Ev) Hb0)
      as [Hs Ls].
    assert (Ll : getboard (setboard (r i) (canonicalize b)) = getboard a)
      by congruence.
    destruct (combine_law a _ Ha Hs Ll) as [Hc Lc].
    split; [exact Hc|congruence].
  - apply init_law, Hb0.
Qed.

Lemma eval_spec_labelled (fuel : nat) :
  forall b m,
    is_board b -> is_board m -> tfield b = tfield m ->
    tfield b + Z.of_nat fuel <= 63 ->
    labelled ok (canonicalize b) (eval_spec fuel b m).
Proof.
  induction fuel as [|fuel IH]; intros b m Hb Hm Ht Hf;
    pose proof (canonicalize_board b Hb) as Hb0;
    rewrite eval_spec_eq; destruct (iscomplete b m);
    try (apply score_law, Hb0).
  - apply init_law, Hb0.
  - pose proof (tfield_range b (board_u64 b Hb)) as Hr.
    destruct (nomoves b m).
    + apply setboard_law; [|exact Hb0].
      apply IH; try (apply pass_board; try assumption; lia).
      * rewrite !tfield_pass. congruence.
      * rewrite tfield_pass, next_turn_small by lia. lia.
    + apply children_fold_labelled; [exact Hb|].
      intros i Hi _.
      apply IH; try (apply place_board || apply mask_board;
                     try assumption; lia).
      * rewrite tfield_place, tfield_mask
          by (try apply board_u64; assumption). congruence.
      * rewrite tfield_place by (try apply board_u64; assumption).
        rewrite next_turn_small by lia. lia.
Qed.

(** The fold over the children does not depend on their order. *)
Lemma children_step_swap (b0 : Z) (m : Z) (r : Z -> slot_t) (a : slot_t)
      (x y : Z) :
  is_board b0 ->
  (forall i, 0 <= i < 25 -> valid m i = true -> ok (r i)) ->
  labelled ok b0 a -> 0 <= x < 25 -> 0 <= y < 25 ->
  let step := fun s i =>
                if valid m i then combine s (setboard (r i) b0) else s in
  step (step a x) y = step (step a y) x.
Proof.
  intros Hb0 Hr [Ha La] Hx Hy. cbv beta zeta.
  destruct (valid m x) eqn:Ex; destruct (valid m y) eqn:Ey;
    rewrite ?Ex, ?Ey; try reflexivity.
  destruct (setboard_law (r x) b0 (Hr x Hx Ex) Hb0) as [Hsx Lx].
  destruct (setboard_law (r y) b0 (Hr y Hy Ey) Hb0) as [Hsy Ly].
  apply combine_swap_law; congruence.
Qed.

Lemma eval_spec_gen (g : gen) (fuel : nat) :
  forall b m,
    is_board b -> is_board m -> tfield b = tfield m ->
    tfield b + Z.of_nat fuel <= 63 ->
    eval_spec fuel (gen_act g b) (gen_act g m) = eval_spec fuel b m.
Proof.
  induction fuel as [|fuel IH]; intros b m Hb Hm Ht Hf;
    rewrite (eval_spec_eq _ (gen_act g b)), (eval_spec_eq _ b);
    rewrite gen_iscomplete, canonicalize_gen by exact Hb;
    destruct (iscomplete b m); try reflexivity.
  pose proof (tfield_range b (board_u64 b Hb)) as Hr.
  pose proof (canonicalize_board b Hb) as Hb0.
  rewrite gen_nomoves by exact Hb. destruct (nomoves b m).
  - rewrite !gen_pass by (try assumption; lia).
    rewrite IH; try reflexivity; try (apply pass_board; try assumption; lia).
    + rewrite !tfield_pass. congruence.
    + rewrite tfield_pass, next_turn_small by lia. lia.
  - unfold children_fold. rewrite canonicalize_gen by exact Hb.
    set (r := fun i => eval_spec fuel (place b i) (mask m i)).
    set (step := fun s i =>
                   if valid m i
                   then combine s (setboard (r i) (canonicalize b)) else s).
    assert (Hok : forall i, 0 <= i < 25 -> valid m i = true -> ok (r i)).
    { intros i Hi _. subst r. cbv beta.
      apply (eval_spec_labelled fuel);
        try (apply place_board || apply mask_board; try assumption; lia).
      - rewrite tfield_place, tfield_mask
          by (try apply board_u64; assumption). congruence.
      - rewrite tfield_place by (try apply board_u64; assumption).
        rewrite next_turn_small by lia. lia. }
    transitivity (fold_left (fun s i => step s (gen_perm g i)) cells
                            (init (canonicalize b))).
    { apply fold_left_ext_in. intros a i Hi. apply in_cells in Hi.
      destruct (gen_cell g i Hi) as (Hri & _).
      unfold step, r. rewrite gen_valid by assumption.
      rewrite gen_place, gen_mask by (try assumption; lia).
      rewrite IH; try reflexivity;
        try (apply place_board || apply mask_board; try assumption; lia).
      - rewrite tfield_place, tfield_mask
          by (try apply board_u64; assumption). congruence.
      - rewrite tfield_place by (try apply board_u64; assumption).
        rewrite next_turn_small by lia. lia. }
    rewrite fold_left_map_arg.
    apply (fold_left_swap_perm step (labelled ok (canonicalize b))
                               (fun i => 0 <= i < 25)).
    + intros a x Ha Hx. unfold step.
      destruct (valid m x) eqn:Ev; [|exact Ha]. destruct Ha as [Ha La].
      destruct (setboard_law (r x) (canonicalize b) (Hok x Hx Ev) Hb0)
        as [Hs Ls].
      assert (Ll : getboard (setboard (r x) (canonicalize b)) = getboard a)
        by congruence.
      destruct (combine_law a _ Ha Hs Ll) as [Hc Lc].
      split; [exact Hc|congruence].
    + intros a x y Ha Hx Hy.
      apply (children_step_swap (canonicalize b) m r a x y); assumption.
    + apply cells_perm.
    + apply Stdlib.Lists.List.Forall_forall. intros x Hx.
      apply in_map_iff in Hx. destruct Hx as (y & <- & Hy).
      apply in_cells in Hy. apply (gen_cell g y Hy).
    + apply init_law, Hb0.
Qed.

End Value.


Section ValueSymmetry.

Context {strat : Strategy} {ok : slot_t -> Prop}.
Context {laws : StrategyLaws strat ok}.

Lemma eval_value_gen (g : gen) (b m : Z) :
  reachable b m -> eval_value (gen_act g b) (gen_act g m) = eval_value b m.
Proof.
  intros H. destruct (reachable_boards b m H) as (Hb & Hm & Ht & Hr).
  unfold eval_value. rewrite tfield_gen by exact Hb.
  apply eval_spec_gen; try assumption. lia.
Qed.

Lemma eval_value_act (w : list gen) (b m : Z) :
  reachable b m -> eval_value (act w b) (act w m) = eval_value b m.
Proof.
  intros H. induction w as [|g w IH]; [reflexivity|].
  cbn [act]. rewrite eval_value_gen by (apply reachable_act, H). exact IH.
Qed.

(** Positions with the same canonical form have the same value. *)
Lemma eval_value_canonical (b m b' m' : Z) :
  reachable b m -> reachable b' m' -> canonicalize b = canonicalize b' ->
  eval_value b m = eval_value b' m'.
Proof.
  intros H H' E.
  destruct (same_canonical b m b' m' H H' E) as (w & -> & ->).
  symmetry. apply eval_value_act, H.
Qed.

Lemma eval_value_labelled (b m : Z) :
  reachable b m -> labelled ok (canonicalize b) (eval_value b m).
Proof.
  intros H. destruct (reachable_boards b m H) as (Hb & Hm & Ht & Hr).
  unfold eval_value. apply eval_spec_labelled; try assumption. lia.
Qed.

Lemma eval_value_final (b m : Z) :
  reachable b m -> entry_final (eval_value b m).
Proof.
  intros H b' m' H' E.
  destruct (eval_value_labelled b m H) as [_ L]. rewrite L in E.
  apply eval_value_canonical; [exact H|exact H'|congruence].
Qed.

Lemma children_fold_ext (b m : Z) (r r' : Z -> slot_t) :
  (forall i, 0 <= i < 25 -> valid m i = true -> r i = r' i) ->
  children_fold b m r = children_fold b m r'.
Proof.
  intros H. unfold children_fold. apply fold_left_ext_in.
  intros a i Hi. apply in_cells in Hi.
  destruct (valid m i) eqn:Ev; [|reflexivity]. rewrite (H i Hi Ev).
  reflexivity.
Qed.

(** The recursion of the value along the game. *)
Lemma eval_value_eq (b m : Z) :
  reachable b m ->
  eval_value b m
  = if iscomplete b m then score (canonicalize b)
    else if nomoves b m
         then setboard (eval_value (pass b) (pass m)) (canonicalize b)
         else children_fold b m
                (fun i => eval_value (place b i) (mask m i)).
Proof.
  intros H. destruct (reachable_boards b m H) as (Hb & Hm & Ht & Hr).
  unfold eval_value at 1.
  assert (Ef : Z.to_nat (52 - tfield b) = S (Z.to_nat (52 - (tfield b + 1))))
    by lia.
  rewrite Ef, eval_spec_eq.
  destruct (iscomplete b m); [reflexivity|].
  destruct (nomoves b m).
  - unfold eval_value. rewrite tfield_pass, next_turn_small by lia.
    reflexivity.
  - apply children_fold_ext. intros i Hi _. unfold eval_value.
    rewrite tfield_place by (try apply board_u64; assumption).
    rewrite next_turn_small by lia. reflexivity.
Qed.

End ValueSymmetry.


(** ** The evaluator computes the value *)

Section EvalCorrect.

Context {strat : Strategy} {ok : slot_t -> Prop}.
Context {laws : StrategyLaws strat ok}.

Lemma final_from_mono (t t' : Z) (st : store) :
  t <= t' -> final_from t st -> final_from t' st.
Proof. intros Ht H j e Hj He. apply (H j e Hj). lia. Qed.

Lemma evolves_refl (t : Z) (st : store) : evolves t st st.
Proof. intros j. left. reflexivity. Qed.

Lemma evolves_trans (t : Z) (st1 st2 st3 : store) :
  evolves t st1 st2 -> evolves t st2 st3 -> evolves t st1 st3.
Proof.
  intros H12 H23 j. destruct (H23 j) as [E|H]; [|right; exact H].
  rewrite E. apply H12.
Qed.

Lemma evolves_mono (t t' : Z) (st st' : store) :
  t <= t' -> evolves t' st st' -> evolves t st st'.
Proof.
  intros Ht H j. destruct (H j) as [E|(e & E & He & Hf)]; [left; exact E|].
  right. exists e. repeat split; try assumption. lia.
Qed.

Lemma final_from_evolves (t : Z) (st st' : store) :
  final_from t st -> evolves t st st' -> final_from t st'.
Proof.
  intros Hf He j e Hj Ht. destruct (He j) as [E|(e' & E & _ & Hfin)].
  - rewrite E in Hj. apply (Hf j e Hj Ht).
  - rewrite E in Hj. inversion Hj; subst. exact Hfin.
Qed.

(** Writing a final slot of turn [t] at [i], from a table that evolved
    from [st] everywhere. *)
Lemma evolves_write (t : Z) (st st1 : store) (i : Z) (e : slot_t) (n : Z) :
  (forall j, j <> i ->
     table st1 !! j = table st !! j
     \/ exists e', table st1 !! j = Some e'
                   /\ t <= tfield (getboard e') /\ entry_final e') ->
  t <= tfield (getboard e) -> entry_final e ->
  evolves t st (Store (<[i := e]> (table st1)) n).
Proof.
  intros H Ht Hf j. cbn [table]. destruct (Z.eq_dec j i) as [->|Hne].
  - right. exists e. rewrite lookup_insert_eq. auto.
  - rewrite lookup_insert_ne by congruence. apply H, Hne.
Qed.

Lemma count_entry_table (st st1 : store) (u : unit) :
  count_entry st = Ret (u, st1) -> table st1 = table st.
Proof.
  unfold count_entry. cbv zeta.
  destruct (u64 (table_len st + 1) <? table_size); [|discriminate].
  intros H. inversion H. reflexivity.
Qed.

Lemma truthy_board (x : Z) : negb (truthy x) = (x =? 0).
Proof. unfold truthy. apply negb_involutive. Qed.

(** The loop of [eval] over the cells, given that the calls of [eval] on
    the children return their values. *)
Lemma loop_correct (fuel : nat) (b m b0 : Z) :
  (forall j st s st',
      0 <= j < 25 -> valid m j = true ->
      final_from (tfield b + 1) st ->
      eval fuel (place b j) (mask m j) st = Ret (s, st') ->
      s = eval_value (place b j) (mask m j)
      /\ evolves (tfield b + 1) st st') ->
  forall l, (forall i, In i l -> 0 <= i < 25) ->
  forall a st a' st',
    final_from (tfield b + 1) st ->
    for_each l
      (fun s i =>
         if valid m i
         then bind (eval fuel (place b i) (mask m i))
                (fun tmp => ret (combine s (setboard tmp b0)))
         else ret s) a st = Ret (a', st') ->
    a' = fold_left
           (fun s i =>
              if valid m i
              then combine s (setboard (eval_value (place b i) (mask m i))
                                       b0)
              else s) l a
    /\ evolves (tfield b + 1) st st'.
Proof.
  intros Hchild. induction l as [|j l IHl]; intros Hl a st a' st' Hf Hrun.
  - cbn [for_each ret] in Hrun. inversion Hrun; subst.
    split; [reflexivity|apply evolves_refl].
  - cbn [for_each] in Hrun. unfold bind at 1 in Hrun.
    assert (Hj : 0 <= j < 25) by (apply Hl; left; reflexivity).
    cbn [fold_left].
    destruct (valid m j) eqn:Ev.
    + unfold bind at 1 in Hrun.
      destruct (eval fuel (place b j) (mask m j) st) as [[tmp st1]| | |]
        eqn:E1; try discriminate.
      destruct (Hchild j st tmp st1 Hj Ev Hf E1) as [-> Hev1].
      cbn [ret] in Hrun.
      destruct (IHl (fun i Hi => Hl i (or_intror Hi)) _ _ _ _
                    (final_from_evolves _ _ _ Hf Hev1) Hrun) as [-> Hev2].
      split; [reflexivity|exact (evolves_trans _ _ _ _ Hev1 Hev2)].
    + cbn [ret] in Hrun.
      apply (IHl (fun i Hi => Hl i (or_intror Hi)) _ _ _ _ Hf Hrun).
Qed.

Lemma children_correct (fuel : nat) (b m : Z) :
  (forall j st s st',
      0 <= j < 25 -> valid m j = true ->
      final_from (tfield b + 1) st ->
      eval fuel (place b j) (mask m j) st = Ret (s, st') ->
      s = eval_value (place b j) (mask m j)
      /\ evolves (tfield b + 1) st st') ->
  forall st a' st',
    final_from (tfield b + 1) st ->
    for_each cells
      (fun s i =>
         if valid m i
         then bind (eval fuel (place b i) (mask m i))
                (fun tmp => ret (combine s (setboard tmp (canonicalize b))))
         else ret s) (init (canonicalize b)) st = Ret (a', st') ->
    a' = children_fold b m (fun i => eval_value (place b i) (mask m i))
    /\ evolves (tfield b + 1) st st'.
Proof.
  intros Hchild st a' st' Hf Hrun. unfold children_fold.
  apply (loop_correct fuel b m (canonicalize b) Hchild cells
                      (fun i Hi => proj1 (in_cells i) Hi) _ _ _ _ Hf Hrun).
Qed.

(** The first step of [eval]: the slot of the canonical board. *)
Lemma eval_slot (fuel : nat) (b m : Z) (st : store) (i : Z) :
  lookup (table st) (canonicalize b) = Some i ->
  eval (S fuel) b m st
  = let b0 := canonicalize b in
    let cur := table_at (table st) i in
    if getboard cur =? 0 then
      bind count_entry (fun _ =>
      bind (write i (init b0)) (fun _ =>
      if iscomplete b m then
        bind (write i (score b0)) (fun _ => ret (score b0))
      else if nomoves b m then
        bind (eval fuel (pass b) (pass m)) (fun s =>
        let s := setboard s b0 in
        bind (write i s) (fun _ => ret s))
      else
        bind (for_each cells
                (fun s i =>
                   if valid m i then
                     bind (eval fuel (place b i) (mask m i)) (fun tmp =>
                     let tmp := setboard tmp b0 in
                     ret (combine s tmp))
                   else ret s)
                (init b0)) (fun s =>
        bind (write i s) (fun _ => ret s)))) st
    else Ret (cur, st).
Proof.
  intros Hl. rewrite eval_S. cbv zeta.
  unfold bind at 1. unfold lookup_slot. rewrite Hl.
  unfold bind at 1. unfold read. rewrite truthy_board.
  destruct (getboard (table_at (table st) i) =? 0); reflexivity.
Qed.

Lemma eval_no_slot (fuel : nat) (b m : Z) (st : store) :
  lookup (table st) (canonicalize b) = None ->
  eval (S fuel) b m st = Loops.
Proof.
  intros Hl. rewrite eval_S. cbv zeta.
  unfold bind at 1. unfold lookup_slot. rewrite Hl. reflexivity.
Qed.

Lemma eval_correct (fuel : nat) :
  forall b m st s st',
    reachable b m -> final_from (tfield b) st ->
    eval fuel b m st = Ret (s, st') ->
    s = eval_value b m /\ evolves (tfield b) st st'.
Proof.
  induction fuel as [|fuel IH]; intros b m st s st' Hr Hfin He;
    [discriminate|].
  destruct (reachable_boards b m Hr) as (Hb & Hm & Ht & Htr).
  pose proof (canonicalize_board b Hb) as Hb0.
  pose proof (tfield_canonicalize b Hb) as Ht0.
  pose proof (eval_value_final b m Hr) as HVfin.
  pose proof (eval_value_eq b m Hr) as HV.
  assert (Hlabel : getboard (eval_value b m) = canonicalize b)
    by apply (eval_value_labelled b m Hr).
  destruct (lookup (table st) (canonicalize b)) as [i|] eqn:Hl.
  2:{ rewrite (eval_no_slot _ _ _ _ Hl) in He. discriminate He. }
  rewrite (eval_slot _ _ _ _ _ Hl) in He. cbv zeta in He.
  destruct (lookup_hit (table st) (canonicalize b) i Hl) as [Hi Hh].
  destruct (Z.eqb_spec (getboard (table_at (table st) i)) 0) as [E0|E0].
  2:{ (* the slot is in the table *)
    inversion He; subst s st'. clear He.
    split; [|apply evolves_refl].
    destruct (hit_cases _ _ _ Hh) as [E|E]; [contradiction|].
    destruct (table st !! i) as [e|] eqn:Ei.
    - rewrite (table_at_some _ _ _ Ei) in E |- *.
      apply (Hfin i e Ei); [rewrite E; lia|exact Hr|symmetry; exact E].
    - rewrite (table_at_none _ _ Ei), zero_board in E0. contradiction. }
  (* a new slot *)
  unfold bind at 1 in He.
  destruct (count_entry st) as [[u st1]| | |] eqn:Ec; try discriminate.
  pose proof (count_entry_table st st1 u Ec) as Et1.
  unfold bind at 1 in He. unfold write at 1 in He. rewrite Et1 in He.
  remember (Store (<[i := init (canonicalize b)]> (table st)) (table_len st1))
    as st2 eqn:Est2.
  assert (Hfin2 : final_from (tfield b + 1) st2).
  { intros j e Hj Hte. rewrite Est2 in Hj. cbn [table] in Hj.
    destruct (Z.eq_dec j i) as [->|Hne].
    - rewrite lookup_insert_eq in Hj. inversion Hj; subst e.
      rewrite (proj2 (init_law _ Hb0)) in Hte. lia.
    - rewrite lookup_insert_ne in Hj by congruence.
      apply (Hfin j e Hj). lia. }
  assert (Hst2 : forall j, j <> i -> table st2 !! j = table st !! j).
  { intros j Hne. rewrite Est2. cbn [table].
    apply lookup_insert_ne. congruence. }
  assert (Hwrite : forall st3 n,
             evolves (tfield b + 1) st2 st3 ->
             evolves (tfield b) st
                     (Store (<[i := eval_value b m]> (table st3)) n)).
  { intros st3 n Hev. apply evolves_write.
    - intros j Hne. destruct (Hev j) as [E|(e & E & Hte & Hf)].
      + left. rewrite E. apply Hst2, Hne.
      + right. exists e. repeat split; try assumption. lia.
    - rewrite Hlabel. lia.
    - exact HVfin. }
  clear Est2.
  destruct (iscomplete b m) eqn:Ecomp.
  { unfold bind, write, ret in He. inversion He; subst s st'. clear He.
    rewrite HV. split; [reflexivity|]. rewrite <- HV.
    apply (Hwrite st2), evolves_refl. }
  destruct (nomoves b m) eqn:Enm.
  { unfold bind at 1 in He.
    destruct (eval fuel (pass b) (pass m) st2) as [[s1 st3]| | |] eqn:E1;
      try discriminate.
    assert (Hr' : reachable (pass b) (pass m))
      by (apply reachable_pass; assumption).
    assert (Hfin' : final_from (tfield (pass b)) st2)
      by (rewrite tfield_pass, next_turn_small by lia; exact Hfin2).
    destruct (IH _ _ _ _ _ Hr' Hfin' E1) as [Es1 Hev].
    rewrite tfield_pass, next_turn_small in Hev by lia.
    unfold bind, write, ret in He. inversion He; subst s st'. clear He.
    rewrite Es1, <- HV. split; [reflexivity|]. apply Hwrite, Hev. }
  (* the loop over the cells *)
  unfold bind at 1 in He.
  match type of He with
  | context [for_each cells ?body ?a st2] =>
      destruct (for_each cells body a st2) as [[s2 st3]| | |] eqn:Eloop;
        try discriminate
  end.
  apply (children_correct fuel b m) in Eloop.
  - destruct Eloop as [Es2 Hev].
    unfold bind, write, ret in He. inversion He; subst s st'. clear He.
    rewrite <- HV in Es2. rewrite Es2. split; [reflexivity|].
    apply Hwrite, Hev.
  - intros j st4 s4 st5 Hj Ev Hf4 E4.
    assert (Hr' : reachable (place b j) (mask m j))
      by (apply reachable_place; assumption).
    assert (Etf : tfield (place b j) = tfield b + 1).
    { rewrite tfield_place by (try apply board_u64; assumption).
      apply next_turn_small. lia. }
    rewrite <- Etf in Hf4. rewrite <- Etf. apply (IH _ _ _ _ _ Hr' Hf4 E4).
  - exact Hfin2.
Qed.

End EvalCorrect.

(** * Further properties of the engine *)

(** ** Board operations *)

Lemma forced_pass_runs :
  run game_rule forced_pass_game (INIT, INIT) = Some forced_pass_position.
Proof. vm_compute. reflexivity. Qed.

Lemma forced_pass_reachable :
  reachable (fst forced_pass_position) (snd forced_pass_position).
Proof.
  apply (run_reachable forced_pass_game INIT INIT _ _ reachable_init).
  exact forced_pass_runs.
Qed.

Lemma sample_end_reachable : reachable (fst sample_end) (snd sample_end).
Proof.
  apply (run_reachable sample_game INIT INIT _ _ reachable_init).
  exact sample_game_runs.
Qed.

Lemma next_turn_succ (t : Z) : 0 <= t < 16383 -> next_turn t = t + 1.
Proof. intros Ht. unfold next_turn. apply Z.mod_small. lia. Qed.

(** X1. [place], [pass] and [mask] each advance the 0-indexed turn that
    [turn] reads by exactly one, as long as the 14-bit turn field does not
    wrap. *)
Theorem turn_advances (b i : Z) :
  is_u64 b -> 0 <= i < 25 -> 1 <= tfield b < 16383 ->
  turn (pass b) = turn b + 1
  /\ turn (place b i) = turn b + 1
  /\ turn (mask b i) = turn b + 1.
Proof.
  intros Hb Hi Ht.
  rewrite (turn_of_tfield b Hb) by lia.
  rewrite (turn_of_tfield (pass b)), (turn_of_tfield (place b i)),
    (turn_of_tfield (mask b i));
    rewrite ?tfield_pass, ?tfield_place, ?tfield_mask, ?next_turn_succ
      by (assumption || lia);
    try lia;
    first [apply pass_u64 | apply place_u64 | apply mask_u64]; assumption.
Qed.

Lemma turn_advances_witness :
  turn (pass INIT) = turn INIT + 1
  /\ turn (place INIT 3) = turn INIT + 1
  /\ turn (mask INIT 3) = turn INIT + 1.
Proof.
  apply (turn_advances INIT 3).
  - exact INIT_u64.
  - lia.
  - rewrite tfield_INIT. lia.
Defined.

(** X2. When [iscomplete] holds neither player has a move: [nomoves] holds
    for the mover, and after a pass for the opponent. *)
Theorem complete_stops_both (b m : Z) :
  is_u64 b -> iscomplete b m = true ->
  nomoves b m = true /\ nomoves (pass b) (pass m) = true.
Proof.
  intros Hb Hc. rewrite iscomplete_spec in Hc.
  pose proof (tfield_range b Hb) as Ht.
  split.
  - apply nomoves_spec; [exact Hb|]. intros j Hj.
    destruct (Hc j Hj) as [HB HA].
    destruct (who_of_cases (tfield b) ltac:(lia)) as [W|W]; rewrite W.
    + replace (0 * 25 + j) with j by lia. exact HA.
    + replace (1 * 25 + j) with (25 + j) by lia. exact HB.
  - apply nomoves_spec; [apply pass_u64|]. intros j Hj.
    destruct (Hc j Hj) as [HB HA].
    pose proof (next_turn_range (tfield b)) as Hn.
    rewrite tfield_pass.
    destruct (who_of_cases (next_turn (tfield b)) ltac:(lia)) as [W|W];
      rewrite W.
    + replace (0 * 25 + j) with j by lia.
      rewrite !testbit_pass by lia. exact HA.
    + replace (1 * 25 + j) with (25 + j) by lia.
      rewrite !testbit_pass by lia. exact HB.
Qed.

Lemma complete_stops_both_witness :
  nomoves (fst sample_end) (snd sample_end) = true
  /\ nomoves (pass (fst sample_end)) (pass (snd sample_end)) = true.
Proof.
  apply complete_stops_both.
  - vm_compute. split; [discriminate|reflexivity].
  - vm_compute. reflexivity.
Defined.

(** The mover's plane of the mask decides [nomoves] in a play. *)
Lemma nomoves_mask (b m : Z) :
  play_inv b m ->
  nomoves b m = true <->
  forall j, 0 <= j < 25 ->
    Z.testbit m (who_of (tfield m) * 25 + j) = true.
Proof.
  intros (Hb & Hm & Ht & Hd & Ho).
  pose proof (tfield_range b Hb) as Htr.
  rewrite nomoves_spec by exact Hb. rewrite <- Ht.
  split; intros H j Hj; [|right; apply H, Hj].
  destruct (H j Hj) as [E|E]; [|exact E].
  destruct (who_of_cases (tfield b) ltac:(lia)) as [W|W];
    rewrite W in E |- *.
  - replace (0 * 25 + j) with j in * by lia.
    apply (Ho j Hj). left. exact E.
  - replace (1 * 25 + j) with (25 + j) in * by lia.
    apply (Ho j Hj). right. exact E.
Qed.

Lemma nomoves_no_valid (b m : Z) :
  reachable b m ->
  nomoves b m = true <-> forall i, 0 <= i < 25 -> valid m i = false.
Proof.
  intros Hr. destruct (reachable_inv b m Hr) as (HI & Ht & H1).
  pose proof HI as (Hb & Hm & Htm & _).
  rewrite (nomoves_mask b m HI).
  destruct (Z.eq_dec (tfield m) 1) as [E|E].
  - destruct (H1 E) as [-> ->]. split; intros H.
    + specialize (H 0 ltac:(lia)). vm_compute in H. discriminate.
    + specialize (H 0 ltac:(lia)). vm_compute in H. discriminate.
  - split; intros H i Hi.
    + rewrite valid_spec by assumption.
      apply Z.eqb_neq in E. rewrite E, (H i Hi). reflexivity.
    + specialize (H i Hi). rewrite valid_spec in H by assumption.
      apply Z.eqb_neq in E. rewrite E in H.
      apply negb_false_iff in H. exact H.
Qed.

(** X3. In the game tree [nomoves] says exactly that no cell is [valid]
    for the mover: the test on the board and the mask together agrees with
    the test of the mask alone. *)
Theorem nomoves_iff_no_valid (b m : Z) :
  reachable b m ->
  nomoves b m = true <-> forall i, 0 <= i < 25 -> valid m i = false.
Proof. apply nomoves_no_valid. Qed.

Lemma nomoves_iff_no_valid_witness :
  nomoves (fst forced_pass_position) (snd forced_pass_position) = true
  <-> forall i, 0 <= i < 25 -> valid (snd forced_pass_position) i = false.
Proof. apply nomoves_iff_no_valid. exact forced_pass_reachable. Defined.

(** X4. A forced pass hands the move over: when the mover has no move and
    the game is not complete, the opponent has one after the pass, so
    [eval] never passes twice in a row. *)
Theorem pass_hands_over (b m : Z) :
  is_u64 b -> nomoves b m = true -> iscomplete b m = false ->
  nomoves (pass b) (pass m) = false.
Proof. apply pass_gives_move. Qed.

Lemma pass_hands_over_witness :
  nomoves (pass (fst forced_pass_position)) (pass (snd forced_pass_position))
  = false.
Proof.
  apply pass_hands_over.
  - vm_compute. split; [discriminate|reflexivity].
  - vm_compute. reflexivity.
  - vm_compute. reflexivity.
Defined.

(** X5. A cell that [valid] accepts is free: in any lockstep play of up to
    16382 plies no piece is ever placed on an occupied cell. *)
Theorem valid_cell_is_free (n : nat) (b m i : Z) :
  lockstep n b m -> Z.of_nat n <= 16382 -> 0 <= i < 25 ->
  valid m i = true ->
  Z.testbit b i = false /\ Z.testbit b (25 + i) = false.
Proof.
  intros Hl Hn Hi Hv.
  pose proof (lockstep_inv n b m Hl ltac:(lia)) as HI.
  destruct (lockstep_turn n b m Hl) as (Hb & Hm & Htb & Htm).
  assert (Hf : free_cell b i = true).
  { apply (valid_free b m i HI Hi Hv). intros E.
    rewrite Htm in E. rewrite Z.mod_small in E by lia.
    assert (n = 0%nat) by lia. subst n.
    apply (lockstep_zero b m Hl). }
  unfold free_cell in Hf. apply andb_true_iff in Hf.
  destruct Hf as [H0 H1].
  apply negb_true_iff in H0, H1. auto.
Qed.

Lemma valid_cell_is_free_witness :
  Z.testbit (place INIT 3) 10 = false
  /\ Z.testbit (place INIT 3) (25 + 10) = false.
Proof.
  apply (valid_cell_is_free 1 (place INIT 3) (mask INIT 3) 10).
  - apply lockstep_place; [apply lockstep_init|lia|reflexivity].
  - lia.
  - lia.
  - vm_compute. reflexivity.
Defined.

Lemma blocks_adjacent (i j : Z) :
  0 <= i < 25 -> 0 <= j < 25 -> Z.testbit (blocks_at i) j = adjacent i j.
Proof.
  intros Hi Hj.
  assert (H : forallb (fun i => forallb (fun j =>
                Bool.eqb (Z.testbit (blocks_at i) j) (adjacent i j))
              cells) cells = true) by (vm_compute; reflexivity).
  pose proof (range_forallb 25 _ H i ltac:(lia)) as H1. cbv beta in H1.
  pose proof (range_forallb 25 _ H1 j ltac:(lia)) as H2. cbv beta in H2.
  apply eqb_prop in H2. exact H2.
Qed.

(** X6. The table [blocks] is the adjacency of the grid: bit [j] of
    [blocks[i]] is set exactly for the cell [i] itself and the cells that
    share an edge with it. *)
Theorem blocks_is_adjacency (i j : Z) :
  0 <= i < 25 -> 0 <= j ->
  Z.testbit (blocks_at i) j = (j <? 25) && adjacent i j.
Proof.
  intros Hi Hj. destruct (Z.ltb_spec j 25) as [Hlt|Hge]; cbn [andb].
  - apply blocks_adjacent; lia.
  - apply blocks_high. exact Hge.
Qed.

Lemma blocks_is_adjacency_witness :
  Z.testbit (blocks_at 7) 12 = (12 <? 25) && adjacent 7 12.
Proof. apply blocks_is_adjacency; lia. Defined.

(** X7. After a placement on cell [i] the opponent, who moves next, may
    take the cells that were open to them before and that are neither [i]
    nor next to it. *)
Theorem valid_after_mask (m i j : Z) :
  is_u64 m -> 1 <= tfield m < 16383 -> 0 <= i < 25 -> 0 <= j < 25 ->
  valid (mask m i) j
  = negb (Z.testbit m ((1 - who_of (tfield m)) * 25 + j))
    && negb (adjacent i j).
Proof.
  intros Hm Ht Hi Hj.
  rewrite valid_spec by (try apply mask_u64; assumption).
  rewrite tfield_mask, next_turn_succ by (assumption || lia).
  destruct (Z.eqb_spec (tfield m + 1) 1) as [E|_]; [lia|].
  replace (tfield m + 1) with (next_turn (tfield m))
    by (apply next_turn_succ; lia).
  rewrite who_next by lia.
  destruct (who_of_cases (tfield m) ltac:(lia)) as [W|W]; rewrite W.
  - rewrite testbit_mask by (assumption || lia). rewrite W.
    replace ((1 - 0) * 25 + j - (1 - 0) * 25) with j by lia.
    rewrite (blocks_adjacent i j) by lia.
    destruct (Z.eqb_spec (0 * 25 + i) ((1 - 0) * 25 + j)) as [E|_]; [lia|].
    rewrite orb_false_r, negb_orb. reflexivity.
  - rewrite testbit_mask by (assumption || lia). rewrite W.
    replace ((1 - 1) * 25 + j - (1 - 1) * 25) with j by lia.
    rewrite (blocks_adjacent i j) by lia.
    destruct (Z.eqb_spec (1 * 25 + i) ((1 - 1) * 25 + j)) as [E|_]; [lia|].
    rewrite orb_false_r, negb_orb. reflexivity.
Qed.

Lemma valid_after_mask_witness :
  valid (mask INIT 7) 12
  = negb (Z.testbit INIT ((1 - who_of (tfield INIT)) * 25 + 12))
    && negb (adjacent 7 12).
Proof.
  apply valid_after_mask; try lia.
  - exact INIT_u64.
  - rewrite tfield_INIT. lia.
Defined.

(** X8. Every position of the game tree fits the documented layout: board
    and mask are 56-bit values with the same turn field, which stays
    between 1 and 51. *)
Theorem reachable_fits_layout (b m : Z) :
  reachable b m ->
  is_board b /\ is_board m /\ tfield b = tfield m /\ 1 <= tfield b <= 51.
Proof. apply reachable_boards. Qed.

Lemma reachable_fits_layout_witness :
  is_board (fst forced_pass_position)
  /\ is_board (snd forced_pass_position)
  /\ tfield (fst forced_pass_position) = tfield (snd forced_pass_position)
  /\ 1 <= tfield (fst forced_pass_position) <= 51.
Proof. apply reachable_fits_layout. exact forced_pass_reachable. Defined.

(** ** Symmetries *)

Lemma gen_act_GT (b : Z) : gen_act GT b = transpose b.
Proof. reflexivity. Qed.

Lemma gen_act_GF (b : Z) : gen_act GF b = flipv b.
Proof. reflexivity. Qed.

Lemma gen_perm_GT (n : Z) : gen_perm GT n = tperm n.
Proof. reflexivity. Qed.

(** X9. On a 56-bit board [transpose] and [flipv] are involutions, and
    they keep the turn field. *)
Theorem transpose_flipv_involutive (b : Z) :
  is_board b ->
  transpose (transpose b) = b /\ flipv (flipv b) = b
  /\ tfield (transpose b) = tfield b /\ tfield (flipv b) = tfield b.
Proof.
  intros Hb.
  pose proof (gen_involution GT b Hb) as H1.
  pose proof (gen_involution GF b Hb) as H2.
  pose proof (tfield_gen GT b Hb) as H3.
  pose proof (tfield_gen GF b Hb) as H4.
  rewrite !gen_act_GT in H1, H3. rewrite !gen_act_GF in H2, H4. auto.
Qed.

Lemma transpose_flipv_involutive_witness :
  transpose (transpose (place INIT 3)) = place INIT 3
  /\ flipv (flipv (place INIT 3)) = place INIT 3
  /\ tfield (transpose (place INIT 3)) = tfield (place INIT 3)
  /\ tfield (flipv (place INIT 3)) = tfield (place INIT 3).
Proof.
  apply transpose_flipv_involutive.
  vm_compute. split; [discriminate|reflexivity].
Defined.

(** X10. [canonicalize] is idempotent on a 56-bit board; its result is a
    56-bit board of the same turn that is not above its argument. *)
Theorem canonicalize_idempotent (b : Z) :
  is_board b ->
  canonicalize (canonicalize b) = canonicalize b
  /\ is_board (canonicalize b)
  /\ tfield (canonicalize b) = tfield b
  /\ canonicalize b <= b.
Proof.
  intros Hb. repeat split.
  - destruct (canonicalize_word b) as (w & Hw & E).
    transitivity (canonicalize (act w b)); [rewrite E; reflexivity|].
    apply canonicalize_act; assumption.
  - apply (canonicalize_board b Hb).
  - apply (canonicalize_board b Hb).
  - apply (tfield_canonicalize b Hb).
  - apply canonicalize_le_orbit. rewrite orbit_words.
    apply (in_map (fun w => act w b) sym_words []). left. reflexivity.
Qed.

Lemma canonicalize_idempotent_witness :
  canonicalize (canonicalize (place INIT 3)) = canonicalize (place INIT 3)
  /\ is_board (canonicalize (place INIT 3))
  /\ tfield (canonicalize (place INIT 3)) = tfield (place INIT 3)
  /\ canonicalize (place INIT 3) <= place INIT 3.
Proof.
  apply canonicalize_idempotent.
  vm_compute. split; [discriminate|reflexivity].
Defined.

(** X11. The rules commute with the two generators of the symmetry group:
    moving on the image of a board at cell [i] is the image of moving at
    the cell that the symmetry sends to [i], and the three tests do not
    see the symmetry. *)
Theorem rules_commute_with_symmetry (g : gen) (b m i : Z) :
  is_board b -> is_board m -> tfield b < 63 -> tfield m < 63 ->
  0 <= i < 25 ->
  pass (gen_act g b) = gen_act g (pass b)
  /\ place (gen_act g b) i = gen_act g (place b (gen_perm g i))
  /\ mask (gen_act g m) i = gen_act g (mask m (gen_perm g i))
  /\ valid (gen_act g m) i = valid m (gen_perm g i)
  /\ nomoves (gen_act g b) (gen_act g m) = nomoves b m
  /\ iscomplete (gen_act g b) (gen_act g m) = iscomplete b m.
Proof.
  intros Hb Hm Htb Htm Hi.
  pose proof (gen_pass g b Hb Htb).
  pose proof (gen_place g b i Hb Htb Hi).
  pose proof (gen_mask g m i Hm Htm Hi).
  pose proof (gen_valid g m i Hm Hi).
  pose proof (gen_nomoves g b m Hb).
  pose proof (gen_iscomplete g b m).
  auto 7.
Qed.

Lemma rules_commute_with_symmetry_witness :
  pass (transpose (place INIT 3)) = transpose (pass (place INIT 3))
  /\ place (transpose (place INIT 3)) 7
     = transpose (place (place INIT 3) (tperm 7))
  /\ mask (transpose (mask INIT 3)) 7
     = transpose (mask (mask INIT 3) (tperm 7))
  /\ valid (transpose (mask INIT 3)) 7 = valid (mask INIT 3) (tperm 7)
  /\ nomoves (transpose (place INIT 3)) (transpose (mask INIT 3))
     = nomoves (place INIT 3) (mask INIT 3)
  /\ iscomplete (transpose (place INIT 3)) (transpose (mask INIT 3))
     = iscomplete (place INIT 3) (mask INIT 3).
Proof.
  apply (rules_commute_with_symmetry GT (place INIT 3) (mask INIT 3) 7).
  - vm_compute. split; [discriminate|reflexivity].
  - vm_compute. split; [discriminate|reflexivity].
  - vm_compute. reflexivity.
  - vm_compute. reflexivity.
  - lia.
Defined.

(** X12. The game tree is closed under the eight symmetries: the image of
    a position of the game tree, with the image of its mask, is a position
    of the game tree. *)
Theorem reachable_symmetric (T : Z -> Z) (b m : Z) :
  In T symmetries -> reachable b m -> reachable (T b) (T m).
Proof.
  intros HT Hr. destruct (symmetries_words T HT) as (w & _ & Hw).
  rewrite !Hw. apply reachable_act. exact Hr.
Qed.

Lemma reachable_symmetric_witness :
  reachable (transpose (fst forced_pass_position))
            (transpose (snd forced_pass_position)).
Proof.
  apply (reachable_symmetric transpose).
  - right. left. reflexivity.
  - exact forced_pass_reachable.
Defined.

(** X13. The canonical board determines the position up to symmetry, mask
    included: two positions of the game tree with the same canonical board
    are images of each other, boards and masks by the same symmetry.  In
    particular a board of the game tree has one mask only. *)
Theorem canonical_board_determines_position (b m b' m' : Z) :
  reachable b m -> reachable b' m' -> canonicalize b = canonicalize b' ->
  (exists w, b' = act w b /\ m' = act w m)
  /\ (b = b' -> m = m').
Proof.
  intros Hr Hr' E. split.
  - apply same_canonical; assumption.
  - intros ->. apply (reachable_mask_unique b' m m'); assumption.
Qed.

Lemma canonical_board_determines_position_witness :
  (exists w, transpose (fst forced_pass_position)
             = act w (fst forced_pass_position)
             /\ transpose (snd forced_pass_position)
                = act w (snd forced_pass_position))
  /\ (fst forced_pass_position = transpose (fst forced_pass_position) ->
      snd forced_pass_position = transpose (snd forced_pass_position)).
Proof.
  apply canonical_board_determines_position.
  - exact forced_pass_reachable.
  - apply (reachable_act [GT]). exact forced_pass_reachable.
  - vm_compute. reflexivity.
Defined.

(** ** Rebuilding the mask *)

(** X14. [derive] returns on every 64-bit value: its second loop runs as
    many times as the turn of the board says, and the result carries that
    turn; a board with an empty turn field gives [INIT]. *)
Theorem derive_returns (b : Z) :
  is_u64 b ->
  exists m, derive b = Some m /\ is_u64 m
            /\ tfield m = Z.max 1 (tfield b).
Proof.
  intros Hb. pose proof (tfield_range b Hb) as Ht.
  unfold derive. rewrite scan_spec.
  set (ml := MoveLists (pieces_A b) (pieces_B b)).
  assert (Hok : moves_ok ml) by apply pieces_ok.
  destruct (Z.eq_dec (tfield b) 0) as [E0|E0].
  - exists INIT. rewrite derive_loop_eq.
    rewrite (turn_of_tfield_0 b E0).
    rewrite (turn_of_tfield INIT INIT_u64) by (rewrite tfield_INIT; lia).
    rewrite tfield_INIT. cbn [Z.sub Z.ltb Z.compare Z.add Z.opp Z.pos_sub].
    split; [reflexivity|]. split; [exact INIT_u64|].
    rewrite E0. reflexivity.
  - set (n := Z.to_nat (tfield b - 1)).
    assert (Hn : Z.of_nat n = tfield b - 1) by (unfold n; lia).
    exists (replay ml n).
    destruct (replay_turn ml n Hok ltac:(lia)) as [Hu Htn].
    split; [|split; [exact Hu|lia]].
    change INIT with (replay ml 0). change 0 with (Z.of_nat 0) at 1.
    apply (derive_loop_replay b ml n derive_fuel 0%nat Hok).
    + unfold derive_fuel. lia.
    + cbn [Nat.add]. lia.
    + cbn [Nat.add]. rewrite turn_of_tfield by (assumption || lia). lia.
Qed.

Lemma derive_returns_witness :
  exists m, derive (place INIT 3) = Some m /\ is_u64 m
            /\ tfield m = Z.max 1 (tfield (place INIT 3)).
Proof.
  apply derive_returns. vm_compute. split; [discriminate|reflexivity].
Defined.

(** X15. [derive] does not need the passes of a play to be forced: it
    rebuilds the mask of every lockstep play of at most 16382 plies,
    whether a pass was taken with a move at hand or not. *)
Theorem derive_any_lockstep (n : nat) (b m : Z) :
  lockstep n b m -> Z.of_nat n <= 16382 -> derive b = Some m.
Proof. apply derive_lockstep. Qed.

Lemma derive_any_lockstep_witness :
  derive (place (pass INIT) 0) = Some (mask (pass INIT) 0).
Proof.
  apply (derive_any_lockstep 2).
  - apply lockstep_place;
      [apply lockstep_pass, lockstep_init|lia|vm_compute; reflexivity].
  - lia.
Defined.

(** ** Scores *)

Lemma POPCOUNT_double (x : Z) :
  0 <= x -> POPCOUNT x = Z.b2z (Z.odd x) + POPCOUNT (x / 2).
Proof.
  intros Hx. rewrite <- Z.div2_div.
  destruct x as [|p|p]; [reflexivity| |lia].
  destruct p as [q|q|]; cbn [Z.div2 Z.odd Z.b2z POPCOUNT pos_popcount
                               Pos.div2]; lia.
Qed.

Lemma count_bits_S (x : Z) (n : nat) :
  count_bits x (S n) = Z.b2z (Z.odd x) + count_bits (x / 2) n.
Proof.
  unfold count_bits. rewrite <- cons_seq, <- seq_shift, !map_cons, map_map.
  cbn [List.filter]. rewrite Z.bit0_odd.
  assert (E : List.filter (Z.testbit x)
                (map (fun k => Z.of_nat (S k)) (seq 0 n))
              = map Z.succ
                  (List.filter (Z.testbit (x / 2))
                     (map Z.of_nat (seq 0 n)))).
  { induction (seq 0 n) as [|k l IH]; [reflexivity|].
    cbn [map List.filter]. rewrite Nat2Z.inj_succ.
    rewrite <- (Z.div2_bits x (Z.of_nat k)) by lia.
    destruct (Z.testbit (x / 2) (Z.of_nat k)); cbn [map];
      rewrite IH; reflexivity. }
  rewrite E. destruct (Z.odd x); cbn [length Z.b2z];
    rewrite ?length_map; lia.
Qed.

(** [POPCOUNT] counts the set bits. *)
Lemma POPCOUNT_count (n : nat) :
  forall x, 0 <= x < 2 ^ Z.of_nat n -> POPCOUNT x = count_bits x n.
Proof.
  induction n as [|n IH]; intros x Hx.
  - change (2 ^ Z.of_nat 0) with 1 in Hx. replace x with 0 by lia.
    reflexivity.
  - rewrite POPCOUNT_double, count_bits_S by lia. f_equal. apply IH.
    rewrite Nat2Z.inj_succ, Z.pow_succ_r in Hx by lia.
    split; [apply Z.div_pos; lia|].
    apply Z.div_lt_upper_bound; lia.
Qed.

Lemma filter_ext_length {A : Type} (p q : A -> bool) (l : list A) :
  (forall x, In x l -> p x = q x) ->
  length (List.filter p l) = length (List.filter q l).
Proof.
  intros H. rewrite (List.filter_ext_in p q l H). reflexivity.
Qed.

Transparent pieces_A pieces_B.

Lemma pieces_eq (b : Z) :
  pieces_A b = List.filter (fun i => Z.testbit b i) cells
  /\ pieces_B b = List.filter (fun i => Z.testbit b (25 + i)) cells.
Proof. split; reflexivity. Qed.

Opaque pieces_A pieces_B.

Lemma pieces_A_eq (b : Z) :
  pieces_A b = List.filter (fun i => Z.testbit b i) cells.
Proof. exact (proj1 (pieces_eq b)). Qed.

Lemma pieces_B_eq (b : Z) :
  pieces_B b = List.filter (fun i => Z.testbit b (25 + i)) cells.
Proof. exact (proj2 (pieces_eq b)). Qed.

Lemma count_bits_cells (x : Z) :
  count_bits x 25 = Z.of_nat (length (List.filter (Z.testbit x) cells)).
Proof. reflexivity. Qed.

Lemma pieces_A_length (b : Z) :
  POPCOUNT (Z.land b 0x1ffffff) = Z.of_nat (length (pieces_A b)).
Proof.
  rewrite (POPCOUNT_count 25) by (apply land_range; lia).
  rewrite count_bits_cells, pieces_A_eq. f_equal.
  apply filter_ext_length. intros i Hi. apply in_cells in Hi.
  rewrite ones25, Z.land_spec, Z.ones_spec_low by lia.
  apply andb_true_r.
Qed.

Lemma pieces_B_length (b : Z) :
  POPCOUNT (Z.land (Z.shiftr b 25) 0x1ffffff)
  = Z.of_nat (length (pieces_B b)).
Proof.
  rewrite (POPCOUNT_count 25) by (apply land_range; lia).
  rewrite count_bits_cells, pieces_B_eq. f_equal.
  apply filter_ext_length. intros i Hi. apply in_cells in Hi.
  rewrite ones25, Z.land_spec, Z.ones_spec_low, Z.shiftr_spec by lia.
  rewrite andb_true_r. f_equal. lia.
Qed.

Lemma pieces_length_range (b : Z) :
  0 <= Z.of_nat (length (pieces_A b)) <= 25
  /\ 0 <= Z.of_nat (length (pieces_B b)) <= 25.
Proof.
  rewrite <- pieces_A_length, <- pieces_B_length.
  split; (apply POPCOUNT_range; [apply land_range; lia|lia]).
Qed.

Lemma minimax_score_pieces (b : Z) :
  is_board b ->
  Minimax.getboard (Minimax.score b) = b
  /\ Minimax.getscore (Minimax.score b)
     = Z.of_nat (length (pieces_A b)) - Z.of_nat (length (pieces_B b))
  /\ is_slot (Minimax.score b).
Proof.
  intros Hb. pose proof (pieces_length_range b) as [HA HB].
  unfold Minimax.score. cbv zeta.
  rewrite pieces_A_length, pieces_B_length.
  set (x := Z.of_nat (length (pieces_A b))
            - Z.of_nat (length (pieces_B b)) + 25).
  assert (Hx : 0 <= x <= 50) by (unfold x; lia).
  rewrite (u64_small x) by lia.
  rewrite shiftl_u64_small by lia.
  split; [apply pack_getboard; [lia|exact Hb]|].
  split; [rewrite pack_getscore by (assumption || lia); unfold x; lia|].
  apply packed_slot; [lia|exact Hb].
Qed.

(** X16. The minimax [score] of a 56-bit board packs and unpacks without
    loss: the slot is labelled with the board, and its score is the number
    of pieces of player A minus the number of pieces of player B, between
    -25 and 25. *)
Theorem minimax_score_counts_pieces (b : Z) :
  is_board b ->
  Minimax.getboard (Minimax.score b) = b
  /\ Minimax.getscore (Minimax.score b)
     = Z.of_nat (length (pieces_A b)) - Z.of_nat (length (pieces_B b))
  /\ -25 <= Minimax.getscore (Minimax.score b) <= 25.
Proof.
  intros Hb. destruct (minimax_score_pieces b Hb) as (H1 & H2 & _).
  pose proof (pieces_length_range b) as [HA HB].
  split; [exact H1|]. split; [exact H2|]. rewrite H2. lia.
Qed.

Lemma minimax_score_counts_pieces_witness :
  Minimax.getboard (Minimax.score (fst sample_end)) = fst sample_end
  /\ Minimax.getscore (Minimax.score (fst sample_end))
     = Z.of_nat (length (pieces_A (fst sample_end)))
       - Z.of_nat (length (pieces_B (fst sample_end)))
  /\ -25 <= Minimax.getscore (Minimax.score (fst sample_end)) <= 25.
Proof.
  apply minimax_score_counts_pieces.
  vm_compute. split; [discriminate|reflexivity].
Defined.

Lemma minimax_init_fields (b : Z) :
  is_board b ->
  Minimax.getboard (Minimax.init b) = b
  /\ Minimax.getscore (Minimax.init b)
     = (if Z.odd (tfield b) then -25 else 25).
Proof.
  intros Hb. rewrite init_packed, (turn_parity b Hb).
  fold (tfield b). rewrite <- Z.negb_odd.
  destruct (Z.odd (tfield b)); cbn [negb].
  - split; [apply pack_getboard; [lia|exact Hb]|].
    rewrite pack_getscore by (assumption || lia). reflexivity.
  - split; [apply pack_getboard; [lia|exact Hb]|].
    rewrite pack_getscore by (assumption || lia). reflexivity.
Qed.

(** X17. The tally [score] records exactly one outcome: the three counters
    are 0 or 1 and sum to 1; [p1_wins] is set when player A has more
    pieces, [p2_wins] when player B has, [ties] when they have as many. *)
Theorem tally_score_one_outcome (b : Z) :
  let s := Tally.score b in
  let a := Z.of_nat (length (pieces_A b)) in
  let c := Z.of_nat (length (pieces_B b)) in
  Tally.p1_wins s + Tally.p2_wins s + Tally.ties s = 1
  /\ (Tally.p1_wins s = 1 <-> a > c)
  /\ (Tally.p2_wins s = 1 <-> c > a)
  /\ (Tally.ties s = 1 <-> a = c)
  /\ Tally.getboard s = b.
Proof.
  cbv zeta. unfold Tally.score. cbv zeta.
  rewrite pieces_A_length, pieces_B_length.
  cbn [Tally.p1_wins Tally.p2_wins Tally.ties Tally.getboard Tally.board].
  generalize (Z.of_nat (length (pieces_A b))).
  generalize (Z.of_nat (length (pieces_B b))). intros c a.
  destruct (Z.gtb_spec a c), (Z.gtb_spec c a), (Z.eqb_spec c a);
    repeat split; intros; lia.
Qed.

(** ** The probe loop, continued *)

Lemma mod_offsets_differ (h k k' n : Z) :
  0 < n -> 0 <= k' < k -> k < n -> (h + k') mod n <> (h + k) mod n.
Proof.
  intros Hn Hk Hkn E.
  pose proof (Z.div_mod (h + k') n ltac:(lia)) as H1.
  pose proof (Z.div_mod (h + k) n ltac:(lia)) as H2.
  rewrite E in H1.
  set (q := (h + k) / n - (h + k') / n).
  assert (H : k - k' = n * q) by (unfold q; lia).
  destruct (Z.lt_ge_cases q 1) as [Hq|Hq]; nia.
Qed.

Section LookupFirst.

Context {strat : Strategy} {ok : slot_t -> Prop}.
Context {laws : StrategyLaws strat ok}.

(** [probe d] stops at the first hit. *)
Lemma probe_first (t : gmap Z slot_t) (b : Z) (d : nat) :
  forall i, 0 <= i < table_size ->
    match probe d t b i with
    | Found j =>
        exists k, 0 <= k < 2 ^ Z.of_nat d
                  /\ j = (i + k) mod table_size
                  /\ hit t b j = true
                  /\ forall k', 0 <= k' < k ->
                       hit t b ((i + k') mod table_size) = false
    | Next _ => True
    end.
Proof.
  pose proof table_size_pos as Hn.
  induction d as [|d IH]; intros i Hi.
  - cbn [probe]. rewrite probe1_hit. destruct (hit t b i) eqn:E; [|exact I].
    exists 0. split; [change (2 ^ Z.of_nat 0) with 1; lia|].
    split; [rewrite Z.add_0_r, Z.mod_small by lia; reflexivity|].
    split; [exact E|]. intros k' Hk'. lia.
  - cbn [probe].
    assert (Hp : 2 ^ Z.of_nat (S d) = 2 ^ Z.of_nat d + 2 ^ Z.of_nat d).
    { rewrite Nat2Z.inj_succ, Z.pow_succ_r by lia. lia. }
    assert (Hpos : 0 < 2 ^ Z.of_nat d) by (apply Z.pow_pos_nonneg; lia).
    pose proof (IH i Hi) as H1. pose proof (probe_spec t b d i Hi) as S1.
    destruct (probe d t b i) as [j|i1].
    + destruct H1 as (k & Hk & Hrest). exists k. split; [lia|exact Hrest].
    + destruct S1 as [E1 N1].
      assert (Hi1 : 0 <= i1 < table_size)
        by (rewrite E1; apply Z.mod_pos_bound; lia).
      pose proof (IH i1 Hi1) as H2.
      destruct (probe d t b i1) as [j|i2]; [|exact I].
      destruct H2 as (k1 & Hk1 & Ej & Hj & Nk).
      exists (2 ^ Z.of_nat d + k1). split; [lia|].
      split.
      { rewrite Ej, E1, Zplus_mod_idemp_l. f_equal. lia. }
      split; [exact Hj|].
      intros k' Hk'.
      destruct (Z.lt_ge_cases k' (2 ^ Z.of_nat d)) as [Hlt|Hge].
      * apply N1. lia.
      * specialize (Nk (k' - 2 ^ Z.of_nat d) ltac:(lia)).
        rewrite E1, Zplus_mod_idemp_l in Nk.
        replace (i + 2 ^ Z.of_nat d + (k' - 2 ^ Z.of_nat d)) with (i + k')
          in Nk by lia.
        exact Nk.
Qed.

(** The index that [lookup] returns is the first hit of the probe
    sequence that starts at the hash of the board. *)
Lemma lookup_first (t : gmap Z slot_t) (b j : Z) :
  lookup t b = Some j <->
  exists k, 0 <= k < table_size
            /\ j = (hash b + k) mod table_size
            /\ hit t b j = true
            /\ forall k', 0 <= k' < k ->
                 hit t b ((hash b + k') mod table_size) = false.
Proof.
  pose proof table_size_pos as Hn.
  set (h := hash b mod table_size).
  assert (Hh : 0 <= h < table_size) by (apply Z.mod_pos_bound; lia).
  assert (Eh : forall k, (h + k) mod table_size
                         = (hash b + k) mod table_size)
    by (intros k; unfold h; apply Zplus_mod_idemp_l).
  pose proof (probe_first t b 24 h Hh) as HF.
  pose proof (probe_spec t b 24 h Hh) as HS.
  unfold lookup. fold h.
  change (2 ^ Z.of_nat 24) with table_size in HF, HS.
  destruct (probe 24 t b h) as [j'|i'].
  - destruct HF as (k & Hk & Ej & Hj & Nk). split.
    + intros E. assert (Ejj : j = j') by congruence. subst j. exists k.
      split; [exact Hk|]. split; [rewrite <- Eh; exact Ej|].
      split; [exact Hj|]. intros k' Hk'. rewrite <- Eh. apply Nk, Hk'.
    + intros (k2 & Hk2 & Ej2 & Hj2 & Nk2). f_equal.
      rewrite Ej, Ej2, <- Eh.
      destruct (Z.lt_trichotomy k k2) as [Hlt|[->|Hgt]]; [|reflexivity|].
      * specialize (Nk2 k ltac:(lia)). rewrite <- Eh, <- Ej in Nk2.
        congruence.
      * specialize (Nk k2 ltac:(lia)). rewrite Eh, <- Ej2 in Nk.
        congruence.
  - destruct HS as [_ N]. split; [discriminate|].
    intros (k & Hk & Ej & Hj & _). specialize (N k Hk).
    rewrite Eh, <- Ej in N. congruence.
Qed.

(** With a hit at some index, the probe loop ends. *)
Lemma lookup_total_hit (t : gmap Z slot_t) (b e : Z) :
  0 <= e < table_size -> hit t b e = true -> exists i, lookup t b = Some i.
Proof.
  intros He Hhit. unfold lookup.
  pose proof table_size_pos as Hn.
  set (h := hash b mod table_size).
  assert (Hh : 0 <= h < table_size) by (apply Z.mod_pos_bound; lia).
  pose proof (probe_spec t b 24 h Hh) as HP.
  destruct (probe 24 t b h) as [j|j]; [eauto|].
  exfalso. destruct HP as [_ HN].
  specialize (HN ((e - h) mod table_size)).
  change (2 ^ Z.of_nat 24) with table_size in HN.
  specialize (HN (Z.mod_pos_bound _ _ Hn)).
  rewrite Zplus_mod_idemp_r in HN.
  replace (h + (e - h)) with e in HN by lia.
  rewrite Z.mod_small in HN by lia.
  rewrite Hhit in HN. discriminate.
Qed.

Lemma lookup_none (t : gmap Z slot_t) (b : Z) :
  lookup t b = None <->
  forall i, 0 <= i < table_size -> hit t b i = false.
Proof.
  split.
  - intros E i Hi. destruct (hit t b i) eqn:Hhit; [|reflexivity].
    destruct (lookup_total_hit t b i Hi Hhit) as (j & Hj).
    rewrite E in Hj. discriminate.
  - intros H. destruct (lookup t b) as [j|] eqn:E; [|reflexivity].
    destruct (lookup_hit t b j E) as [Hj Hh]. rewrite (H j Hj) in Hh.
    discriminate.
Qed.

Lemma table_at_insert (t : gmap Z slot_t) (i j : Z) (s : slot_t) :
  table_at (<[i := s]> t) j = if Z.eq_dec j i then s else table_at t j.
Proof.
  unfold table_at. destruct (Z.eq_dec j i) as [->|Hne].
  - rewrite lookup_insert_eq. reflexivity.
  - rewrite lookup_insert_ne by congruence. reflexivity.
Qed.

Lemma hit_true (t : gmap Z slot_t) (b i : Z) :
  hit t b i = true <->
  getboard (table_at t i) = 0 \/ getboard (table_at t i) = b.
Proof.
  unfold hit. rewrite orb_true_iff, !Z.eqb_eq. reflexivity.
Qed.

Lemma hit_false (t : gmap Z slot_t) (b i : Z) :
  hit t b i = false <->
  getboard (table_at t i) <> 0 /\ getboard (table_at t i) <> b.
Proof.
  unfold hit. rewrite orb_false_iff, !Z.eqb_neq. reflexivity.
Qed.

(** Writing the key [b] into the slot that [lookup] gave for it keeps the
    lookup of [b] there. *)
Lemma lookup_write_same (t : gmap Z slot_t) (b i : Z) (s : slot_t) :
  lookup t b = Some i -> getboard s = b ->
  lookup (<[i := s]> t) b = Some i.
Proof.
  pose proof table_size_pos as Hn.
  intros Hl Hs. apply lookup_first in Hl.
  destruct Hl as (k & Hk & Ei & Hi & Nk).
  apply lookup_first. exists k. split; [exact Hk|].
  split; [exact Ei|]. split.
  - apply hit_true. right. rewrite table_at_insert.
    destruct (Z.eq_dec i i); [exact Hs|contradiction].
  - intros k' Hk'. specialize (Nk k' Hk').
    apply hit_false in Nk. apply hit_false.
    rewrite table_at_insert.
    destruct (Z.eq_dec ((hash b + k') mod table_size) i) as [E|_];
      [|exact Nk].
    exfalso. rewrite Ei in E.
    apply (mod_offsets_differ (hash b) k k' table_size); (lia || exact E).
Qed.

(** Writing the key [b] into its slot does not move a stored key [b']. *)
Lemma lookup_write_other (t : gmap Z slot_t) (b b' i j : Z) (s : slot_t) :
  lookup t b = Some i -> getboard s = b -> b <> 0 ->
  lookup t b' = Some j -> getboard (table_at t j) = b' -> b' <> 0 ->
  b' <> b ->
  lookup (<[i := s]> t) b' = Some j /\ j <> i.
Proof.
  intros Hl Hs Hb0 Hl' Hj Hb'0 Hne.
  destruct (lookup_hit t b i Hl) as [_ Hhit]. apply hit_true in Hhit.
  assert (Hji : j <> i).
  { intros ->. destruct Hhit as [E|E]; congruence. }
  split; [|exact Hji].
  apply lookup_first in Hl'. destruct Hl' as (k & Hk & Ej & Hjh & Nk).
  apply lookup_first. exists k. split; [exact Hk|].
  split; [exact Ej|]. split.
  - apply hit_true. right. rewrite table_at_insert.
    destruct (Z.eq_dec j i); [contradiction|exact Hj].
  - intros k' Hk'. specialize (Nk k' Hk').
    apply hit_false in Nk. apply hit_false.
    rewrite table_at_insert.
    destruct (Z.eq_dec ((hash b' + k') mod table_size) i) as [E|_];
      [|exact Nk].
    rewrite E in Nk. destruct Nk as [N0 N1].
    destruct Hhit as [E0|E0]; [contradiction|].
    rewrite Hs. split; congruence.
Qed.

End LookupFirst.

(** ** The table during an evaluation *)

Lemma for_each_inv {strat : Strategy} {A : Type} (J : A -> store -> Prop)
      (l : list Z) (body : A -> Z -> M A) :
  (forall a i st, In i l -> J a st ->
     match body a i st with Ret (a', st') => J a' st' | _ => True end) ->
  forall a st, J a st ->
    match for_each l body a st with
    | Ret (a', st') => J a' st'
    | _ => True
    end.
Proof.
  induction l as [|i l IH]; intros Hbody a st HJ.
  - cbn [for_each ret]. exact HJ.
  - cbn [for_each]. unfold bind.
    pose proof (Hbody a i st (or_introl eq_refl) HJ) as H.
    destruct (body a i st) as [[a' st']| | |]; try exact I.
    apply IH; [|exact H].
    intros a0 j st1 Hj. apply Hbody. right. exact Hj.
Qed.

Section TableInvariant.

Context {strat : Strategy} {ok : slot_t -> Prop}.
Context {laws : StrategyLaws strat ok}.

Lemma keeps_refl (st : store) : keeps st st.
Proof. intros j e H. exists e. auto. Qed.

Lemma keeps_trans (st1 st2 st3 : store) :
  keeps st1 st2 -> keeps st2 st3 -> keeps st1 st3.
Proof.
  intros H12 H23 j e H. destruct (H12 j e H) as (e' & H' & E').
  destruct (H23 j e' H') as (e'' & H'' & E''). exists e''.
  split; [exact H''|congruence].
Qed.

Lemma table_wf_empty : table_wf ok empty_store.
Proof.
  split; [|split].
  - intros j e H. cbn [table empty_store] in H.
    rewrite lookup_empty in H. discriminate.
  - reflexivity.
  - reflexivity.
Qed.

Lemma wf_store_ok (st : store) : table_wf ok st -> store_ok st.
Proof.
  intros (He & Hlen & Hlt). split; [exact Hlt|]. split; [lia|].
  intros i [e Hi]. destruct (He i e Hi) as (_ & _ & Hl).
  apply (lookup_hit _ _ _ Hl).
Qed.

(** Writing a slot of key [b0] where [lookup] points for [b0]. *)
Lemma wf_write (st : store) (b0 i n : Z) (s : slot_t) :
  table_wf ok st -> lookup (table st) b0 = Some i ->
  ok s -> getboard s = b0 -> b0 <> 0 ->
  (table st !! i = None -> n = table_len st + 1 /\ n < table_size) ->
  (is_Some (table st !! i) -> n = table_len st) ->
  table_wf ok (Store (<[i := s]> (table st)) n).
Proof.
  intros (He & Hlen & Hlt) Hl Hs Hb Hnz Hnew Hold.
  split; [|split]; cbn [table table_len].
  - intros j e Hj. destruct (Z.eq_dec j i) as [->|Hne].
    + rewrite lookup_insert_eq in Hj. inversion Hj; subst e.
      split; [exact Hs|]. split; [congruence|].
      rewrite Hb. apply lookup_write_same; assumption.
    + rewrite lookup_insert_ne in Hj by congruence.
      destruct (He j e Hj) as (Hok & Hn0 & Hlj).
      split; [exact Hok|]. split; [exact Hn0|].
      assert (Hkey : getboard e <> b0).
      { intros E. rewrite E in Hlj. congruence. }
      apply (lookup_write_other (table st) b0 (getboard e) i j s);
        try assumption.
      rewrite (table_at_some _ _ _ Hj). reflexivity.
  - destruct (table st !! i) as [e|] eqn:Ei.
    + rewrite map_size_insert_Some by eauto.
      rewrite (Hold ltac:(eauto)). exact Hlen.
    + rewrite map_size_insert_None by exact Ei.
      destruct (Hnew eq_refl) as [-> _]. lia.
  - destruct (table st !! i) as [e|] eqn:Ei.
    + rewrite (Hold ltac:(eauto)). exact Hlt.
    + apply (Hnew eq_refl).
Qed.

Lemma reachable_canonical_nonzero (b m : Z) :
  reachable b m -> canonicalize b <> 0.
Proof.
  intros Hr E. destruct (reachable_boards b m Hr) as (Hb & _ & _ & Ht).
  pose proof (tfield_canonicalize b Hb) as Ht0. rewrite E in Ht0.
  change (tfield 0) with 0 in Ht0. lia.
Qed.

(** [eval] keeps the table well formed. *)
Lemma eval_wf (fuel : nat) :
  forall b m st,
    reachable b m -> table_wf ok st ->
    eval_post ok (canonicalize b) st (eval fuel b m st).
Proof.
  induction fuel as [|fuel IH]; intros b m st Hr Hwf; [exact I|].
  destruct (reachable_boards b m Hr) as (Hb & Hm & Ht & Htr).
  pose proof (canonicalize_board b Hb) as Hb0.
  pose proof (reachable_canonical_nonzero b m Hr) as Hnz.
  destruct (init_law _ Hb0) as [Hiok Hib].
  destruct (lookup (table st) (canonicalize b)) as [i|] eqn:Hl.
  2:{ rewrite (eval_no_slot _ _ _ _ Hl). exact I. }
  rewrite (eval_slot _ _ _ _ _ Hl). cbv zeta.
  destruct (lookup_hit (table st) (canonicalize b) i Hl) as [Hi Hh].
  destruct (Z.eqb_spec (getboard (table_at (table st) i)) 0) as [E0|E0].
  2:{ (* the slot is in the table *)
    cbn [eval_post]. destruct (table st !! i) as [e|] eqn:Ei.
    - rewrite (table_at_some _ _ _ Ei) in E0 |- *.
      apply hit_true in Hh. rewrite (table_at_some _ _ _ Ei) in Hh.
      destruct Hh as [E|E]; [contradiction|].
      destruct (proj1 Hwf i e Ei) as (Hok & _ & _).
      split; [exact Hwf|]. split; [apply keeps_refl|].
      split; [split; assumption|]. exists i. exact Ei.
    - rewrite (table_at_none _ _ Ei), zero_board in E0. contradiction. }
  (* a new slot *)
  assert (Ei : table st !! i = None).
  { destruct (table st !! i) as [e|] eqn:Ei; [|reflexivity]. exfalso.
    rewrite (table_at_some _ _ _ Ei) in E0.
    destruct (proj1 Hwf i e Ei) as (_ & Hn & _). contradiction. }
  unfold bind at 1.
  destruct (count_entry_cases st (wf_store_ok st Hwf)) as [E|[Hn E]];
    rewrite E; [exact I|].
  unfold bind at 1. unfold write at 1. cbn [table table_len].
  set (st2 := Store (<[i := init (canonicalize b)]> (table st))
                    (table_len st + 1)).
  assert (Hwf2 : table_wf ok st2).
  { apply (wf_write st (canonicalize b)); try assumption.
    - intros _. split; [reflexivity|exact Hn].
    - intros [e He]. congruence. }
  assert (Hk2 : keeps st st2).
  { intros j e Hj. exists e. split; [|reflexivity]. unfold st2.
    cbn [table]. rewrite lookup_insert_ne by congruence. exact Hj. }
  assert (Hi2 : table st2 !! i = Some (init (canonicalize b)))
    by (unfold st2; cbn [table]; apply lookup_insert_eq).
  assert (Hfinish : forall st3 s,
             table_wf ok st3 -> keeps st2 st3 ->
             labelled ok (canonicalize b) s ->
             eval_post ok (canonicalize b) st
               (Ret (s, Store (<[i := s]> (table st3)) (table_len st3)))).
  { intros st3 s Hwf3 Hk3 [Hsok Hsb]. cbn [eval_post].
    destruct (Hk3 i _ Hi2) as (e' & He' & Eb'). rewrite Hib in Eb'.
    destruct (proj1 Hwf3 i e' He') as (_ & _ & Hl3). rewrite Eb' in Hl3.
    split; [|split; [|split]].
    - apply (wf_write st3 (canonicalize b)); try assumption.
      + intros E'. congruence.
      + intros _. reflexivity.
    - intros j e Hj. destruct (Hk2 j e Hj) as (e2 & Hj2 & E2).
      destruct (Hk3 j e2 Hj2) as (e3 & Hj3 & E3). exists e3.
      split; [|congruence]. cbn [table].
      rewrite lookup_insert_ne by congruence. exact Hj3.
    - split; assumption.
    - exists i. cbn [table]. apply lookup_insert_eq. }
  clearbody st2.
  destruct (iscomplete b m) eqn:Ecomp.
  { unfold bind, write, ret. apply (Hfinish st2).
    - exact Hwf2.
    - apply keeps_refl.
    - destruct (score_law _ Hb0). split; assumption. }
  destruct (nomoves b m) eqn:Enm.
  { unfold bind at 1.
    assert (Hr' : reachable (pass b) (pass m))
      by (apply reachable_pass; assumption).
    pose proof (IH _ _ st2 Hr' Hwf2) as HE.
    destruct (eval fuel (pass b) (pass m) st2) as [[s1 st3]| | |];
      try exact I.
    destruct HE as (Hwf3 & Hk3 & [Hs1 _] & _).
    unfold bind, write, ret. apply (Hfinish st3); try assumption.
    destruct (setboard_law s1 _ Hs1 Hb0). split; assumption. }
  (* the loop over the cells *)
  unfold bind at 1.
  match goal with
  | |- context [for_each cells ?body ?a0 st2] =>
      pose proof (for_each_inv
                    (fun x st' => table_wf ok st' /\ keeps st2 st'
                                  /\ labelled ok (canonicalize b) x)
                    cells body) as HL;
      specialize (fun H => HL H a0 st2);
      destruct (for_each cells body a0 st2) as [[s2 st3]| | |] eqn:Eloop
  end; try exact I.
  - unfold bind, write, ret.
    destruct HL as (Hwf3 & Hk3 & Hs2).
    + intros a j st4 Hj (Hwf4 & Hk4 & [Ha Hab]).
      apply in_cells in Hj.
      destruct (valid m j) eqn:Ev;
        [|cbn [ret]; split; [exact Hwf4|split; [exact Hk4|split; assumption]]].
      unfold bind at 1.
      assert (Hr' : reachable (place b j) (mask m j))
        by (apply reachable_place; assumption).
      pose proof (IH _ _ st4 Hr' Hwf4) as HE.
      destruct (eval fuel (place b j) (mask m j) st4) as [[s1 st5]| | |];
        try exact I.
      destruct HE as (Hwf5 & Hk5 & [Hs1 _] & _). cbn [ret].
      split; [exact Hwf5|]. split; [exact (keeps_trans _ _ _ Hk4 Hk5)|].
      destruct (setboard_law s1 _ Hs1 Hb0) as [Hx Hxb].
      assert (Hxa : getboard (setboard s1 (canonicalize b)) = getboard a)
        by congruence.
      destruct (combine_law a _ Ha Hx Hxa) as [Hc Hcb].
      split; [exact Hc|congruence].
    + split; [exact Hwf2|]. split; [apply keeps_refl|].
      split; assumption.
    + apply (Hfinish st3); assumption.
Qed.

End TableInvariant.

(** ** Properties of [lookup] *)

Section LookupTheorems.

Context {strat : Strategy} {ok : slot_t -> Prop}.
Context {laws : StrategyLaws strat ok}.

(** X18. [lookup] is linear probing from the hash of the board: it returns
    index [j] exactly when [j] is the first index, in the cyclic order that
    starts at [hash b mod table_size], whose slot is empty or holds [b];
    and its loop never ends exactly when the table is full of other keys,
    no slot being empty or holding [b]. *)
Theorem lookup_probes_linearly (t : gmap Z slot_t) (b : Z) :
  (forall j,
     lookup t b = Some j <->
     exists k, 0 <= k < table_size
               /\ j = (hash b + k) mod table_size
               /\ hit t b j = true
               /\ forall k', 0 <= k' < k ->
                    hit t b ((hash b + k') mod table_size) = false)
  /\ (lookup t b = None <->
      forall i, 0 <= i < table_size ->
        getboard (table_at t i) <> 0 /\ getboard (table_at t i) <> b).
Proof.
  split; [intros j; apply lookup_first|].
  rewrite lookup_none. split; intros H i Hi.
  - apply hit_false, H, Hi.
  - apply hit_false, H, Hi.
Qed.

(** X19. What the assertion on [table_len] in [eval] buys: in a table with
    room, [lookup] returns for every board, and the slot it returns is in
    the table and is empty or holds the board. *)
Theorem lookup_finds_slot (st : store) (b : Z) :
  store_ok st ->
  exists i, lookup (table st) b = Some i
            /\ 0 <= i < table_size
            /\ (getboard (table_at (table st) i) = 0
                \/ getboard (table_at (table st) i) = b).
Proof.
  intros Hok. destruct (lookup_found st b Hok) as (i & Hl & Hi & Hh).
  exists i. split; [exact Hl|]. split; [exact Hi|].
  apply hit_cases, Hh.
Qed.

(** X20. Writing a slot labelled [b] where [lookup] points for [b] is
    stable: [lookup] still returns that index for [b], and every other
    nonzero key stored in the table is still found at its own index, which
    is not the one written. *)
Theorem lookup_survives_write (t : gmap Z slot_t) (b i : Z) (s : slot_t) :
  lookup t b = Some i -> getboard s = b -> b <> 0 ->
  lookup (<[i := s]> t) b = Some i
  /\ forall b' j,
       lookup t b' = Some j -> getboard (table_at t j) = b' ->
       b' <> 0 -> b' <> b ->
       lookup (<[i := s]> t) b' = Some j /\ j <> i.
Proof.
  intros Hl Hs Hb. split.
  - apply lookup_write_same; assumption.
  - intros b' j Hl' Hj Hb' Hne.
    apply (lookup_write_other t b b' i j s); assumption.
Qed.

End LookupTheorems.

Lemma lookup_finds_slot_witness :
  exists i, lookup (table (@empty_store Minimax.strategy)) INIT = Some i
            /\ 0 <= i < table_size
            /\ (getboard (table_at (table (@empty_store Minimax.strategy)) i)
                = 0
                \/ getboard
                     (table_at (table (@empty_store Minimax.strategy)) i)
                   = INIT).
Proof.
  apply (lookup_finds_slot (laws := minimax_laws)). apply store_ok_empty.
Defined.

Lemma lookup_survives_write_witness :
  let t := (∅ : gmap Z (@slot_t Minimax.strategy)) in
  let s := (Minimax.init INIT : @slot_t Minimax.strategy) in
  @lookup Minimax.strategy (<[1195008 := s]> t) INIT = Some 1195008
  /\ forall b' j,
       @lookup Minimax.strategy t b' = Some j ->
       getboard (table_at t j) = b' ->
       b' <> 0 -> b' <> INIT ->
       @lookup Minimax.strategy (<[1195008 := s]> t) b' = Some j
       /\ j <> 1195008.
Proof.
  intros t s.
  apply (lookup_survives_write (strat := Minimax.strategy)
           t INIT 1195008 s).
  - vm_compute. reflexivity.
  - vm_compute. reflexivity.
  - discriminate.
Defined.

(** ** What [eval] returns *)

Lemma ret_eq {strat : Strategy} {A : Type} (d : A) (r : result (A * store)) :
  is_ret r = true -> r = Ret (ret_value d r, ret_store r).
Proof. destruct r as [[a st]| | |]; [reflexivity|discriminate..]. Qed.

Lemma last_choice_runs :
  run game_rule (removelast sample_game) (INIT, INIT) = Some last_choice.
Proof. vm_compute. reflexivity. Qed.

Lemma last_choice_reachable :
  reachable (fst last_choice) (snd last_choice).
Proof.
  apply (run_reachable (removelast sample_game) INIT INIT _ _
           reachable_init).
  exact last_choice_runs.
Qed.

Section EvalTheorems.

Context {strat : Strategy} {ok : slot_t -> Prop}.
Context {laws : StrategyLaws strat ok}.

Lemma table_sound_empty : table_sound empty_store.
Proof.
  intros j e H. cbn [table empty_store] in H.
  rewrite lookup_empty in H. discriminate.
Qed.

(** From a table whose slots are final, [eval] returns the value of the
    position and leaves such a table. *)
Lemma eval_sound (fuel : nat) (b m : Z) (st st' : store) (s : slot_t) :
  reachable b m -> table_sound st ->
  eval fuel b m st = Ret (s, st') ->
  s = eval_value b m /\ table_sound st'.
Proof.
  intros Hr Hs He.
  destruct (reachable_boards b m Hr) as (_ & _ & _ & Ht).
  assert (Hf : final_from (tfield b) st)
    by (apply (final_from_mono 1); [lia|exact Hs]).
  destruct (eval_correct fuel b m st s st' Hr Hf He) as [E Hev].
  split; [exact E|].
  apply (final_from_evolves 1 st st' Hs).
  apply (evolves_mono 1 (tfield b)); [lia|exact Hev].
Qed.

(** X21. Memoization and symmetry reduction do not change the result:
    from a table whose slots are final, on a position of the game tree,
    [eval] returns the value that the recursion without the table gives,
    labelled with the canonical board, and leaves a table whose slots are
    final. *)
Theorem eval_returns_value (fuel : nat) (b m : Z) (st st' : store)
        (s : slot_t) :
  reachable b m -> table_sound st ->
  eval fuel b m st = Ret (s, st') ->
  s = eval_value b m /\ getboard s = canonicalize b /\ table_sound st'.
Proof.
  intros Hr Hs He. destruct (eval_sound fuel b m st st' s Hr Hs He) as [E H].
  split; [exact E|]. split; [|exact H].
  rewrite E. apply (eval_value_labelled b m Hr).
Qed.

(** X22. The slot that [eval] returns for a position is built from the
    slots it returns for the children: the score of the canonical board
    when the game is complete; the slot of the position after the pass,
    relabelled, when the mover has no move; and otherwise the fold of
    [combine], from [init], over the relabelled slots of the positions
    after each valid placement, in ascending order of the cells. *)
Theorem eval_combines_children (fuel : nat) (b m : Z) (st st' : store)
        (s : slot_t) :
  reachable b m -> table_sound st ->
  eval fuel b m st = Ret (s, st') ->
  (iscomplete b m = true -> s = score (canonicalize b))
  /\ (iscomplete b m = false -> nomoves b m = true ->
      forall f st1 st1' s1,
        table_sound st1 ->
        eval f (pass b) (pass m) st1 = Ret (s1, st1') ->
        s = setboard s1 (canonicalize b))
  /\ (iscomplete b m = false -> nomoves b m = false ->
      forall r : Z -> slot_t,
        (forall i, 0 <= i < 25 -> valid m i = true ->
           exists f sti sti',
             table_sound sti
             /\ eval f (place b i) (mask m i) sti = Ret (r i, sti')) ->
        s = children_fold b m r).
Proof.
  intros Hr Hs He. destruct (eval_sound fuel b m st st' s Hr Hs He) as [E _].
  pose proof (eval_value_eq b m Hr) as HV. rewrite <- E in HV.
  split; [|split].
  - intros Ec. rewrite Ec in HV. exact HV.
  - intros Ec En f st1 st1' s1 Hs1 He1. rewrite Ec, En in HV.
    assert (Hr' : reachable (pass b) (pass m))
      by (apply reachable_pass; assumption).
    destruct (eval_sound f _ _ st1 st1' s1 Hr' Hs1 He1) as [-> _].
    exact HV.
  - intros Ec En r Hch. rewrite Ec, En in HV. rewrite HV.
    apply children_fold_ext. intros i Hi Hv.
    destruct (Hch i Hi Hv) as (f & sti & sti' & Hsi & Hei).
    assert (Hr' : reachable (place b i) (mask m i))
      by (apply reachable_place; assumption).
    destruct (eval_sound f _ _ sti sti' (r i) Hr' Hsi Hei) as [-> _].
    reflexivity.
Qed.

(** X23. Positions with the same canonical board get the same slot: two
    calls of [eval] on such positions of the game tree, from any two
    tables whose slots are final, return the same slot. *)
Theorem eval_same_on_symmetric (f f' : nat) (b m b' m' : Z)
        (st st1 st' st1' : store) (s s' : slot_t) :
  reachable b m -> reachable b' m' ->
  canonicalize b = canonicalize b' ->
  table_sound st -> table_sound st' ->
  eval f b m st = Ret (s, st1) -> eval f' b' m' st' = Ret (s', st1') ->
  s = s'.
Proof.
  intros Hr Hr' Ec Hs Hs' He He'.
  destruct (eval_sound f b m st st1 s Hr Hs He) as [-> _].
  destruct (eval_sound f' b' m' st' st1' s' Hr' Hs' He') as [-> _].
  apply eval_value_canonical; assumption.
Qed.

(** X24. A second call is a table hit: from a well-formed table, after
    [eval] has returned for a position of the game tree, the table is well
    formed, has kept every slot it had under its key, and a further call
    on the same position returns the same slot and leaves the table as it
    is. *)
Theorem eval_again_is_cached (fuel : nat) (b m : Z) (st st' : store)
        (s : slot_t) :
  reachable b m -> table_wf ok st ->
  eval fuel b m st = Ret (s, st') ->
  table_wf ok st' /\ keeps st st'
  /\ forall fuel', eval (S fuel') b m st' = Ret (s, st').
Proof.
  intros Hr Hwf He. pose proof (eval_wf fuel b m st Hr Hwf) as HP.
  rewrite He in HP. destruct HP as (Hwf' & Hk & [Hsok Hsb] & i & Hi).
  split; [exact Hwf'|]. split; [exact Hk|]. intros fuel'.
  destruct (proj1 Hwf' i s Hi) as (_ & Hnz & Hl). rewrite Hsb in Hl.
  rewrite (eval_slot _ _ _ _ _ Hl). cbv zeta.
  rewrite (table_at_some _ _ _ Hi).
  destruct (Z.eqb_spec (getboard s) 0) as [E|_]; [contradiction|].
  reflexivity.
Qed.

(** X25. [table_len] counts the slots in use: from a well-formed table,
    after [eval] has returned, [table_len] is the number of written slots
    and is below the size of the table, every written slot holds a nonzero
    key at an index of the table, and no key is stored twice. *)
Theorem table_len_counts_slots (fuel : nat) (b m : Z) (st st' : store)
        (s : slot_t) :
  reachable b m -> table_wf ok st ->
  eval fuel b m st = Ret (s, st') ->
  table_len st' = Z.of_nat (size (table st'))
  /\ table_len st' < table_size
  /\ (forall j e, table st' !! j = Some e ->
        getboard e <> 0 /\ 0 <= j < table_size)
  /\ (forall j j' e e',
        table st' !! j = Some e -> table st' !! j' = Some e' ->
        getboard e = getboard e' -> j = j').
Proof.
  intros Hr Hwf He. pose proof (eval_wf fuel b m st Hr Hwf) as HP.
  rewrite He in HP. destruct HP as ((Hent & Hlen & Hlt) & _).
  split; [exact Hlen|]. split; [exact Hlt|]. split.
  - intros j e Hj. destruct (Hent j e Hj) as (_ & Hnz & Hl).
    split; [exact Hnz|]. apply (lookup_hit _ _ _ Hl).
  - intros j j' e e' Hj Hj' E.
    destruct (Hent j e Hj) as (_ & _ & Hl).
    destruct (Hent j' e' Hj') as (_ & _ & Hl').
    rewrite E in Hl. congruence.
Qed.

End EvalTheorems.

Lemma eval_returns_value_witness :
  let r := @eval Minimax.strategy 10 (fst forced_pass_position)
                 (snd forced_pass_position) empty_store in
  ret_value (@zero Minimax.strategy) r
  = @eval_value Minimax.strategy (fst forced_pass_position) (snd forced_pass_position)
  /\ getboard (ret_value (@zero Minimax.strategy) r) = canonicalize (fst forced_pass_position)
  /\ table_sound (ret_store r).
Proof.
  intros r.
  apply (eval_returns_value (laws := minimax_laws) 10
           (fst forced_pass_position) (snd forced_pass_position)
           empty_store).
  - exact forced_pass_reachable.
  - apply table_sound_empty.
  - apply ret_eq. vm_compute. reflexivity.
Defined.

Lemma eval_combines_children_witness :
  let b := fst last_choice in
  let m := snd last_choice in
  let r := @eval Minimax.strategy 10 b m empty_store in
  (iscomplete b m = true -> ret_value (@zero Minimax.strategy) r = score (canonicalize b))
  /\ (iscomplete b m = false -> nomoves b m = true ->
      forall f st1 st1' s1,
        table_sound st1 ->
        eval f (pass b) (pass m) st1 = Ret (s1, st1') ->
        ret_value (@zero Minimax.strategy) r = setboard s1 (canonicalize b))
  /\ (iscomplete b m = false -> nomoves b m = false ->
      forall r' : Z -> slot_t,
        (forall i, 0 <= i < 25 -> valid m i = true ->
           exists f sti sti',
             table_sound sti
             /\ eval f (place b i) (mask m i) sti = Ret (r' i, sti')) ->
        ret_value (@zero Minimax.strategy) r = children_fold b m r').
Proof.
  intros b m r.
  apply (eval_combines_children (laws := minimax_laws) 10 b m empty_store
           (ret_store r)).
  - exact last_choice_reachable.
  - apply table_sound_empty.
  - apply ret_eq. vm_compute. reflexivity.
Defined.

Lemma eval_same_on_symmetric_witness :
  ret_value (@zero Minimax.strategy)
    (@eval Minimax.strategy 10 (fst forced_pass_position)
           (snd forced_pass_position) empty_store)
  = ret_value (@zero Minimax.strategy)
      (@eval Minimax.strategy 10 (transpose (fst forced_pass_position))
             (transpose (snd forced_pass_position)) empty_store).
Proof.
  eapply (eval_same_on_symmetric (laws := minimax_laws) 10 10
            (fst forced_pass_position) (snd forced_pass_position)
            (transpose (fst forced_pass_position))
            (transpose (snd forced_pass_position))
            empty_store _ empty_store _).
  - exact forced_pass_reachable.
  - apply (reachable_act [GT]). exact forced_pass_reachable.
  - vm_compute. reflexivity.
  - apply table_sound_empty.
  - apply table_sound_empty.
  - apply ret_eq. vm_compute. reflexivity.
  - apply ret_eq. vm_compute. reflexivity.
Defined.

Lemma eval_again_is_cached_witness :
  let r := @eval Minimax.strategy 10 (fst forced_pass_position)
                 (snd forced_pass_position) empty_store in
  @table_wf Minimax.strategy is_slot (ret_store r)
  /\ keeps empty_store (ret_store r)
  /\ forall fuel',
       eval (S fuel') (fst forced_pass_position) (snd forced_pass_position)
            (ret_store r)
       = Ret (ret_value (@zero Minimax.strategy) r, ret_store r).
Proof.
  intros r.
  apply (eval_again_is_cached (laws := minimax_laws) 10
           (fst forced_pass_position) (snd forced_pass_position)
           empty_store).
  - exact forced_pass_reachable.
  - apply table_wf_empty.
  - apply ret_eq. vm_compute. reflexivity.
Defined.

Lemma table_len_counts_slots_witness :
  let st' := ret_store
               (@eval Minimax.strategy 10 (fst forced_pass_position)
                      (snd forced_pass_position) empty_store) in
  table_len st' = Z.of_nat (size (table st'))
  /\ table_len st' < table_size
  /\ (forall j e, table st' !! j = Some e ->
        getboard e <> 0 /\ 0 <= j < table_size)
  /\ (forall j j' e e',
        table st' !! j = Some e -> table st' !! j' = Some e' ->
        getboard e = getboard e' -> j = j').
Proof.
  intros st'.
  eapply (table_len_counts_slots (laws := minimax_laws) 10
            (fst forced_pass_position) (snd forced_pass_position)
            empty_store st' _).
  - exact forced_pass_reachable.
  - apply table_wf_empty.
  - apply (ret_eq (@zero Minimax.strategy)). vm_compute. reflexivity.
Defined.

(** ** What [suggest] returns *)

Lemma choice_position_runs :
  run game_rule (firstn 10 forced_pass_game) (INIT, INIT)
  = Some choice_position.
Proof. vm_compute. reflexivity. Qed.

Lemma choice_position_reachable :
  reachable (fst choice_position) (snd choice_position).
Proof.
  apply (run_reachable (firstn 10 forced_pass_game) INIT INIT _ _
           reachable_init).
  exact choice_position_runs.
Qed.

Lemma suggest_unfold {strat : Strategy} (fuel : nat) (b m : Z) (st : store) :
  suggest fuel b m st
  = match for_each cells (suggest_step fuel b m) (init b, []) st with
    | Ret (r, st') => Ret (snd r, st')
    | AssertFail => AssertFail
    | Loops => Loops
    | OutOfFuel => OutOfFuel
    end.
Proof. reflexivity. Qed.

Lemma for_each_cons {strat : Strategy} {A : Type} (i : Z) (l : list Z)
      (body : A -> Z -> M A) (a : A) (st : store) :
  for_each (i :: l) body a st
  = match body a i st with
    | Ret (a', st') => for_each l body a' st'
    | AssertFail => AssertFail
    | Loops => Loops
    | OutOfFuel => OutOfFuel
    end.
Proof. reflexivity. Qed.

Lemma suggest_step_invalid {strat : Strategy} (fuel : nat) (b m : Z)
      (best : slot_t) (mv : list Z) (i : Z) (st : store) :
  valid m i = false ->
  suggest_step fuel b m (best, mv) i st = Ret ((best, mv), st).
Proof. intros E. unfold suggest_step. rewrite E. reflexivity. Qed.

Lemma suggest_step_valid {strat : Strategy} (fuel : nat) (b m : Z)
      (best : slot_t) (mv : list Z) (i : Z) (st : store) :
  valid m i = true ->
  suggest_step fuel b m (best, mv) i st
  = match eval fuel (place b i) (mask m i) st with
    | Ret (s, st') =>
        let s := setboard s b in
        let c := compare best s in
        Ret (if c >? 0 then (s, [i])
             else if c =? 0 then (best, mv ++ [i])
             else (best, mv), st')
    | AssertFail => AssertFail
    | Loops => Loops
    | OutOfFuel => OutOfFuel
    end.
Proof.
  intros E. unfold suggest_step. rewrite E. unfold bind.
  destruct (eval fuel (place b i) (mask m i) st) as [[s st']| | |];
    try reflexivity.
  cbv zeta. destruct (_ >? 0); [reflexivity|].
  destruct (_ =? 0); reflexivity.
Qed.

Lemma length_cells : length cells = 25%nat.
Proof. reflexivity. Qed.

(** The moves are picked among the valid cells, in their order. *)
Lemma suggest_loop_sublist {strat : Strategy} (fuel : nat) (b m : Z) :
  forall l best mv st r st',
    for_each l (suggest_step fuel b m) (best, mv) st = Ret (r, st') ->
    sublist (snd r) (mv ++ List.filter (valid m) l).
Proof.
  induction l as [|i l IH]; intros best mv st r st' H.
  - cbn [for_each ret] in H. inversion H; subst. cbn [snd List.filter].
    rewrite app_nil_r. reflexivity.
  - rewrite for_each_cons in H. cbn [List.filter].
    destruct (valid m i) eqn:Ev.
    + rewrite (suggest_step_valid _ _ _ _ _ _ _ Ev) in H.
      destruct (eval fuel (place b i) (mask m i) st) as [[s st1]| | |];
        try discriminate.
      cbv zeta in H.
      destruct (compare best (setboard s b) >? 0).
      * apply IH in H. apply sublist_inserts_l. exact H.
      * destruct (compare best (setboard s b) =? 0).
        -- apply IH in H. rewrite <- app_assoc in H. exact H.
        -- apply IH in H.
           etransitivity; [exact H|].
           apply sublist_app; [reflexivity|]. apply sublist_cons.
           reflexivity.
    + rewrite (suggest_step_invalid _ _ _ _ _ _ _ Ev) in H.
      apply IH in H. exact H.
Qed.

(** X26. [suggest] returns valid cells in ascending order, each at most
    once: its list is a sublist of the valid cells, so it has at most 25
    entries and fits the array of the caller. *)
Theorem suggest_picks_valid_cells {strat : Strategy} (fuel : nat)
        (b m : Z) (st st' : store) (l : list Z) :
  suggest fuel b m st = Ret (l, st') ->
  sublist l (List.filter (valid m) cells) /\ (length l <= 25)%nat.
Proof.
  intros H. rewrite suggest_unfold in H.
  destruct (for_each cells (suggest_step fuel b m) (init b, []) st)
    as [[r st1]| | |] eqn:E; try discriminate.
  inversion H; subst. apply suggest_loop_sublist in E.
  rewrite app_nil_l in E. split; [exact E|].
  apply sublist_length in E.
  pose proof (filter_length_le (valid m) cells) as Hle.
  rewrite length_cells in Hle. lia.
Qed.

Lemma suggest_picks_valid_cells_witness :
  let l := ret_value []
             (@suggest Minimax.strategy 30 (fst choice_position)
                       (snd choice_position) empty_store) in
  sublist l (List.filter (valid (snd choice_position)) cells)
  /\ (length l <= 25)%nat.
Proof.
  intros l.
  refine (suggest_picks_valid_cells (strat := Minimax.strategy) 30
            (fst choice_position) (snd choice_position) empty_store
            (ret_store (@suggest Minimax.strategy 30 (fst choice_position)
                                 (snd choice_position) empty_store))
            l (ret_eq [] _ _)).
  vm_compute. reflexivity.
Defined.

(** The tally loop keeps every valid cell. *)
Lemma suggest_loop_tally (fuel : nat) (b m : Z) :
  forall l best mv st r st',
    for_each l (@suggest_step Tally.strategy fuel b m) (best, mv) st
    = Ret (r, st') ->
    snd r = mv ++ List.filter (valid m) l.
Proof.
  induction l as [|i l IH]; intros best mv st r st' H.
  - cbn [for_each ret] in H. inversion H; subst. cbn [snd List.filter].
    rewrite app_nil_r. reflexivity.
  - rewrite for_each_cons in H. cbn [List.filter].
    destruct (valid m i) eqn:Ev.
    + rewrite (suggest_step_valid _ _ _ _ _ _ _ Ev) in H.
      destruct (eval fuel (place b i) (mask m i) st) as [[s st1]| | |];
        try discriminate.
      cbv zeta in H. cbn [compare Tally.strategy Tally.compare] in H.
      cbn [Z.gtb Z.eqb Z.compare] in H.
      apply IH in H. rewrite <- app_assoc in H. exact H.
    + rewrite (suggest_step_invalid _ _ _ _ _ _ _ Ev) in H.
      apply IH in H. exact H.
Qed.

(** X27. With the tally strategy, whose [compare] is constantly 0,
    [suggest] returns every valid cell. *)
Theorem tally_suggest_all_valid (fuel : nat) (b m : Z) (st st' : store)
        (l : list Z) :
  @suggest Tally.strategy fuel b m st = Ret (l, st') ->
  l = List.filter (valid m) cells.
Proof.
  intros H. rewrite suggest_unfold in H.
  destruct (for_each cells (suggest_step fuel b m) (init b, []) st)
    as [[r st1]| | |] eqn:E; try discriminate.
  inversion H; subst. apply suggest_loop_tally in E.
  rewrite app_nil_l in E. exact E.
Qed.

Lemma tally_suggest_all_valid_witness :
  ret_value []
    (@suggest Tally.strategy 30 (fst choice_position)
              (snd choice_position) empty_store)
  = List.filter (valid (snd choice_position)) cells.
Proof.
  eapply (tally_suggest_all_valid 30 (fst choice_position)
            (snd choice_position) empty_store _ _).
  apply (ret_eq []). vm_compute. reflexivity.
Defined.

(** ** The minimax [suggest] returns the best moves *)

Lemma minimax_laws_range : StrategyLaws Minimax.strategy score_ok.
Proof.
  constructor; cbn [slot_t zero init getboard setboard score combine
                    Minimax.strategy].
  - reflexivity.
  - intros b Hb. destruct (minimax_init_fields b Hb) as [E1 E2].
    split; [|exact E1]. split.
    + rewrite init_packed.
      apply packed_slot; [destruct (truthy _); lia|exact Hb].
    + rewrite E2. destruct (Z.odd _); lia.
  - intros b Hb. destruct (minimax_score_pieces b Hb) as (H1 & H2 & H3).
    pose proof (pieces_length_range b) as [HA HB].
    split; [|exact H1]. split; [exact H3|]. rewrite H2. lia.
  - intros s b [Hs Hr] Hb.
    destruct (minimax_setboard_fields s b Hs Hb) as (E1 & E2 & E3).
    split; [|exact E1]. split; [|rewrite E3; exact Hr].
    pose proof (slot_split (Minimax.setboard s b)) as E. rewrite E1, E2 in E.
    rewrite E. apply packed_slot; [|exact Hb].
    apply (shiftr_range s 62 56); [exact Hs|lia].
  - intros a x Ha Hx Hl. split.
    + rewrite combine_mode.
      destruct (mover_is_A a); [destruct (_ >? _)|destruct (_ <? _)];
        assumption.
    + apply minimax_combine_label. exact Hl.
  - intros a x y [Ha _] [Hx _] [Hy _] Lx Ly.
    assert (U : forall s, is_slot s -> is_u64 s)
      by (unfold is_slot, is_u64; intros; lia).
    apply (minimax_combine_swap (Minimax.getboard a)); auto.
Qed.

Lemma alag_refl (b x : Z) : at_least_as_good b x x.
Proof. unfold at_least_as_good. destruct (Z.odd _); lia. Qed.

Lemma alag_trans (b x y z : Z) :
  at_least_as_good b x y -> at_least_as_good b y z ->
  at_least_as_good b x z.
Proof. unfold at_least_as_good. destruct (Z.odd _); lia. Qed.

Lemma alag_antisym (b x y : Z) :
  at_least_as_good b x y -> at_least_as_good b y x -> x = y.
Proof. unfold at_least_as_good. destruct (Z.odd _); lia. Qed.

(** The sign of [compare best s] for a [best] labelled [b]. *)
Lemma compare_cases (b best s : Z) :
  Minimax.getboard best = b ->
  let c := Minimax.compare best s in
  let x := Minimax.getscore s in
  let y := Minimax.getscore best in
  if c >? 0 then at_least_as_good b x y /\ x <> y
  else if c =? 0 then x = y
  else at_least_as_good b y x /\ x <> y.
Proof.
  intros Hb. cbv zeta. rewrite compare_mode.
  unfold mover_is_A, at_least_as_good. rewrite Hb. fold (tfield b).
  destruct (Z.odd (tfield b)).
  - destruct (Z.gtb_spec (Minimax.getscore s - Minimax.getscore best) 0);
      [lia|].
    destruct (Z.eqb_spec (Minimax.getscore s - Minimax.getscore best) 0);
      lia.
  - destruct (Z.gtb_spec (Minimax.getscore best - Minimax.getscore s) 0);
      [lia|].
    destruct (Z.eqb_spec (Minimax.getscore best - Minimax.getscore s) 0);
      lia.
Qed.

Lemma suggest_inv_skip (b m : Z) (done : list Z) (best : Z) (mv : list Z)
      (i : Z) :
  valid m i = false ->
  suggest_inv b m done best mv -> suggest_inv b m (done ++ [i]) best mv.
Proof.
  intros Ev (H1 & H2 & H3 & H4). split; [exact H1|]. split; [|split].
  - intros j Hj Hv. apply in_snoc in Hj. destruct Hj as [Hj| ->].
    + exact (H2 j Hj Hv).
    + rewrite Ev in Hv. discriminate Hv.
  - intros x. rewrite H3, in_snoc. split.
    + intros (Hx & Hv & E). exact (conj (or_introl Hx) (conj Hv E)).
    + intros ([Hx| ->] & Hv & E).
      * exact (conj Hx (conj Hv E)).
      * rewrite Ev in Hv. discriminate Hv.
  - destruct H4 as [E|(j & Hj & Hv & E)]; [left; exact E|].
    right. exists j. rewrite in_snoc.
    exact (conj (or_introl Hj) (conj Hv E)).
Qed.

Lemma suggest_inv_step (b m : Z) (done : list Z) (best : Z) (mv : list Z)
      (i s : Z) :
  valid m i = true ->
  Minimax.getboard s = b -> Minimax.getscore s = move_score b m i ->
  suggest_inv b m done best mv ->
  let c := Minimax.compare best s in
  let r := if c >? 0 then (s, [i])
           else if c =? 0 then (best, mv ++ [i]) else (best, mv) in
  suggest_inv b m (done ++ [i]) (fst r) (snd r).
Proof.
  intros Ev Hsb Hsv (H1 & H2 & H3 & H4). cbv zeta.
  pose proof (compare_cases b best s H1) as HC. cbv zeta in HC.
  rewrite Hsv in HC.
  destruct (Minimax.compare best s >? 0); [|destruct (_ =? 0)];
    cbn [fst snd].
  - (* a better move *)
    destruct HC as [Hg Hne]. split; [exact Hsb|]. rewrite Hsv.
    split; [|split].
    + intros j Hj Hv. apply in_snoc in Hj. destruct Hj as [Hj| ->].
      * apply (alag_trans b _ _ _ Hg). exact (H2 j Hj Hv).
      * apply alag_refl.
    + intros x. rewrite in_snoc. cbn [In]. split.
      * intros [<-|[]].
        exact (conj (or_intror eq_refl) (conj Ev eq_refl)).
      * intros ([Hx| ->] & Hv & E); [|left; reflexivity].
        exfalso. apply Hne.
        apply (alag_antisym b); [exact Hg|]. rewrite <- E.
        exact (H2 x Hx Hv).
    + right. exists i. rewrite in_snoc.
      exact (conj (or_intror eq_refl) (conj Ev eq_refl)).
  - (* as good as the best *)
    split; [exact H1|]. split; [|split].
    + intros j Hj Hv. apply in_snoc in Hj. destruct Hj as [Hj| ->].
      * exact (H2 j Hj Hv).
      * rewrite HC. apply alag_refl.
    + intros x. rewrite !in_snoc, H3. split.
      * intros [(Hx & Hv & E)| ->].
        -- exact (conj (or_introl Hx) (conj Hv E)).
        -- exact (conj (or_intror eq_refl) (conj Ev HC)).
      * intros ([Hx| ->] & Hv & E).
        -- left. exact (conj Hx (conj Hv E)).
        -- right. reflexivity.
    + destruct H4 as [E|(j & Hj & Hv & E)]; [left; exact E|].
      right. exists j. rewrite in_snoc.
      exact (conj (or_introl Hj) (conj Hv E)).
  - (* a worse move *)
    destruct HC as [Hg Hne]. split; [exact H1|]. split; [|split].
    + intros j Hj Hv. apply in_snoc in Hj. destruct Hj as [Hj| ->].
      * exact (H2 j Hj Hv).
      * exact Hg.
    + intros x. rewrite H3, in_snoc. split.
      * intros (Hx & Hv & E). exact (conj (or_introl Hx) (conj Hv E)).
      * intros ([Hx| ->] & Hv & E).
        -- exact (conj Hx (conj Hv E)).
        -- contradiction.
    + destruct H4 as [E|(j & Hj & Hv & E)]; [left; exact E|].
      right. exists j. rewrite in_snoc.
      exact (conj (or_introl Hj) (conj Hv E)).
Qed.

Lemma child_value (b m i : Z) :
  reachable b m -> iscomplete b m = false -> 0 <= i < 25 ->
  valid m i = true ->
  reachable (place b i) (mask m i)
  /\ is_slot (@eval_value Minimax.strategy (place b i) (mask m i))
  /\ -25 <= move_score b m i <= 25.
Proof.
  intros Hr Hc Hi Ev.
  assert (Hnm : nomoves b m = false).
  { destruct (nomoves b m) eqn:En; [|reflexivity].
    rewrite (proj1 (nomoves_no_valid b m Hr) En i Hi) in Ev. discriminate. }
  assert (Hr' : reachable (place b i) (mask m i))
    by (apply reachable_place; assumption).
  split; [exact Hr'|].
  destruct (eval_value_labelled (laws := minimax_laws_range) _ _ Hr')
    as [[Hslot Hrange] _].
  split; [exact Hslot|exact Hrange].
Qed.

Lemma suggest_loop_minimax (fuel : nat) (b m : Z) :
  reachable b m -> iscomplete b m = false ->
  forall l done (best : @slot_t Minimax.strategy) mv st r st',
    (forall i, In i l -> 0 <= i < 25) ->
    suggest_inv b m done best mv -> table_sound st ->
    for_each l (@suggest_step Minimax.strategy fuel b m) (best, mv) st
    = Ret (r, st') ->
    suggest_inv b m (done ++ l) (fst r) (snd r).
Proof.
  intros Hr Hc.
  destruct (reachable_boards b m Hr) as (Hb & _).
  induction l as [|i l IH]; intros done best mv st r st' Hl Hinv Hs H.
  - cbn [for_each ret] in H. inversion H; subst. cbn [fst snd].
    rewrite app_nil_r. exact Hinv.
  - rewrite for_each_cons in H.
    assert (Hi : 0 <= i < 25) by (apply Hl; left; reflexivity).
    assert (Hl' : forall x, In x l -> 0 <= x < 25)
      by (intros x Hx; apply Hl; right; exact Hx).
    replace (done ++ i :: l) with ((done ++ [i]) ++ l)
      by (rewrite <- app_assoc; reflexivity).
    destruct (valid m i) eqn:Ev.
    + rewrite (suggest_step_valid _ _ _ _ _ _ _ Ev) in H.
      destruct (child_value b m i Hr Hc Hi Ev) as (Hr' & Hslot & _).
      destruct (eval fuel (place b i) (mask m i) st) as [[s st1]| | |]
        eqn:Ee; try discriminate.
      destruct (eval_sound (laws := minimax_laws) fuel _ _ st st1 s
                  Hr' Hs Ee) as [Es Hs1].
      cbv zeta in H. cbn [compare setboard Minimax.strategy] in H.
      rewrite <- Es in Hslot.
      destruct (minimax_setboard_fields s b Hslot Hb) as (Gb & _ & Gs).
      assert (Gv : Minimax.getscore (Minimax.setboard s b)
                   = move_score b m i)
        by (rewrite Gs; unfold move_score; rewrite Es; reflexivity).
      pose proof (suggest_inv_step b m done best mv i
                    (Minimax.setboard s b) Ev Gb Gv Hinv) as Hstep.
      cbv zeta in Hstep.
      destruct (Minimax.compare best (Minimax.setboard s b) >? 0);
        [|destruct (Minimax.compare best (Minimax.setboard s b) =? 0)];
        cbn [fst snd] in Hstep;
        apply (IH _ _ _ _ _ _ Hl' Hstep Hs1 H).
    + rewrite (suggest_step_invalid _ _ _ _ _ _ _ Ev) in H.
      apply (IH _ _ _ _ _ _ Hl' (suggest_inv_skip _ _ _ _ _ _ Ev Hinv)
                Hs H).
Qed.

(** X28. The minimax [suggest] returns exactly the best moves: on a
    position of the game tree that is not complete, from a table whose
    slots are final, cell [i] is in the list if and only if it is valid
    and the minimax score of the position after it is at least as good,
    for the mover, as the score after any other valid cell. *)
Theorem minimax_suggest_optimal (fuel : nat) (b m : Z) (st st' : store)
        (l : list Z) :
  reachable b m -> iscomplete b m = false -> table_sound st ->
  @suggest Minimax.strategy fuel b m st = Ret (l, st') ->
  forall i,
    In i l <->
    0 <= i < 25 /\ valid m i = true
    /\ forall j, 0 <= j < 25 -> valid m j = true ->
         at_least_as_good b (move_score b m i) (move_score b m j).
Proof.
  intros Hr Hc Hs H. rewrite suggest_unfold in H.
  destruct (for_each cells (suggest_step fuel b m) (init b, []) st)
    as [[r st1]| | |] eqn:E; try discriminate.
  inversion H; subst. clear H.
  destruct (reachable_boards b m Hr) as (Hb & _).
  destruct (minimax_init_fields b Hb) as [Ib Is].
  assert (Hinv0 : suggest_inv b m [] (Minimax.init b) []).
  { split; [exact Ib|]. split; [intros j []|]. split; [|left; reflexivity].
    intros x. cbn [In]. tauto. }
  pose proof (suggest_loop_minimax fuel b m Hr Hc cells [] _ _ st r st'
                (fun i => proj1 (in_cells i)) Hinv0 Hs E) as Hinv.
  rewrite app_nil_l in Hinv.
  destruct Hinv as (H1 & H2 & H3 & H4). intros i. rewrite H3, in_cells.
  split.
  - intros (Hi & Ev & Ei). split; [exact Hi|]. split; [exact Ev|].
    intros j Hj Evj. rewrite Ei. apply H2; [apply in_cells|]; assumption.
  - intros (Hi & Ev & Hopt). split; [exact Hi|]. split; [exact Ev|].
    apply (alag_antisym b).
    + destruct H4 as [E0|(j & Hj & Evj & Ej)].
      * rewrite E0, Is.
        destruct (child_value b m i Hr Hc Hi Ev) as (_ & _ & Hrange).
        unfold at_least_as_good. destruct (Z.odd (tfield b)); lia.
      * rewrite <- Ej. apply Hopt; [apply in_cells|]; assumption.
    + apply H2; [apply in_cells|]; assumption.
Qed.

Lemma minimax_suggest_optimal_witness :
  let b := fst choice_position in
  let m := snd choice_position in
  let l := ret_value [] (@suggest Minimax.strategy 30 b m empty_store) in
  In 15 l <->
  0 <= 15 < 25 /\ valid m 15 = true
  /\ forall j, 0 <= j < 25 -> valid m j = true ->
       at_least_as_good b (move_score b m 15) (move_score b m j).
Proof.
  intros b m l.
  refine (minimax_suggest_optimal 30 b m empty_store
            (ret_store (@suggest Minimax.strategy 30 b m empty_store))
            l choice_position_reachable _ table_sound_empty
            (ret_eq [] _ _) 15).
  - vm_compute. reflexivity.
  - vm_compute. reflexivity.
Defined.

(** ** The space heuristic and its test *)

Lemma heuristic_step_invalid (b m best : Z) (mv : list Z) (i : Z) :
  valid m i = false -> heuristic_step b m (best, mv) i = (best, mv).
Proof. intros E. unfold heuristic_step. rewrite E. reflexivity. Qed.

Lemma heuristic_step_valid (b m best : Z) (mv : list Z) (i : Z) :
  valid m i = true ->
  heuristic_step b m (best, mv) i
  = if space_gain b m i >? best then (space_gain b m i, [i])
    else if space_gain b m i =? best then (best, mv ++ [i])
    else (best, mv).
Proof. intros E. unfold heuristic_step. rewrite E. reflexivity. Qed.

Lemma heuristic_inv_skip (b m : Z) (done : list Z) (best : Z)
      (mv : list Z) (i : Z) :
  valid m i = false ->
  heuristic_inv b m done best mv -> heuristic_inv b m (done ++ [i]) best mv.
Proof.
  intros Ev (H2 & H3 & H4). split; [|split].
  - intros j Hj Hv. apply in_snoc in Hj. destruct Hj as [Hj| ->].
    + exact (H2 j Hj Hv).
    + rewrite Ev in Hv. discriminate Hv.
  - intros x. rewrite H3, in_snoc. split.
    + intros (Hx & Hv & E). exact (conj (or_introl Hx) (conj Hv E)).
    + intros ([Hx| ->] & Hv & E).
      * exact (conj Hx (conj Hv E)).
      * rewrite Ev in Hv. discriminate Hv.
  - destruct H4 as [E|(j & Hj & Hv & E)]; [left; exact E|].
    right. exists j. rewrite in_snoc.
    exact (conj (or_introl Hj) (conj Hv E)).
Qed.

Lemma heuristic_inv_step (b m : Z) (done : list Z) (best : Z)
      (mv : list Z) (i : Z) :
  valid m i = true ->
  heuristic_inv b m done best mv ->
  let r := heuristic_step b m (best, mv) i in
  heuristic_inv b m (done ++ [i]) (fst r) (snd r).
Proof.
  intros Ev (H2 & H3 & H4). cbv zeta.
  rewrite (heuristic_step_valid b m best mv i Ev).
  remember (space_gain b m i) as v eqn:Hv.
  destruct (Z.gtb_spec v best) as [Hgt|Hle];
    [|destruct (Z.eqb_spec v best) as [Heq|Hne]]; cbn [fst snd].
  - split; [|split].
    + intros j Hj Hvj. apply in_snoc in Hj. destruct Hj as [Hj| ->].
      * pose proof (H2 j Hj Hvj). lia.
      * rewrite <- Hv. lia.
    + intros x. rewrite in_snoc. cbn [In]. split.
      * intros [<-|[]].
        exact (conj (or_intror eq_refl) (conj Ev (eq_sym Hv))).
      * intros ([Hx| ->] & Hvx & E); [|left; reflexivity].
        pose proof (H2 x Hx Hvx). lia.
    + right. exists i. rewrite in_snoc.
      exact (conj (or_intror eq_refl) (conj Ev (eq_sym Hv))).
  - split; [|split].
    + intros j Hj Hvj. apply in_snoc in Hj. destruct Hj as [Hj| ->].
      * exact (H2 j Hj Hvj).
      * rewrite <- Hv. lia.
    + intros x. rewrite !in_snoc, H3. split.
      * intros [(Hx & Hvx & E)| ->].
        -- exact (conj (or_introl Hx) (conj Hvx E)).
        -- split; [right; reflexivity|]. split; [exact Ev|lia].
      * intros ([Hx| ->] & Hvx & E).
        -- left. exact (conj Hx (conj Hvx E)).
        -- right. reflexivity.
    + destruct H4 as [E|(j & Hj & Hvj & E)]; [left; exact E|].
      right. exists j. rewrite in_snoc.
      exact (conj (or_introl Hj) (conj Hvj E)).
  - split; [|split].
    + intros j Hj Hvj. apply in_snoc in Hj. destruct Hj as [Hj| ->].
      * exact (H2 j Hj Hvj).
      * rewrite <- Hv. lia.
    + intros x. rewrite H3, in_snoc. split.
      * intros (Hx & Hvx & E). exact (conj (or_introl Hx) (conj Hvx E)).
      * intros ([Hx| ->] & Hvx & E).
        -- exact (conj Hx (conj Hvx E)).
        -- lia.
    + destruct H4 as [E|(j & Hj & Hvj & E)]; [left; exact E|].
      right. exists j. rewrite in_snoc.
      exact (conj (or_introl Hj) (conj Hvj E)).
Qed.

Lemma heuristic_loop (b m : Z) :
  forall l done best mv,
    heuristic_inv b m done best mv ->
    let r := fold_left (heuristic_step b m) l (best, mv) in
    heuristic_inv b m (done ++ l) (fst r) (snd r)
    /\ sublist (snd r) (mv ++ List.filter (valid m) l).
Proof.
  induction l as [|i l IH]; intros done best mv Hinv; cbv zeta.
  - cbn [fold_left fst snd List.filter]. rewrite !app_nil_r.
    split; [exact Hinv|reflexivity].
  - cbn [fold_left List.filter].
    replace (done ++ i :: l) with ((done ++ [i]) ++ l)
      by (rewrite <- app_assoc; reflexivity).
    destruct (valid m i) eqn:Ev.
    + pose proof (heuristic_inv_step b m done best mv i Ev Hinv) as Hstep.
      cbv zeta in Hstep.
      assert (Hsub : sublist (snd (heuristic_step b m (best, mv) i))
                             (mv ++ [i])).
      { rewrite (heuristic_step_valid b m best mv i Ev).
        destruct (_ >? _); [|destruct (_ =? _)]; cbn [snd].
        - apply sublist_inserts_l. reflexivity.
        - reflexivity.
        - apply sublist_inserts_r. reflexivity. }
      destruct (heuristic_step b m (best, mv) i) as [best' mv'].
      cbn [fst snd] in Hstep, Hsub.
      destruct (IH _ _ _ Hstep) as [HI HS]. split; [exact HI|].
      etransitivity; [exact HS|].
      replace (mv ++ i :: List.filter (valid m) l)
        with ((mv ++ [i]) ++ List.filter (valid m) l)
        by (rewrite <- app_assoc; reflexivity).
      apply sublist_app; [exact Hsub|reflexivity].
    + rewrite (heuristic_step_invalid b m best mv i Ev).
      apply (IH _ _ _ (heuristic_inv_skip b m done best mv i Ev Hinv)).
Qed.

Lemma filter_length_mono {A : Type} (p q : A -> bool) (l : list A) :
  (forall x, In x l -> p x = true -> q x = true) ->
  (length (List.filter p l) <= length (List.filter q l))%nat.
Proof.
  induction l as [|x l IH]; intros H; [reflexivity|].
  cbn [List.filter].
  assert (IH' : (length (List.filter p l) <= length (List.filter q l))%nat)
    by (apply IH; intros y Hy; apply H; right; exact Hy).
  pose proof (H x (or_introl eq_refl)) as Hx.
  destruct (p x); destruct (q x); cbn [length];
    first [lia | discriminate (Hx eq_refl)].
Qed.

(** [POPCOUNT] grows with the set of bits. *)
Lemma POPCOUNT_mono (x y : Z) :
  0 <= x < 2 ^ 25 -> 0 <= y < 2 ^ 25 ->
  (forall n, 0 <= n < 25 -> Z.testbit x n = true -> Z.testbit y n = true) ->
  POPCOUNT x <= POPCOUNT y.
Proof.
  intros Hx Hy H.
  rewrite (POPCOUNT_count 25 x), (POPCOUNT_count 25 y) by assumption.
  rewrite !count_bits_cells. apply inj_le.
  apply filter_length_mono. intros n Hn. apply H, in_cells, Hn.
Qed.

(** A placement never frees a cell. *)
Lemma space_gain_nonneg (b m i : Z) :
  is_u64 m -> 0 <= i < 25 -> 0 <= space_gain b m i.
Proof.
  intros Hm Hi. unfold space_gain. cbv zeta.
  set (k := lnot (Z.rem (turn b) 2) * 25).
  assert (Hk : k = 0 \/ k = 25)
    by (unfold k, lnot; destruct (_ =? 0); lia).
  enough (POPCOUNT (Z.land (Z.shiftr m k) 0x1ffffff)
          <= POPCOUNT (Z.land (Z.shiftr (mask m i) k) 0x1ffffff)) by lia.
  apply POPCOUNT_mono; try (apply land_range; lia).
  intros n Hn. rewrite ones25, !Z.land_spec, !Z.shiftr_spec by lia.
  rewrite Z.ones_spec_low, !andb_true_r by lia.
  rewrite testbit_mask by (assumption || lia).
  intros ->. reflexivity.
Qed.

(** X29. [heuristic] returns the moves that claim the most space: its list
    holds, in ascending order, exactly the valid cells whose placement
    forbids the most new cells in the plane [!who]; it is empty only when
    no cell is valid. *)
Theorem heuristic_claims_most_space (b m : Z) :
  is_u64 m ->
  sublist (heuristic b m) (List.filter (valid m) cells)
  /\ (forall i,
        In i (heuristic b m) <->
        0 <= i < 25 /\ valid m i = true
        /\ forall j, 0 <= j < 25 -> valid m j = true ->
             space_gain b m j <= space_gain b m i)
  /\ (heuristic b m = [] ->
      forall i, 0 <= i < 25 -> valid m i = false).
Proof.
  intros Hm.
  assert (Hinv0 : heuristic_inv b m [] 0 []).
  { split; [intros j []|]. split; [|left; reflexivity].
    intros x. cbn [In]. tauto. }
  destruct (heuristic_loop b m cells [] 0 [] Hinv0) as [Hinv Hsub].
  rewrite !app_nil_l in *. fold (heuristic b m) in Hinv, Hsub.
  remember (fst (fold_left (heuristic_step b m) cells (0, []))) as best.
  clear Heqbest. destruct Hinv as (H2 & H3 & H4).
  assert (Hchar : forall i,
             In i (heuristic b m) <->
             0 <= i < 25 /\ valid m i = true
             /\ forall j, 0 <= j < 25 -> valid m j = true ->
                  space_gain b m j <= space_gain b m i).
  { intros i. rewrite H3, in_cells. split.
    - intros (Hi & Ev & Ei). split; [exact Hi|]. split; [exact Ev|].
      intros j Hj Evj. rewrite Ei. apply H2; [apply in_cells|]; assumption.
    - intros (Hi & Ev & Hopt). split; [exact Hi|]. split; [exact Ev|].
      pose proof (H2 i (proj2 (in_cells i) Hi) Ev) as Hle.
      destruct H4 as [E0|(j & Hj & Evj & Ej)].
      + pose proof (space_gain_nonneg b m i Hm Hi). lia.
      + apply in_cells in Hj. pose proof (Hopt j Hj Evj). lia. }
  split; [exact Hsub|]. split; [exact Hchar|].
  intros Hnil i Hi. destruct (valid m i) eqn:Ev; [|reflexivity]. exfalso.
  pose proof (H2 i (proj2 (in_cells i) Hi) Ev) as Hle.
  pose proof (space_gain_nonneg b m i Hm Hi) as Hge.
  destruct H4 as [E0|(j & Hj & Evj & Ej)].
  - assert (Hin : In i (heuristic b m)).
    { apply H3. split; [apply in_cells, Hi|]. split; [exact Ev|lia]. }
    rewrite Hnil in Hin. exact Hin.
  - assert (Hin : In j (heuristic b m)).
    { apply H3. split; [exact Hj|]. split; [exact Evj|exact Ej]. }
    rewrite Hnil in Hin. exact Hin.
Qed.

Lemma heuristic_claims_most_space_witness :
  let b := fst choice_position in
  let m := snd choice_position in
  sublist (heuristic b m) (List.filter (valid m) cells)
  /\ (forall i,
        In i (heuristic b m) <->
        0 <= i < 25 /\ valid m i = true
        /\ forall j, 0 <= j < 25 -> valid m j = true ->
             space_gain b m j <= space_gain b m i)
  /\ (heuristic b m = [] ->
      forall i, 0 <= i < 25 -> valid m i = false).
Proof.
  intros b m. apply heuristic_claims_most_space.
  vm_compute. split; [discriminate|reflexivity].
Defined.

Lemma moves2bits_fold (l : list Z) :
  Forall (fun k => 0 <= k < 32) l ->
  forall acc, 0 <= acc < 2 ^ 32 ->
    let r := fold_left (fun b k => Z.lor b (Z.shiftl 1 k) mod 2 ^ 32) l acc in
    0 <= r < 2 ^ 32
    /\ forall n, 0 <= n ->
         Z.testbit r n = Z.testbit acc n || existsb (Z.eqb n) l.
Proof.
  induction 1 as [|k l Hk Hl IH]; intros acc Hacc; cbv zeta.
  - cbn [fold_left existsb]. split; [exact Hacc|].
    intros n Hn. rewrite orb_false_r. reflexivity.
  - cbn [fold_left existsb].
    assert (Hstep : 0 <= Z.lor acc (Z.shiftl 1 k) < 2 ^ 32).
    { apply lor_range; [exact Hacc| |lia]. apply bit_range. lia. }
    rewrite (Z.mod_small _ _ Hstep).
    destruct (IH _ Hstep) as [Hr Hbits]. split; [exact Hr|].
    intros n Hn. rewrite (Hbits n Hn), Z.lor_spec, testbit_bit by lia.
    rewrite (Z.eqb_sym k n), orb_assoc. reflexivity.
Qed.

Lemma existsb_eqb_In (n : Z) (l : list Z) :
  existsb (Z.eqb n) l = true <-> In n l.
Proof.
  rewrite existsb_exists. split.
  - intros (x & Hx & E). apply Z.eqb_eq in E. subst. exact Hx.
  - intros H. exists n. split; [exact H|apply Z.eqb_refl].
Qed.

Lemma moves2bits_bits (l : list Z) (n : Z) :
  Forall (fun k => 0 <= k < 32) l -> 0 <= n ->
  Z.testbit (moves2bits l) n = true <-> In n l.
Proof.
  intros Hl Hn.
  destruct (moves2bits_fold l Hl 0 ltac:(lia)) as [_ H].
  unfold moves2bits. rewrite (H n Hn), Z.bits_0. cbn [orb].
  apply existsb_eqb_In.
Qed.

(** X30. [moves2bits] sets exactly the bits of the listed moves, and the
    test [(goal | heur) != goal] of [test_heuristic] fires exactly when
    the heuristic proposes a move that [suggest] does not. *)
Theorem heuristic_test_is_inclusion (smoves hmoves : list Z) :
  Forall (fun k => 0 <= k < 32) smoves ->
  Forall (fun k => 0 <= k < 32) hmoves ->
  (forall n, 0 <= n ->
     (Z.testbit (moves2bits smoves) n = true <-> In n smoves))
  /\ 0 <= moves2bits smoves < 2 ^ 32
  /\ (heuristic_fails smoves hmoves = true <->
      exists k, In k hmoves /\ ~ In k smoves).
Proof.
  intros Hs Hh.
  pose proof (fun n Hn => moves2bits_bits smoves n Hs Hn) as Bs.
  pose proof (fun n Hn => moves2bits_bits hmoves n Hh Hn) as Bh.
  split; [exact Bs|]. split.
  { apply (moves2bits_fold smoves Hs 0). lia. }
  unfold heuristic_fails. cbv zeta. rewrite negb_true_iff, Z.eqb_neq.
  split.
  - intros Hne.
    destruct (existsb (fun k => negb (existsb (Z.eqb k) smoves)) hmoves)
      eqn:E.
    + apply existsb_exists in E. destruct E as (k & Hk & Hn).
      exists k. split; [exact Hk|]. intros Hin.
      apply existsb_eqb_In in Hin. rewrite Hin in Hn. discriminate.
    + exfalso. apply Hne. apply Z.bits_inj'. intros n Hn.
      rewrite Z.lor_spec.
      destruct (Z.testbit (moves2bits hmoves) n) eqn:Eh;
        [|apply orb_false_r].
      apply (Bh n Hn) in Eh.
      assert (Hin : In n smoves).
      { destruct (existsb (Z.eqb n) smoves) eqn:En;
          [apply existsb_eqb_In, En|].
        exfalso.
        assert (Hex : existsb (fun k => negb (existsb (Z.eqb k) smoves))
                              hmoves = true).
        { apply existsb_exists. exists n. rewrite En. auto. }
        congruence. }
      apply (Bs n Hn) in Hin. rewrite Hin. reflexivity.
  - intros (k & Hk & Hnk) E.
    assert (H0 : 0 <= k).
    { rewrite Stdlib.Lists.List.Forall_forall in Hh. apply (Hh k Hk). }
    apply (Bh k H0) in Hk. apply Hnk, (Bs k H0).
    rewrite <- E, Z.lor_spec, Hk. apply orb_true_r.
Qed.

Lemma heuristic_test_is_inclusion_witness :
  (forall n, 0 <= n ->
     (Z.testbit (moves2bits [15; 16; 20]) n = true <-> In n [15; 16; 20]))
  /\ 0 <= moves2bits [15; 16; 20] < 2 ^ 32
  /\ (heuristic_fails [15; 16; 20] [16; 24] = true <->
      exists k, In k [16; 24] /\ ~ In k [15; 16; 20]).
Proof.
  apply heuristic_test_is_inclusion.
  - repeat constructor; lia.
  - repeat constructor; lia.
Defined.
